(** * GameHub: the multiplayer tic-tac-toe coordinator and the Qibla compass

    A shallow embedding of [src/gamehub.jsx] (component
    [TicTacToeMultiplayer]) and of the compass script, with the properties of
    the specification stated on it.

    Conventions.
    - A Firestore document of the collection [ticTacToeGames] is the record
      [Game]; the collection is a finite map from document ids to documents.
    - The React state of the component is the record [Client]; every handler
      is a function from the client and the collection to the new client and
      the new collection ([await] is sequential here).
    - JavaScript truthiness is written out: [null] and the empty string are
      falsy, every other string is truthy.
    - The numbers of the compass script are real numbers: the rounding of
      floating-point arithmetic is not part of the model. *)

From Stdlib Require Import Reals Lra.
From stdpp Require Import base option list strings gmap.

(** ** Data model *)

(** The marks ['X'] and ['O']. *)
Inductive Mark : Set := X | O.

(** The non-null values of the [winner] field: ['X'], ['O'] or ['Draw']. *)
Inductive Outcome : Set := Won (m : Mark) | Draw.

(** The values of the [status] field. *)
Inductive Status : Set := waiting | inProgress | finished.

(** A square of the board: [null], ['X'] or ['O']. *)
Abbreviation Cell := (option Mark).

Global Instance Mark_eq_dec : EqDecision Mark.
Proof. solve_decision. Defined.
Global Instance Outcome_eq_dec : EqDecision Outcome.
Proof. solve_decision. Defined.
Global Instance Status_eq_dec : EqDecision Status.
Proof. solve_decision. Defined.

(** [squares[i]]: reading past the end of a JavaScript array gives
    [undefined], which the code below only tests for truthiness or compares
    with a mark; both tests treat it as they treat [null]. *)
Definition square (squares : list Cell) (i : nat) : Cell :=
  default None (squares !! i).

(** ** [calculateWinner] *)

Definition lines : list (nat * nat * nat) :=
  [ (0, 1, 2); (3, 4, 5); (6, 7, 8);
    (0, 3, 6); (1, 4, 7); (2, 5, 8);
    (0, 4, 8); (2, 4, 6) ].

(** The test of the loop body,
    [squares[a] && squares[a] === squares[b] && squares[a] === squares[c]],
    giving the mark of [squares[a]] when it succeeds. *)
Definition line_mark (squares : list Cell) (l : nat * nat * nat) : option Mark :=
  let '(a, b, c) := l in
  match square squares a with
  | Some m =>
      if bool_decide (square squares a = square squares b)
         && bool_decide (square squares a = square squares c)
      then Some m else None
  | None => None
  end.

(** The [for] loop over [lines]: the first line that passes the test
    returns. *)
Fixpoint scan_lines (squares : list Cell) (ls : list (nat * nat * nat)) : option Mark :=
  match ls with
  | [] => None
  | l :: rest =>
      match line_mark squares l with
      | Some m => Some m
      | None => scan_lines squares rest
      end
  end.

(** [square => square !== null] *)
Definition not_null (c : Cell) : bool :=
  match c with Some _ => true | None => false end.

Definition calculateWinner (squares : list Cell) : option Outcome :=
  match scan_lines squares lines with
  | Some m => Some (Won m)
  | None => if forallb not_null squares then Some Draw else None
  end.

(** ** Documents of the collection [ticTacToeGames] *)

Record Players : Set := {
  player1Id : option string;
  player2Id : option string }.

Module GameData.
(** The fields that [createNewGame] writes; dates are clock readings. *)
Record t : Set := mk {
  players : Players;
  board : list Cell;
  currentPlayer : Mark;
  status : Status;
  winner : option Outcome;
  createdAt : nat;
  lastMoveAt : nat }.
End GameData.
Abbreviation Game := GameData.t.

(** JavaScript truthiness of a value that is [null] or a string. *)
Definition truthy (v : option string) : bool :=
  match v with
  | Some EmptyString => false
  | Some _ => true
  | None => false
  end.

(** [v || null] *)
Definition or_null (v : option string) : option string :=
  if truthy v then v else None.

(** *** The store primitives used by the component

    [updateDoc] rejects when the document does not exist; that is the one
    store failure of this model. *)

Definition addDoc (st : gmap string Game) (newId : string) (data : Game) : gmap string Game :=
  <[newId := data]> st.

Definition getDoc (st : gmap string Game) (id : string) : option Game := st !! id.

Definition updateDoc (st : gmap string Game) (id : string) (fields : Game → Game)
  : option (gmap string Game) :=
  match st !! id with
  | Some data => Some (<[id := fields data]> st)
  | None => None
  end.

Definition deleteDoc (st : gmap string Game) (id : string) : gmap string Game :=
  delete id st.

(** ** The state of the component [TicTacToeMultiplayer] *)

Record Client : Set := {
  db : bool;                       (* the Firestore handle is not null *)
  userId : option string;
  currentGameId : option string;
  board : list Cell;
  currentPlayer : Mark;
  winner : option Outcome;
  status : Status;
  playerRole : option Mark;
  opponentId : option string;
  loading : bool;
  modalOpen : bool;
  modalTitle : string;
  modalMessage : string }.

Definition setLoading (b : bool) (c : Client) : Client :=
  {| db := db c; userId := userId c; currentGameId := currentGameId c;
     board := board c; currentPlayer := currentPlayer c; winner := winner c;
     status := status c; playerRole := playerRole c; opponentId := opponentId c;
     loading := b;
     modalOpen := modalOpen c; modalTitle := modalTitle c;
     modalMessage := modalMessage c |}.

Definition setCurrentGameId (g : option string) (c : Client) : Client :=
  {| db := db c; userId := userId c; currentGameId := g;
     board := board c; currentPlayer := currentPlayer c; winner := winner c;
     status := status c; playerRole := playerRole c; opponentId := opponentId c;
     loading := loading c;
     modalOpen := modalOpen c; modalTitle := modalTitle c;
     modalMessage := modalMessage c |}.

Definition setModalOpen (b : bool) (c : Client) : Client :=
  {| db := db c; userId := userId c; currentGameId := currentGameId c;
     board := board c; currentPlayer := currentPlayer c; winner := winner c;
     status := status c; playerRole := playerRole c; opponentId := opponentId c;
     loading := loading c;
     modalOpen := b; modalTitle := modalTitle c;
     modalMessage := modalMessage c |}.

(** [setModalTitle(t); setModalMessage(m); setModalOpen(true)] *)
Definition showModal (title message : string) (c : Client) : Client :=
  {| db := db c; userId := userId c; currentGameId := currentGameId c;
     board := board c; currentPlayer := currentPlayer c; winner := winner c;
     status := status c; playerRole := playerRole c; opponentId := opponentId c;
     loading := loading c;
     modalOpen := true; modalTitle := title; modalMessage := message |}.

(** The six setters of the game view, applied together. *)
Definition setGameView (b : list Cell) (p : Mark) (w : option Outcome) (s : Status)
    (role : option Mark) (opp : option string) (c : Client) : Client :=
  {| db := db c; userId := userId c; currentGameId := currentGameId c;
     board := b; currentPlayer := p; winner := w; status := s;
     playerRole := role; opponentId := opp;
     loading := loading c;
     modalOpen := modalOpen c; modalTitle := modalTitle c;
     modalMessage := modalMessage c |}.

(** [Array(9).fill(null)] *)
Definition emptyBoard : list Cell := replicate 9 None.

Definition outcome_text (w : Outcome) : string :=
  match w with Won X => "X" | Won O => "O" | Draw => "Draw" end.

(** [gameData.winner === 'Draw' ? 'It\'s a Draw!' : `Winner: ${gameData.winner}!`] *)
Definition gameOverMessage (w : Outcome) : string :=
  match w with
  | Draw => "It's a Draw!"
  | _ => "Winner: " +:+ outcome_text w +:+ "!"
  end.

(** The role branch of the snapshot listener: player 1 plays ['X'], player 2
    plays ['O'], anybody else observes. *)
Definition roleOf (gameData : Game) (user : option string) : option Mark :=
  let ps := GameData.players gameData in
  if bool_decide (player1Id ps = user) then Some X
  else if bool_decide (player2Id ps = user) then Some O
  else None.

Definition opponentOf (gameData : Game) (user : option string) : option string :=
  let ps := GameData.players gameData in
  if bool_decide (player1Id ps = user) then or_null (player2Id ps)
  else if bool_decide (player2Id ps = user) then or_null (player1Id ps)
  else None.

(** The listener on the current game's document ([onSnapshot] of the second
    effect), called with the data of the document, or with [None] when the
    document does not exist. *)
Definition onGameSnapshot (c : Client) (docSnap : option Game) : Client :=
  match docSnap with
  | Some gameData =>
      let c1 :=
        setGameView (GameData.board gameData) (GameData.currentPlayer gameData)
          (GameData.winner gameData) (GameData.status gameData)
          (roleOf gameData (userId c)) (opponentOf gameData (userId c)) c in
      match GameData.winner gameData with
      | Some w => showModal "Game Over!" (gameOverMessage w) c1
      | None => c1
      end
  | None =>
      showModal "Game Ended" "The game you were in has ended or was deleted."
        (setGameView emptyBoard X None waiting None None
           (setCurrentGameId None c))
  end.

(** ** The handlers *)

(** [newBoard[i] = v] on a copy of the array.  The squares rendered by the
    component are [0..8]; past the end JavaScript grows the array, leaving
    holes, which are written here as [null] squares. *)
Definition array_set (i : nat) (v : Cell) (squares : list Cell) : list Cell :=
  if decide (i < length squares) then <[i := v]> squares
  else squares ++ replicate (i - length squares) None ++ [v].

(** [createNewGame]; [newId] is the id that [addDoc] gives the document and
    [now] the reading of the clock. *)
Definition createNewGame (c : Client) (st : gmap string Game) (newId : string) (now : nat)
  : Client * gmap string Game :=
  if negb (db c) || negb (truthy (userId c)) then (c, st)
  else
    let data :=
      GameData.mk {| player1Id := userId c; player2Id := None |}
        emptyBoard X waiting None now now in
    (setLoading false (setCurrentGameId (Some newId) (setLoading true c)),
     addDoc st newId data).

(** The fields written by [joinGame]. *)
Definition joinFields (user : option string) (now : nat) (g : Game) : Game :=
  GameData.mk
    {| player1Id := player1Id (GameData.players g); player2Id := user |}
    (GameData.board g) (GameData.currentPlayer g) inProgress (GameData.winner g)
    (GameData.createdAt g) now.

Definition joinGame (c : Client) (st : gmap string Game)
    (gameId : string) (player1 : option string) (now : nat)
  : Client * gmap string Game :=
  if negb (db c) || negb (truthy (userId c))
     || bool_decide (Some gameId = currentGameId c)
  then (c, st)
  else if bool_decide (player1 = userId c) then
    (showModal "Cannot Join"
       "You cannot join your own game. Please wait for an opponent or create a new game."
       c, st)
  else
    match updateDoc st gameId (joinFields (userId c) now) with
    | Some st' =>
        (setLoading false (setCurrentGameId (Some gameId) (setLoading true c)), st')
    | None =>
        (showModal "Error"
           "Failed to join the game. It might be full or no longer exists."
           (setLoading false (setLoading true c)), st)
    end.

(** The guard of [makeMove]:
    [!db || !currentGameId || winner || board[i] || status !== 'inProgress'
     || currentPlayer !== playerRole]. *)
Definition moveRejected (c : Client) (i : nat) : bool :=
  negb (db c) || negb (truthy (currentGameId c))
  || bool_decide (winner c ≠ None)
  || not_null (square (board c) i)
  || bool_decide (status c ≠ inProgress)
  || bool_decide (Some (currentPlayer c) ≠ playerRole c).

(** The fields written by [makeMove]. *)
Definition moveFields (newBoard : list Cell) (role : option Mark)
    (newWinner : option Outcome) (now : nat) (g : Game) : Game :=
  GameData.mk (GameData.players g) newBoard
    (if bool_decide (role = Some X) then O else X)
    (match newWinner with Some _ => finished | None => inProgress end)
    newWinner (GameData.createdAt g) now.

Definition makeMove (c : Client) (st : gmap string Game) (i : nat) (now : nat)
  : Client * gmap string Game :=
  if moveRejected c i then (c, st)
  else
    let newBoard := array_set i (playerRole c) (board c) in
    let newWinner := calculateWinner newBoard in
    match currentGameId c with
    | Some gameId =>
        match updateDoc st gameId (moveFields newBoard (playerRole c) newWinner now) with
        | Some st' => (c, st')
        | None =>
            (showModal "Error" "Failed to make move. Please check your connection." c, st)
        end
    | None => (c, st)
    end.

(** The fields written by [resetCurrentGame]. *)
Definition resetFields (now : nat) (g : Game) : Game :=
  GameData.mk (GameData.players g) emptyBoard X inProgress None
    (GameData.createdAt g) now.

Definition resetCurrentGame (c : Client) (st : gmap string Game) (now : nat)
  : Client * gmap string Game :=
  if negb (db c) || negb (truthy (currentGameId c))
     || bool_decide (playerRole c = None)
  then (c, st)
  else
    match currentGameId c with
    | Some gameId =>
        match updateDoc st gameId (resetFields now) with
        | Some st' => (setModalOpen false c, st')
        | None =>
            (showModal "Error" "Failed to reset game. Please try again." c, st)
        end
    | None => (c, st)
    end.

(** The fields written by [leaveGame] when player 1 leaves a game that has a
    player 2, and when player 2 leaves. *)
Definition promoteFields (g : Game) : Game :=
  GameData.mk
    {| player1Id := player2Id (GameData.players g); player2Id := None |}
    (GameData.board g) (GameData.currentPlayer g) waiting None
    (GameData.createdAt g) (GameData.lastMoveAt g).

Definition removePlayer2Fields (g : Game) : Game :=
  GameData.mk
    {| player1Id := player1Id (GameData.players g); player2Id := None |}
    (GameData.board g) (GameData.currentPlayer g) waiting None
    (GameData.createdAt g) (GameData.lastMoveAt g).

(** The local state that [leaveGame] sets after the store calls. *)
Definition leftGame (c : Client) : Client :=
  setModalOpen false
    (setGameView emptyBoard X None waiting None None (setCurrentGameId None c)).

Definition leaveGame (c : Client) (st : gmap string Game)
  : Client * gmap string Game :=
  if negb (db c) || negb (truthy (currentGameId c)) then (c, st)
  else
    match currentGameId c with
    | Some gameId =>
        match getDoc st gameId with
        | Some gameData =>
            let ps := GameData.players gameData in
            if bool_decide (player1Id ps = userId c) && negb (truthy (player2Id ps))
            then (leftGame c, deleteDoc st gameId)
            else if bool_decide (player1Id ps = userId c) then
              match updateDoc st gameId promoteFields with
              | Some st' => (leftGame c, st')
              | None =>
                  (showModal "Error" "Failed to leave game. Please try again." c, st)
              end
            else if bool_decide (player2Id ps = userId c) then
              match updateDoc st gameId removePlayer2Fields with
              | Some st' => (leftGame c, st')
              | None =>
                  (showModal "Error" "Failed to leave game. Please try again." c, st)
              end
            else (leftGame c, st)
        | None => (leftGame c, st)
        end
    | None => (c, st)
    end.

(** The condition under which the lobby renders the join button of a game:
    [game.status === 'waiting' && game.players.player1Id !== userId]. *)
Definition joinButtonShown (c : Client) (game : Game) : bool :=
  bool_decide (GameData.status game = waiting)
  && bool_decide (player1Id (GameData.players game) ≠ userId c).

(** ** The operations of the coordinator

    Each operation of the specification is a handler run by one participant:
    [mounted user] is the component as it is mounted for an authenticated
    participant who looks at the lobby, and [inGame user matchId st] the
    component of a participant whose current game is [matchId], after the
    snapshot listener has delivered the document held by the store. *)

Definition mounted (user : string) : Client :=
  {| db := true; userId := Some user; currentGameId := None;
     board := emptyBoard; currentPlayer := X; winner := None; status := waiting;
     playerRole := None; opponentId := None;
     loading := false; modalOpen := false;
     modalTitle := EmptyString; modalMessage := EmptyString |}.

Definition inGame (user matchId : string) (st : gmap string Game) : Client :=
  onGameSnapshot (setCurrentGameId (Some matchId) (mounted user)) (st !! matchId).

Definition createMatch (st : gmap string Game) (ownerId newId : string) (now : nat)
  : Client * gmap string Game :=
  createNewGame (mounted ownerId) st newId now.

(** The lobby's button: [joinGame(game.id, game.players.player1Id)]. *)
Definition joinMatch (st : gmap string Game) (matchId joinerId : string) (now : nat)
  : Client * gmap string Game :=
  match st !! matchId with
  | Some game =>
      joinGame (mounted joinerId) st matchId (player1Id (GameData.players game)) now
  | None => (mounted joinerId, st)
  end.

Definition submitMove (st : gmap string Game) (matchId actorId : string) (i now : nat)
  : Client * gmap string Game :=
  makeMove (inGame actorId matchId st) st i now.

Definition resetMatch (st : gmap string Game) (matchId actorId : string) (now : nat)
  : Client * gmap string Game :=
  resetCurrentGame (inGame actorId matchId st) st now.

Definition leaveMatch (st : gmap string Game) (matchId leaverId : string)
  : Client * gmap string Game :=
  leaveGame (inGame leaverId matchId st) st.

(** ** The vocabulary of the specification *)

(** The other mark. *)
Definition opposite (m : Mark) : Mark :=
  match m with X => O | O => X end.

(** A board line is won by [m] when its three squares hold [m]. *)
Definition line_won (squares : list Cell) (m : Mark) (l : nat * nat * nat) : Prop :=
  squares !! l.1.1 = Some (Some m) ∧ squares !! l.1.2 = Some (Some m)
  ∧ squares !! l.2 = Some (Some m).

(** All squares of the board are filled. *)
Definition full (squares : list Cell) : Prop :=
  ∀ j c, squares !! j = Some c → c ≠ None.

(** The number of filled squares. *)
Definition filledSquares (squares : list Cell) : nat :=
  length (List.filter not_null squares).

(** The four rejections of [submitMove], read on the document. *)
Definition moveRefused (g : Game) (actorId : string) (i : nat) : Prop :=
  GameData.status g ≠ inProgress ∨ GameData.winner g ≠ None
  ∨ GameData.board g !! i ≠ Some None
  ∨ roleOf g (Some actorId) ≠ Some (GameData.currentPlayer g).

(** The two invariants of the data model. *)
Definition finishedIffWinner (g : Game) : Prop :=
  GameData.status g = finished ↔ GameData.winner g ≠ None.

Definition waitingIffAlone (g : Game) : Prop :=
  GameData.status g = waiting ↔ player2Id (GameData.players g) = None.

(** ** Sequences of operations on one match *)

(** A sequence of [submitMove] calls, each of which passes the guard of
    [makeMove]; [None] as soon as one call is rejected. *)
Fixpoint playMoves (st : gmap string Game) (matchId : string)
    (moves : list (string * nat)) (now : nat) : option (gmap string Game) :=
  match moves with
  | [] => Some st
  | (actorId, i) :: rest =>
      if moveRejected (inGame actorId matchId st) i then None
      else playMoves (submitMove st matchId actorId i now).2 matchId rest (S now)
  end.

(** After [createMatch], any participant may run any of the four other
    operations on the document, one call at a time; [allowed] restricts the
    calls that a sequence may contain (a call on a deleted document changes
    nothing and is left out). *)
Inductive Op : Set :=
  | OpJoin (joinerId : string)
  | OpMove (actorId : string) (i : nat)
  | OpReset (actorId : string)
  | OpLeave (leaverId : string).

Definition applyOp (st : gmap string Game) (matchId : string) (op : Op) (now : nat)
  : gmap string Game :=
  match op with
  | OpJoin joinerId => (joinMatch st matchId joinerId now).2
  | OpMove actorId i => (submitMove st matchId actorId i now).2
  | OpReset actorId => (resetMatch st matchId actorId now).2
  | OpLeave leaverId => (leaveMatch st matchId leaverId).2
  end.

Inductive reachable (matchId : string) (allowed : Op → Game → Prop)
  : gmap string Game → Prop :=
  | reach_create (st : gmap string Game) (ownerId : string) (now : nat) :
      ownerId ≠ EmptyString →
      reachable matchId allowed (createMatch st ownerId matchId now).2
  | reach_op (st : gmap string Game) (g : Game) (op : Op) (now : nat) :
      reachable matchId allowed st →
      st !! matchId = Some g → allowed op g →
      reachable matchId allowed (applyOp st matchId op now).

(** Sequences without restriction; sequences in which a match is joined
    only while it is waiting (the lobby renders the join button of no other
    match); sequences in which a match is reset only while it has a
    player 2; sequences that obey both restrictions. *)
Definition anyOp (op : Op) (g : Game) : Prop := True.

Definition joinWhileWaiting (op : Op) (g : Game) : Prop :=
  match op with
  | OpJoin _ => GameData.status g = waiting
  | _ => True
  end.

Definition resetWithTwoPlayers (op : Op) (g : Game) : Prop :=
  match op with
  | OpReset _ => player2Id (GameData.players g) ≠ None
  | _ => True
  end.

Definition lobbyOps (op : Op) (g : Game) : Prop :=
  joinWhileWaiting op g ∧ resetWithTwoPlayers op g.

(** ** Scenarios *)

(** The board X X X / _ O O / _ _ _. *)
Definition sampleBoard : list Cell :=
  [Some X; Some X; Some X; None; Some O; Some O; None; None; None].

(** The match created by alice in an empty collection, before anybody
    joins. *)
Definition aliceWaiting : gmap string Game :=
  (createMatch ∅ "alice" "m1" 0).2.

Definition aliceGame : Game :=
  GameData.mk {| player1Id := Some "alice"; player2Id := None |}
    emptyBoard X waiting None 0 0.

(** The same match once bob has joined it. *)
Definition aliceBob : gmap string Game :=
  (joinMatch (createMatch ∅ "alice" "m1" 0).2 "m1" "bob" 1).2.

Definition aliceBobGame : Game :=
  GameData.mk {| player1Id := Some "alice"; player2Id := Some "bob" |}
    emptyBoard X inProgress None 0 1.

(** A game of nine moves without a won line:
    X O X / X O O / O X X. *)
Definition drawMoves : list (string * nat) :=
  [("alice", 0); ("bob", 1); ("alice", 2); ("bob", 4); ("alice", 3);
   ("bob", 5); ("alice", 7); ("bob", 6); ("alice", 8)].

(** The match that alice has just created, reset by alice. *)
Definition aliceReset : gmap string Game :=
  applyOp aliceWaiting "m1" (OpReset "alice") 1.

(** The match of alice and bob, played until X wins the top row, and the
    same match joined by carol afterwards. *)
Definition wonPlay : gmap string Game :=
  applyOp (applyOp (applyOp (applyOp (applyOp aliceBob
    "m1" (OpMove "alice" 0) 2) "m1" (OpMove "bob" 3) 3)
    "m1" (OpMove "alice" 1) 4) "m1" (OpMove "bob" 4) 5)
    "m1" (OpMove "alice" 2) 6.

Definition wonGame : Game :=
  GameData.mk {| player1Id := Some "alice"; player2Id := Some "bob" |}
    [Some X; Some X; Some X; Some O; Some O; None; None; None; None]
    O finished (Some (Won X)) 0 6.

Definition carolJoined : gmap string Game :=
  applyOp wonPlay "m1" (OpJoin "carol") 7.

(** ** The compass script *)

Section CompassScript.
Local Open Scope R_scope.

(** [Math.atan2(y, x)] on real numbers: the angle of the point [(x, y)] in
    the interval from [-PI] (excluded) to [PI], and [0] at the origin. *)
Definition atan2 (y x : R) : R :=
  if Rlt_dec 0 x then atan (y / x)
  else if Rlt_dec x 0 then
    if Rle_dec 0 y then atan (y / x) + PI else atan (y / x) - PI
  else if Rlt_dec 0 y then PI / 2
  else if Rlt_dec y 0 then - (PI / 2)
  else 0.

(** The integer part of a number, rounding toward zero. *)
Definition truncate (x : R) : Z :=
  if Rle_dec 0 x then Int_part x else (- Int_part (- x))%Z.

(** The operator [%]: the remainder has the sign of the dividend. *)
Definition remainder (a b : R) : R := a - b * IZR (truncate (a / b)).

Definition toRadians (deg : R) : R := deg * PI / 180.
Definition toDegrees (rad : R) : R := rad * 180 / PI.

Definition getQiblaAngle (lat1 lon1 lat2 lon2 : R) : R :=
  let latRad1 := toRadians lat1 in
  let lonRad1 := toRadians lon1 in
  let latRad2 := toRadians lat2 in
  let lonRad2 := toRadians lon2 in
  let y := sin (lonRad2 - lonRad1) * cos latRad2 in
  let x := cos latRad1 * sin latRad2
           - sin latRad1 * cos latRad2 * cos (lonRad2 - lonRad1) in
  let brng := atan2 y x in
  let brng := toDegrees brng in
  remainder (brng + 360) 360.

Definition qiblaLat : R := 21.4225.
Definition qiblaLon : R := 39.8262.

(** [x.toFixed(2)] is a decimal numeral with two fraction digits; it is
    represented by its number of hundredths [n], the integer for which
    [n / 100 - x] is closest to zero, the larger one when there are two, taken
    on the absolute value of a negative [x]. *)
Definition toFixed2 (x : R) : Z :=
  if Rle_dec 0 x then Int_part (x * 100 + 1 / 2)
  else (- Int_part (- x * 100 + 1 / 2))%Z.

(** [parseFloat] of such a numeral. *)
Definition parseFloat (hundredths : Z) : R := IZR hundredths / 100.

(** The part of the page that the script writes: the text of
    [#qibla-direction], the angle of the [rotate(..deg)] transform of
    [.compass], and whether [handleOrientation] listens to the
    [deviceorientation] events. *)
Record Page : Type := {
  qiblaDirection : Z;
  compass : R;
  listening : bool }.

Definition showPosition (userLat userLon : R) : Page :=
  let qiblaAngle := getQiblaAngle userLat userLon qiblaLat qiblaLon in
  {| qiblaDirection := toFixed2 qiblaAngle;
     compass := qiblaAngle;
     listening := true |}.

(** [event.alpha] is a number or [null]; the events reach the handler once
    [showPosition] has registered it. *)
Definition handleOrientation (p : Page) (alpha : option R) : Page :=
  match alpha with
  | Some alpha =>
      let qiblaAngle := parseFloat (qiblaDirection p) in
      let finalRotation := qiblaAngle - alpha in
      {| qiblaDirection := qiblaDirection p;
         compass := finalRotation;
         listening := listening p |}
  | None => p
  end.

End CompassScript.

From Stdlib Require Import Ascii.
From stdpp Require Import pretty sorting.

(** ** Further vocabulary for the multiplayer match *)

(** The number of squares that hold the mark [m]. *)
Definition countMark (m : Mark) (squares : list Cell) : nat :=
  length (List.filter (λ c, bool_decide (c = Some m)) squares).

(** The marks on the board agree with the turn: X and O have played the
    same number of times and X is to move, or X has played once more and O
    is to move. *)
Definition balanced (g : Game) : Prop :=
  (countMark X (GameData.board g) = countMark O (GameData.board g)
   ∧ GameData.currentPlayer g = X)
  ∨ (countMark X (GameData.board g) = S (countMark O (GameData.board g))
     ∧ GameData.currentPlayer g = O).

(** Sequences whose moves target the nine squares that the component
    renders. *)
Definition renderedSquares (op : Op) (g : Game) : Prop :=
  match op with
  | OpMove _ i => i < 9
  | _ => True
  end.

(** The participant is one of the two players of the document. *)
Definition isPlayer (g : Game) (user : string) : Prop :=
  player1Id (GameData.players g) = Some user
  ∨ player2Id (GameData.players g) = Some user.

(** ** The single-player tic-tac-toe ([TicTacToeSinglePlayer])

    The component has its own copy of [calculateWinner], with the same text
    as the multiplayer one. *)

Module SinglePlayer.

Record State : Set := {
  board : list Cell;
  xIsNext : bool;
  winner : option Outcome;
  modalOpen : bool;
  modalMessage : string }.

(** The initial values of the hooks, which [resetGame] sets again. *)
Definition resetGame : State :=
  {| board := emptyBoard; xIsNext := true; winner := None;
     modalOpen := false; modalMessage := EmptyString |}.

(** [setWinner(w); setModalMessage(..); setModalOpen(true)] *)
Definition gameOver (w : Outcome) (s : State) : State :=
  {| board := board s; xIsNext := xIsNext s; winner := Some w;
     modalOpen := true; modalMessage := gameOverMessage w |}.

(** [handleClick(i)].  The second component is the board handed to the
    [makeComputerMove] that the handler schedules with [setTimeout], if it
    schedules one: it does so under [!xIsNext], read when the handler
    starts. *)
Definition handleClick (s : State) (i : nat) : State * option (list Cell) :=
  if bool_decide (winner s ≠ None) || not_null (square (board s) i) then (s, None)
  else
    let newBoard := array_set i (Some (if xIsNext s then X else O)) (board s) in
    let s1 := {| board := newBoard; xIsNext := negb (xIsNext s);
                 winner := winner s; modalOpen := modalOpen s;
                 modalMessage := modalMessage s |} in
    match calculateWinner newBoard with
    | Some currentWinner => (gameOver currentWinner s1, None)
    | None => if negb (xIsNext s) then (s1, Some newBoard) else (s1, None)
    end.

(** [currentBoard.map((val, idx) => val === null ? idx : null)
                 .filter(val => val !== null)] *)
Definition availableMoves (currentBoard : list Cell) : list nat :=
  omap (λ val, val)
    (imap (λ idx val, match val with None => Some idx | Some _ => None end)
       currentBoard).

(** [makeComputerMove(currentBoard)]; [randomIndex] is the value of
    [Math.floor(Math.random() * availableMoves.length)], a number below the
    length of [availableMoves]. *)
Definition makeComputerMove (s : State) (currentBoard : list Cell) (randomIndex : nat)
  : State :=
  if bool_decide (0 < length (availableMoves currentBoard)) then
    match availableMoves currentBoard !! randomIndex with
    | Some computerMoveIndex =>
        let newBoard := array_set computerMoveIndex (Some O) currentBoard in
        let s1 := {| board := newBoard; xIsNext := true;
                     winner := winner s; modalOpen := modalOpen s;
                     modalMessage := modalMessage s |} in
        match calculateWinner newBoard with
        | Some currentWinner => gameOver currentWinner s1
        | None => s1
        end
    | None => s
    end
  else s.

(** The component with the timer it may have pending: a click of the user,
    or the expiry of the timer with the random number drawn then.  A timer
    expires 500 ms after the click that scheduled it; a run is well timed
    when the user waits for the pending timer before clicking again.  The
    random number of a timer is below the number of available moves (or 0
    when there is none), as [Math.floor(Math.random() * n)] is.  [play] is
    [None] on the other sequences of events. *)
Inductive Event : Set :=
  | Click (i : nat)
  | Timeout (randomIndex : nat).

Definition step (sp : State * option (list Cell)) (e : Event)
  : option (State * option (list Cell)) :=
  match e, sp.2 with
  | Click i, None => Some (handleClick sp.1 i)
  | Timeout randomIndex, Some currentBoard =>
      if bool_decide (randomIndex < length (availableMoves currentBoard)
                      ∨ randomIndex = 0)
      then Some (makeComputerMove sp.1 currentBoard randomIndex, None)
      else None
  | _, _ => None
  end.

Fixpoint playFrom (sp : State * option (list Cell)) (events : list Event)
  : option (State * option (list Cell)) :=
  match events with
  | [] => Some sp
  | e :: rest =>
      match step sp e with
      | Some sp' => playFrom sp' rest
      | None => None
      end
  end.

Definition play (events : list Event) : option (State * option (list Cell)) :=
  playFrom (resetGame, None) events.

End SinglePlayer.

(** The turn structure of the single-player game, on the component and its
    pending timer: the board has nine squares; while a timer is pending the
    game goes on, X is announced and O has one mark less than twice the
    marks of X; otherwise, when X is announced, O has twice the marks of X
    (or one less, the game being over), and when O is announced, O has two
    marks less than twice the marks of X. *)
Definition singlePlayerTurns (sp : SinglePlayer.State * option (list Cell)) : Prop :=
  let squares := SinglePlayer.board sp.1 in
  length squares = 9
  ∧ match sp.2 with
    | Some currentBoard =>
        currentBoard = squares ∧ calculateWinner currentBoard = None
        ∧ SinglePlayer.winner sp.1 = None ∧ SinglePlayer.xIsNext sp.1 = true
        ∧ countMark O squares + 1 = 2 * countMark X squares
    | None =>
        if SinglePlayer.xIsNext sp.1
        then countMark O squares = 2 * countMark X squares
             ∨ (SinglePlayer.winner sp.1 ≠ None
                ∧ countMark O squares + 1 = 2 * countMark X squares)
        else countMark O squares + 2 = 2 * countMark X squares
    end.

(** The clicks of a run are on the nine rendered squares. *)
Definition renderedClick (e : SinglePlayer.Event) : Prop :=
  match e with
  | SinglePlayer.Click i => i < 9
  | SinglePlayer.Timeout _ => True
  end.

(** ** Rock, paper, scissors ([RockPaperScissors]) *)

Module RockPaperScissors.

Inductive Choice : Set := rock | paper | scissors.

Global Instance Choice_eq_dec : EqDecision Choice.
Proof. solve_decision. Defined.

Record Score : Set := { player : nat; computer : nat }.

Record State : Set := {
  playerChoice : option Choice;
  computerChoice : option Choice;
  result : string;
  score : Score }.

Definition choices : list Choice := [rock; paper; scissors].

(** [determineWinner(player, computer)]: the text it returns and the score
    after its [setScore].  [computer] is an element of [choices], or
    [undefined] when the index is past the end. *)
Definition determineWinner (player : Choice) (computer : option Choice) (sc : Score)
  : string * Score :=
  if bool_decide (Some player = computer) then ("It's a tie!", sc)
  else if bool_decide (player = rock ∧ computer = Some scissors)
          || bool_decide (player = paper ∧ computer = Some rock)
          || bool_decide (player = scissors ∧ computer = Some paper)
  then ("You win!", {| player := RockPaperScissors.player sc + 1;
                       computer := RockPaperScissors.computer sc |})
  else ("Computer wins!", {| player := RockPaperScissors.player sc;
                             computer := RockPaperScissors.computer sc + 1 |}).

(** [handlePlay(choice)]; [randomIndex] is the value of
    [Math.floor(Math.random() * choices.length)]. *)
Definition handlePlay (s : State) (choice : Choice) (randomIndex : nat) : State :=
  let randomComputerChoice := choices !! randomIndex in
  let '(text, sc) := determineWinner choice randomComputerChoice (score s) in
  {| playerChoice := Some choice;
     computerChoice := randomComputerChoice;
     result := text;
     score := sc |}.

Definition resetGame : State :=
  {| playerChoice := None; computerChoice := None; result := EmptyString;
     score := {| player := 0; computer := 0 |} |}.

(** The rounds played after a reset, each with the user's choice and the
    random index drawn in it. *)
Definition playRounds (rounds : list (Choice * nat)) : State :=
  foldl (λ s round, handlePlay s round.1 round.2) resetGame rounds.

(** The round is tied: the random index designates the user's choice. *)
Definition tied (round : Choice * nat) : bool :=
  bool_decide (choices !! round.2 = Some round.1).

End RockPaperScissors.

(** ** The clicker ([SimpleClickerGame]) *)

Module Clicker.

Record State : Set := {
  score : Z;
  clickPower : Z;
  upgradeCost : Z;
  modalOpen : bool;
  modalTitle : string;
  modalMessage : string }.

Definition resetGame (s : State) : State :=
  {| score := 0; clickPower := 1; upgradeCost := 10;
     modalOpen := false; modalTitle := modalTitle s;
     modalMessage := modalMessage s |}.

(** The initial values of the hooks. *)
Definition initial : State :=
  {| score := 0; clickPower := 1; upgradeCost := 10;
     modalOpen := false; modalTitle := EmptyString;
     modalMessage := EmptyString |}.

Definition handleClick (s : State) : State :=
  {| score := score s + clickPower s; clickPower := clickPower s;
     upgradeCost := upgradeCost s;
     modalOpen := modalOpen s; modalTitle := modalTitle s;
     modalMessage := modalMessage s |}.

(** [handleUpgrade]; [Math.floor(prevCost * 1.5)] is the quotient of
    [3 * prevCost] by 2, rounded down. *)
Definition handleUpgrade (s : State) : State :=
  if bool_decide (upgradeCost s ≤ score s)%Z then
    {| score := score s - upgradeCost s;
       clickPower := clickPower s + 1;
       upgradeCost := (3 * upgradeCost s) `div` 2;
       modalOpen := true; modalTitle := "Upgrade Successful!";
       modalMessage :=
         "Your click power is now " +:+ pretty (clickPower s + 1)%Z +:+ "!" |}
  else
    {| score := score s; clickPower := clickPower s;
       upgradeCost := upgradeCost s;
       modalOpen := true; modalTitle := "Not Enough Score!";
       modalMessage :=
         "You need " +:+ pretty (upgradeCost s - score s)%Z
         +:+ " more score to upgrade." |}.

Inductive Event : Set := ClickMe | Upgrade | Reset.

Definition step (s : State) (e : Event) : State :=
  match e with
  | ClickMe => handleClick s
  | Upgrade => handleUpgrade s
  | Reset => resetGame s
  end.

Definition run (events : list Event) : State := foldl step initial events.

End Clicker.

(** ** Built-in functions on text

    A character of a [string] stands for a UTF-16 code unit below 256. *)

(** White space and line terminators below 256: TAB, LF, VT, FF, CR, SP
    and NBSP. *)
Definition isWhiteSpace (a : ascii) : bool :=
  bool_decide (nat_of_ascii a ∈ [9; 10; 11; 12; 13; 32; 160]).

(** The value of a decimal digit. *)
Definition digitValue (a : ascii) : option Z :=
  let n := nat_of_ascii a in
  if bool_decide (48 ≤ n ≤ 57) then Some (Z.of_nat n - 48)%Z else None.

Fixpoint skipWhiteSpace (s : string) : string :=
  match s with
  | String a rest => if isWhiteSpace a then skipWhiteSpace rest else s
  | EmptyString => s
  end.

(** The value of the longest prefix of decimal digits, [acc] being the
    value of the digits read so far, if any. *)
Fixpoint parseDigits (s : string) (acc : option Z) : option Z :=
  match s with
  | String a rest =>
      match digitValue a with
      | Some d => parseDigits rest (Some (10 * default 0 acc + d)%Z)
      | None => acc
      end
  | EmptyString => acc
  end.

(** [parseInt(s, 10)]: leading white space is skipped, one sign is read,
    then the longest prefix of digits; [None] is [NaN]. *)
Definition parseInt (s : string) : option Z :=
  match skipWhiteSpace s with
  | String "-"%char rest => Z.opp <$> parseDigits rest None
  | String "+"%char rest => parseDigits rest None
  | s1 => parseDigits s1 None
  end.

Fixpoint dropWhiteSpace (l : list ascii) : list ascii :=
  match l with
  | a :: rest => if isWhiteSpace a then dropWhiteSpace rest else l
  | [] => []
  end.

(** [s.trim()] *)
Definition trim (s : string) : string :=
  Stdlib.Strings.String.string_of_list_ascii
    (rev (dropWhiteSpace
            (rev (dropWhiteSpace (Stdlib.Strings.String.list_ascii_of_string s))))).

(** ** The number guessing game ([NumberGuessingGame]) *)

Module NumberGuessing.

Record State : Set := {
  targetNumber : option Z;
  guess : string;
  message : string;
  attempts : Z;
  gameOver : bool;
  modalOpen : bool;
  modalTitle : string;
  modalMessage : string }.

(** The initial values of the hooks. *)
Definition initial : State :=
  {| targetNumber := None; guess := EmptyString; message := EmptyString;
     attempts := 0; gameOver := false; modalOpen := false;
     modalTitle := EmptyString; modalMessage := EmptyString |}.

(** [startGame]; [random] is the value of [Math.random()]. *)
Definition startGame (s : State) (random : R) : State :=
  let newTarget := (Int_part (random * 100)%R + 1)%Z in
  {| targetNumber := Some newTarget; guess := EmptyString;
     message := "Guess a number between 1 and 100!";
     attempts := 0; gameOver := false; modalOpen := false;
     modalTitle := modalTitle s; modalMessage := modalMessage s |}.

(** The input's [onChange]: [setGuess(e.target.value)]. *)
Definition setGuess (text : string) (s : State) : State :=
  {| targetNumber := targetNumber s; guess := text; message := message s;
     attempts := attempts s; gameOver := gameOver s; modalOpen := modalOpen s;
     modalTitle := modalTitle s; modalMessage := modalMessage s |}.

(** [numGuess < targetNumber], where [null] counts as 0. *)
Definition lessThanTarget (numGuess : Z) (target : option Z) : bool :=
  bool_decide (numGuess < default 0 target)%Z.

Definition handleGuess (s : State) : State :=
  let invalid :=
    {| targetNumber := targetNumber s; guess := guess s;
       message := "Please enter a valid number between 1 and 100.";
       attempts := attempts s; gameOver := gameOver s; modalOpen := modalOpen s;
       modalTitle := modalTitle s; modalMessage := modalMessage s |} in
  match parseInt (guess s) with
  | None => invalid
  | Some numGuess =>
      if bool_decide (numGuess < 1)%Z || bool_decide (100 < numGuess)%Z then invalid
      else if bool_decide (Some numGuess = targetNumber s) then
        {| targetNumber := targetNumber s; guess := EmptyString;
           message :=
             "Congratulations! You guessed the number " +:+ pretty numGuess
             +:+ " in " +:+ pretty (attempts s + 1)%Z +:+ " attempts!";
           attempts := attempts s + 1; gameOver := true; modalOpen := true;
           modalTitle := "Congratulations!";
           modalMessage :=
             "You guessed the number " +:+ pretty numGuess
             +:+ " in " +:+ pretty (attempts s + 1)%Z +:+ " attempts!" |}
      else
        {| targetNumber := targetNumber s; guess := EmptyString;
           message := if lessThanTarget numGuess (targetNumber s)
                      then "Too low! Try again." else "Too high! Try again.";
           attempts := attempts s + 1; gameOver := gameOver s;
           modalOpen := modalOpen s;
           modalTitle := modalTitle s; modalMessage := modalMessage s |}
  end.

(** The user types a text and presses the button, for each text in turn. *)
Definition guessAll (s : State) (texts : list string) : State :=
  foldl (λ s text, handleGuess (setGuess text s)) s texts.

(** The text is a guess that the game counts, of the number [n]. *)
Definition counted (text : string) (n : Z) : Prop :=
  parseInt text = Some n ∧ (1 ≤ n ≤ 100)%Z.

Definition isCounted (text : string) : bool :=
  match parseInt text with
  | Some n => bool_decide (1 ≤ n ≤ 100)%Z
  | None => false
  end.

End NumberGuessing.

(** ** The chat room ([ChatRoom]) *)

Module Chat.

(** A document of the collection [chatMessages] as the listener maps it:
    [{ id: doc.id, ...doc.data() }]. *)
Record Message : Set := {
  id : string;
  userId : option string;
  text : string;
  timestamp : Z }.

(** The data that [sendMessage] hands to [addDoc]. *)
Record Data : Set := {
  dataUserId : option string;
  dataText : string;
  dataTimestamp : Z }.

Record State : Set := {
  messages : list Message;
  newMessage : string;
  loading : bool }.

(** [fetchedMessages.sort((a, b) => a.timestamp - b.timestamp)].  The sort
    of an array is stable, and the comparison of two numbers is consistent,
    so the result is the one list that is ordered by timestamp and keeps
    the messages of one timestamp in the order of the snapshot; it is
    computed here by insertion. *)
Fixpoint insertMessage (m : Message) (sorted : list Message) : list Message :=
  match sorted with
  | [] => [m]
  | m' :: rest =>
      if bool_decide (timestamp m ≤ timestamp m')%Z then m :: m' :: rest
      else m' :: insertMessage m rest
  end.

Definition sortByTimestamp (fetchedMessages : list Message) : list Message :=
  foldr insertMessage [] fetchedMessages.

(** The listener of the collection, called with the documents of the
    snapshot. *)
Definition onMessagesSnapshot (docs : list Message) (s : State) : State :=
  {| messages := sortByTimestamp docs; newMessage := newMessage s;
     loading := false |}.

(** [sendMessage], with the Firestore handle and the user of the context
    and the reading of [Date.now()]; the second component is the document
    that the handler adds to the collection, if it adds one. *)
Definition sendMessage (db : bool) (user : option string) (s : State) (now : Z)
  : State * option Data :=
  if negb db || negb (truthy user)
     || bool_decide (trim (newMessage s) = EmptyString)
  then (s, None)
  else
    ({| messages := messages s; newMessage := EmptyString; loading := loading s |},
     Some {| dataUserId := user; dataText := newMessage s;
             dataTimestamp := now |}).

End Chat.

(** A text without any character other than white space. *)
Definition blank (s : string) : Prop :=
  Forall (λ a, isWhiteSpace a = true) (Stdlib.Strings.String.list_ascii_of_string s).

(** ** Sequences of orientation events *)

Section CompassEvents.
Local Open Scope R_scope.

(** The page after the [deviceorientation] events with the headings
    [alphas], delivered in this order. *)
Definition handleEvents (p : Page) (alphas : list (option R)) : Page :=
  foldl handleOrientation p alphas.

(** The heading of the last event that had one. *)
Definition lastHeading (alphas : list (option R)) : option R :=
  foldl (λ heading alpha, match alpha with Some _ => alpha | None => heading end)
    None alphas.

End CompassEvents.

(** ** The memory card game ([MemoryCardGame]) *)

Module Memory.

Record Card : Set := mkCard {
  id : nat;
  value : string;
  matched : bool;
  flipped : bool }.

Global Instance Card_eq_dec : EqDecision Card.
Proof. solve_decision. Defined.

(** The array literal of [initialCards], before [sort] shuffles it.  The
    component builds and shuffles it again at every render; what [sort]
    returns with a random comparison is an arrangement of the same eight
    cards, given to the model as [shuffled]. *)
Definition deck : list Card :=
  [ mkCard 1 "A" false false; mkCard 2 "A" false false;
    mkCard 3 "B" false false; mkCard 4 "B" false false;
    mkCard 5 "C" false false; mkCard 6 "C" false false;
    mkCard 7 "D" false false; mkCard 8 "D" false false ].

(** The hooks of the component, and [timers]: the [setTimeout] callbacks
    of the match effect that have not run yet, oldest first, each with the
    [id1] and [id2] it captured. *)
Record State : Set := {
  cards : list Card;
  flippedCards : list nat;
  matchesFound : nat;
  moves : nat;
  gameOver : bool;
  modalOpen : bool;
  modalMessage : string;
  timers : list (nat * nat) }.

(** The initial values of the hooks. *)
Definition initial (initialCards : list Card) : State :=
  {| cards := initialCards; flippedCards := []; matchesFound := 0; moves := 0;
     gameOver := false; modalOpen := false; modalMessage := EmptyString;
     timers := [] |}.

(** [{ ...card, flipped: f }] and [{ ...card, matched: m }] *)
Definition setFlipped (f : bool) (card : Card) : Card :=
  mkCard (id card) (value card) (matched card) f.

Definition setMatched (m : bool) (card : Card) : Card :=
  mkCard (id card) (value card) m (flipped card).

(** The functions that the handlers map over the cards:
    [card => card.id === i ? { ...card, flipped: true } : card],
    [card => card.id === id1 || card.id === id2
             ? { ...card, matched: true } : card] and
    [card => card.id === id1 || card.id === id2
             ? { ...card, flipped: false } : card]. *)
Definition turnUp (i : nat) (card : Card) : Card :=
  if bool_decide (id card = i) then setFlipped true card else card.

Definition markMatched (id1 id2 : nat) (card : Card) : Card :=
  if bool_decide (id card = id1) || bool_decide (id card = id2)
  then setMatched true card else card.

Definition turnDown (id1 id2 : nat) (card : Card) : Card :=
  if bool_decide (id card = id1) || bool_decide (id card = id2)
  then setFlipped false card else card.

(** [resetGame]; it does not clear the timeouts. *)
Definition resetGame (shuffled : list Card) (s : State) : State :=
  {| cards := (λ card, setMatched false (setFlipped false card)) <$> shuffled;
     flippedCards := []; matchesFound := 0; moves := 0;
     gameOver := false; modalOpen := false; modalMessage := modalMessage s;
     timers := timers s |}.

(** [handleCardClick(id)] *)
Definition handleCardClick (s : State) (i : nat) : State :=
  if gameOver s || bool_decide (length (flippedCards s) = 2) then s
  else
    {| cards := turnUp i <$> cards s;
       flippedCards := flippedCards s ++ [i];
       matchesFound := matchesFound s; moves := moves s;
       gameOver := gameOver s; modalOpen := modalOpen s;
       modalMessage := modalMessage s; timers := timers s |}.

(** The [onClick] of the card rendered at position [k] of the grid:
    [!card.matched && !card.flipped && handleCardClick(card.id)]. *)
Definition cardClicked (s : State) (k : nat) : State :=
  match cards s !! k with
  | Some card =>
      if negb (matched card) && negb (flipped card)
      then handleCardClick s (id card) else s
  | None => s
  end.

(** [cards.find(card => card.id === i)] *)
Definition findCard (i : nat) (l : list Card) : option Card :=
  List.find (λ card, bool_decide (id card = i)) l.

(** The effect that checks for a match.  It is [None] when the effect
    throws: [card1.value] with [card1] undefined. *)
Definition matchEffect (s : State) : option State :=
  match flippedCards s with
  | [id1; id2] =>
      match findCard id1 (cards s), findCard id2 (cards s) with
      | Some card1, Some card2 =>
          if bool_decide (value card1 = value card2) then
            Some {| cards := markMatched id1 id2 <$> cards s;
                    flippedCards := [];
                    matchesFound := matchesFound s + 1; moves := moves s + 1;
                    gameOver := gameOver s; modalOpen := modalOpen s;
                    modalMessage := modalMessage s; timers := timers s |}
          else
            Some {| cards := cards s; flippedCards := flippedCards s;
                    matchesFound := matchesFound s; moves := moves s + 1;
                    gameOver := gameOver s; modalOpen := modalOpen s;
                    modalMessage := modalMessage s;
                    timers := timers s ++ [(id1, id2)] |}
      | _, _ => None
      end
  | _ => Some s
  end.

(** The callback of [setTimeout] with the ids it captured. *)
Definition flipBack (id1 id2 : nat) (s : State) : State :=
  {| cards := turnDown id1 id2 <$> cards s;
     flippedCards := [];
     matchesFound := matchesFound s; moves := moves s;
     gameOver := gameOver s; modalOpen := modalOpen s;
     modalMessage := modalMessage s; timers := timers s |}.

(** The effect that checks for the end of the game;
    [initialCards.length] is the length of [deck]. *)
Definition gameOverEffect (s : State) : State :=
  if bool_decide (matchesFound s = length deck / 2)
     && bool_decide (0 < length deck)
  then
    {| cards := cards s; flippedCards := flippedCards s;
       matchesFound := matchesFound s; moves := moves s;
       gameOver := true; modalOpen := true;
       modalMessage := "Congratulations! You matched all pairs in "
                       +:+ pretty (moves s) +:+ " moves!";
       timers := timers s |}
  else s.

(** The effects after a handler has taken the component from [prev] to [s],
    with their dependencies: [[flippedCards, cards]] for the match effect,
    [[matchesFound, moves, initialCards.length]] for the effect of the end of
    the game, which reads the values that the match effect has set.  The
    arrays are compared by identity: a handler that sets them to new arrays
    with the same contents leaves [flippedCards] empty, and so does the match
    effect when it sets them, so that the match effect does nothing when it
    runs on them. *)
Definition effects (prev s : State) : option State :=
  match (if bool_decide (flippedCards s = flippedCards prev
                         ∧ cards s = cards prev)
         then Some s else matchEffect s) with
  | Some s1 =>
      if bool_decide (matchesFound s1 = matchesFound prev
                      ∧ moves s1 = moves prev)
      then Some s1 else Some (gameOverEffect s1)
  | None => None
  end.

(** What happens to the component: a click on the card at a position of the
    grid, the expiry of the oldest timeout (all have the same delay), a
    click on "Reset Game" or "Play Again" with the arrangement that [sort]
    returns, and the closing of the notice. *)
Inductive Event : Set :=
  | CardClick (k : nat)
  | Timeout
  | Reset (shuffled : list Card)
  | CloseModal.

Definition closeModal (s : State) : State :=
  {| cards := cards s; flippedCards := flippedCards s;
     matchesFound := matchesFound s; moves := moves s;
     gameOver := gameOver s; modalOpen := false;
     modalMessage := modalMessage s; timers := timers s |}.

Definition popTimer (s : State) : State :=
  {| cards := cards s; flippedCards := flippedCards s;
     matchesFound := matchesFound s; moves := moves s;
     gameOver := gameOver s; modalOpen := modalOpen s;
     modalMessage := modalMessage s; timers := tail (timers s) |}.

Definition step (s : State) (e : Event) : option State :=
  match e with
  | CardClick k => effects s (cardClicked s k)
  | Timeout =>
      match timers s with
      | (id1, id2) :: _ => effects s (flipBack id1 id2 (popTimer s))
      | [] => Some s
      end
  | Reset shuffled => effects s (resetGame shuffled s)
  | CloseModal => Some (closeModal s)
  end.

Fixpoint runFrom (s : State) (events : list Event) : option State :=
  match events with
  | [] => Some s
  | e :: rest =>
      match step s e with
      | Some s' => runFrom s' rest
      | None => None
      end
  end.

Definition run (initialCards : list Card) (events : list Event) : option State :=
  runFrom (initial initialCards) events.

(** The identity and the face of a card, which no handler changes. *)
Definition face (card : Card) : nat * string := (id card, value card).

End Memory.

(** The arrangements of the events of a run are arrangements of the deck. *)
Definition shuffledDeck (e : Memory.Event) : Prop :=
  match e with
  | Memory.Reset shuffled => shuffled ≡ₚ Memory.deck
  | _ => True
  end.

(** What every run of the memory game keeps true: the grid holds the eight
    cards of the deck; the cards of [flippedCards] are distinct cards of the
    grid that are face up and not matched; two of them are there only while
    the timeout that turns them back is pending; the matched cards are two
    for each match found, and a card is matched when the card of the same
    value is; the game is over exactly at four matches, and the notice then
    tells the number of moves. *)
Definition memoryConsistent (s : Memory.State) : Prop :=
  Memory.face <$> Memory.cards s ≡ₚ Memory.face <$> Memory.deck
  ∧ NoDup (Memory.flippedCards s)
  ∧ (∀ i, i ∈ Memory.flippedCards s →
       ∃ card, card ∈ Memory.cards s ∧ Memory.id card = i
         ∧ Memory.flipped card = true ∧ Memory.matched card = false)
  ∧ length (Memory.flippedCards s) ≤ 2
  ∧ (∀ id1 id2, Memory.flippedCards s = [id1; id2] →
       last (Memory.timers s) = Some (id1, id2))
  ∧ length (List.filter Memory.matched (Memory.cards s))
    = 2 * Memory.matchesFound s
  ∧ (∀ card1 card2, card1 ∈ Memory.cards s → card2 ∈ Memory.cards s →
       Memory.value card1 = Memory.value card2 →
       Memory.matched card1 = Memory.matched card2)
  ∧ Memory.gameOver s = bool_decide (Memory.matchesFound s = 4)
  ∧ Memory.matchesFound s ≤ Memory.moves s
  ∧ (Memory.modalOpen s = true → Memory.gameOver s = true)
  ∧ (Memory.gameOver s = true →
       Memory.modalMessage s
       = "Congratulations! You matched all pairs in "
         +:+ pretty (Memory.moves s) +:+ " moves!").

(** A card that is face up and not matched, that is not waiting in
    [flippedCards] and that no pending timeout will turn back. *)
Definition stranded (card : Memory.Card) (s : Memory.State) : Prop :=
  card ∈ Memory.cards s
  ∧ Memory.flipped card = true ∧ Memory.matched card = false
  ∧ (Memory.id card ∉ Memory.flippedCards s)
  ∧ Forall (λ t, t.1 ≠ Memory.id card ∧ t.2 ≠ Memory.id card) (Memory.timers s).

(** The events other than a reset. *)
Definition withoutReset (e : Memory.Event) : Prop :=
  match e with
  | Memory.Reset _ => False
  | _ => True
  end.
(** ** Basic facts *)

Example calculateWinner_row :
  calculateWinner [Some X; Some X; Some X; None; Some O; Some O; None; None; None]
  = Some (Won X).
Proof. reflexivity. Qed.

Example calculateWinner_open :
  calculateWinner [Some X; Some O; Some X; None; Some O; Some O; None; None; None]
  = None.
Proof. reflexivity. Qed.

Lemma square_lookup (squares : list Cell) (i : nat) (c : Cell) :
  squares !! i = Some c → square squares i = c.
Proof. unfold square. by intros ->. Qed.

Lemma square_Some (squares : list Cell) (i : nat) (m : Mark) :
  square squares i = Some m ↔ squares !! i = Some (Some m).
Proof.
  unfold square. destruct (squares !! i) as [c|]; simpl; split; congruence.
Qed.

Lemma line_mark_won (squares : list Cell) (l : nat * nat * nat) (m : Mark) :
  line_mark squares l = Some m ↔ line_won squares m l.
Proof.
  destruct l as [[a b] c]. unfold line_mark, line_won. simpl.
  destruct (square squares a) as [ma|] eqn:Ha.
  - repeat case_bool_decide; simpl; rewrite <- !square_Some; split.
    + intros [= ->]. split; [done|]. split; congruence.
    + intros (? & ? & ?). congruence.
    + discriminate.
    + intros (? & ? & ?). congruence.
    + discriminate.
    + intros (? & ? & ?). congruence.
    + discriminate.
    + intros (? & ? & ?). congruence.
  - rewrite <- !square_Some. split; [discriminate|]. intros (? & _). congruence.
Qed.

Lemma scan_lines_Some (squares : list Cell) (ls : list (nat * nat * nat)) (m : Mark) :
  scan_lines squares ls = Some m → ∃ l, l ∈ ls ∧ line_won squares m l.
Proof.
  induction ls as [|l ls IH]; simpl; [discriminate|].
  destruct (line_mark squares l) as [m'|] eqn:Hl.
  - intros [= ->]. exists l. split; [left|]. by apply line_mark_won.
  - intros H. destruct (IH H) as (l' & Hin & Hw). exists l'. split; [by right|done].
Qed.

Lemma scan_lines_None (squares : list Cell) (ls : list (nat * nat * nat)) :
  scan_lines squares ls = None ↔ ∀ l m, l ∈ ls → ¬ line_won squares m l.
Proof.
  induction ls as [|l ls IH]; simpl.
  - split; [|done]. intros _ l m Hin. by apply elem_of_nil in Hin.
  - destruct (line_mark squares l) as [m'|] eqn:Hl.
    + split; [discriminate|]. intros H. exfalso.
      apply (H l m'); [left|]. by apply line_mark_won.
    + rewrite IH. split.
      * intros H l' m Hin Hw. apply elem_of_cons in Hin as [->|Hin].
        -- apply line_mark_won in Hw. congruence.
        -- by apply (H l' m).
      * intros H l' m Hin. apply H. by right.
Qed.

Lemma forallb_not_null_full (squares : list Cell) :
  forallb not_null squares = true ↔ full squares.
Proof.
  unfold full. induction squares as [|c squares IH]; simpl.
  - split; [|done]. intros _ j c H. by rewrite lookup_nil in H.
  - rewrite andb_true_iff, IH. split.
    + intros [Hc H] [|j] c' Hj; simpl in Hj.
      * injection Hj as <-. by destruct c.
      * by apply (H j).
    + intros H. split.
      * specialize (H 0 c eq_refl). by destruct c.
      * intros j c' Hj. by apply (H (S j)).
Qed.

Lemma full_Forall (squares : list Cell) :
  full squares ↔ Forall (λ c, c ≠ None) squares.
Proof. unfold full. by rewrite Forall_lookup. Qed.

Lemma full_Permutation (squares squares' : list Cell) :
  squares ≡ₚ squares' → full squares → full squares'.
Proof. rewrite !full_Forall. by intros ->. Qed.

Lemma scan_lines_ext (squares squares' : list Cell) (ls : list (nat * nat * nat)) :
  (∀ l, l ∈ ls → line_mark squares' l = line_mark squares l) →
  scan_lines squares' ls = scan_lines squares ls.
Proof.
  induction ls as [|l ls IH]; simpl; intros H; [done|].
  rewrite (H l) by left. rewrite IH; [done|]. intros l' Hin. apply H. by right.
Qed.

Lemma calculateWinner_Won (squares : list Cell) (m : Mark) :
  calculateWinner squares = Some (Won m) ↔ scan_lines squares lines = Some m.
Proof.
  unfold calculateWinner. destruct (scan_lines squares lines) as [m'|].
  - split; congruence.
  - destruct (forallb not_null squares); split; discriminate.
Qed.

Lemma calculateWinner_Draw (squares : list Cell) :
  calculateWinner squares = Some Draw
  ↔ scan_lines squares lines = None ∧ full squares.
Proof.
  unfold calculateWinner. rewrite <- forallb_not_null_full.
  destruct (scan_lines squares lines) as [m'|].
  - split; [discriminate|]. intros [? _]. discriminate.
  - destruct (forallb not_null squares); split; try done. intros [_ ?]. discriminate.
Qed.

Lemma calculateWinner_None (squares : list Cell) :
  calculateWinner squares = None
  ↔ scan_lines squares lines = None ∧ ¬ full squares.
Proof.
  unfold calculateWinner. rewrite <- forallb_not_null_full.
  destruct (scan_lines squares lines) as [m'|].
  - split; [discriminate|]. intros [? _]. discriminate.
  - destruct (forallb not_null squares); split; try done.
    intros [_ H]. by destruct H.
Qed.

(** What a move that passes the guard writes. *)
Lemma makeMove_rejected (c : Client) (st : gmap string Game) (i now : nat) :
  moveRejected c i = true → makeMove c st i now = (c, st).
Proof. unfold makeMove. by intros ->. Qed.

Lemma makeMove_accepted (c : Client) (st : gmap string Game) (i now : nat)
    (gameId : string) (g : Game) :
  moveRejected c i = false → currentGameId c = Some gameId → st !! gameId = Some g →
  makeMove c st i now
  = (c, <[gameId :=
            moveFields (array_set i (playerRole c) (board c)) (playerRole c)
              (calculateWinner (array_set i (playerRole c) (board c))) now g]> st).
Proof.
  intros Hrej Hid Hg. unfold makeMove, updateDoc. by rewrite Hrej, Hid, Hg.
Qed.


(** ** The winner computation *)

Lemma line_mark_agree (squares squares' : list Cell) (l : nat * nat * nat) :
  (∀ m, line_won squares m l ↔ line_won squares' m l) →
  line_mark squares' l = line_mark squares l.
Proof.
  intros H. apply option_eq. intros m. rewrite !line_mark_won. by rewrite H.
Qed.

(** C2. On a board of nine squares [calculateWinner] returns a mark only when
    one of the eight lines holds that mark three times, returns the draw only
    when no line is won and every square is filled, and returns nothing when
    no line is won and a square is empty; a won line always gives a mark.
    Hence rearranging the contents of the board so that the won lines stay won
    and no line becomes won does not change the result.  On the board
    X X X / _ O O / _ _ _ the result is X, and whichever accepted move
    produced that board, the document is written with winner X and status
    finished. *)
Theorem calculateWinner_spec (squares : list Cell) :
  length squares = 9 →
  (∀ m, calculateWinner squares = Some (Won m) →
        ∃ l, l ∈ lines ∧ line_won squares m l)
  ∧ (calculateWinner squares = Some Draw →
        (∀ l m, l ∈ lines → ¬ line_won squares m l) ∧ full squares)
  ∧ ((∃ l m, l ∈ lines ∧ line_won squares m l) →
        ∃ m, calculateWinner squares = Some (Won m))
  ∧ ((∀ l m, l ∈ lines → ¬ line_won squares m l) → full squares →
        calculateWinner squares = Some Draw)
  ∧ ((∀ l m, l ∈ lines → ¬ line_won squares m l) → ¬ full squares →
        calculateWinner squares = None)
  ∧ (∀ squares',
        squares ≡ₚ squares' →
        (∀ l m, l ∈ lines → line_won squares m l → line_won squares' m l) →
        (∀ l m, l ∈ lines → line_won squares' m l → line_won squares m l) →
        calculateWinner squares' = calculateWinner squares)
  ∧ calculateWinner sampleBoard = Some (Won X)
  ∧ (∀ c st i now gameId g,
        moveRejected c i = false → currentGameId c = Some gameId →
        st !! gameId = Some g →
        array_set i (playerRole c) (board c) = sampleBoard →
        ∃ g', (makeMove c st i now).2 !! gameId = Some g'
              ∧ GameData.board g' = sampleBoard
              ∧ GameData.winner g' = Some (Won X)
              ∧ GameData.status g' = finished).
Proof.
  intros _. repeat split.
  - intros m Hm. apply calculateWinner_Won in Hm. by apply scan_lines_Some.
  - apply calculateWinner_Draw in H as [H _]. by apply scan_lines_None.
  - apply calculateWinner_Draw in H as [_ H]. apply H.
  - intros (l & m & Hin & Hw).
    destruct (scan_lines squares lines) as [m'|] eqn:Hs.
    + exists m'. by apply calculateWinner_Won.
    + exfalso. eapply scan_lines_None; eauto.
  - intros Hno Hfull. apply calculateWinner_Draw. split; [|done].
    by apply scan_lines_None.
  - intros Hno Hnf. apply calculateWinner_None. split; [|done].
    by apply scan_lines_None.
  - intros squares' Hperm Hkeep Hnew. unfold calculateWinner.
    rewrite (scan_lines_ext squares squares' lines).
    + destruct (scan_lines squares lines); [done|].
      assert (forallb not_null squares' = forallb not_null squares) as ->; [|done].
      apply eq_true_iff_eq. rewrite !forallb_not_null_full.
      split; apply full_Permutation; [by symmetry | done].
    + intros l Hin. apply line_mark_agree. intros m. split; eauto.
  - intros c st i now gameId g Hrej Hid Hg Hb.
    rewrite (makeMove_accepted c st i now gameId g Hrej Hid Hg). simpl.
    rewrite lookup_insert_eq. eexists. split; [done|]. simpl.
    rewrite Hb. by vm_compute.
Qed.

Ltac each_line H :=
  repeat (apply elem_of_cons in H as [->|H]); [..| by apply elem_of_nil in H].

Lemma calculateWinner_spec_witness :
  length sampleBoard = 9
  ∧ (∃ l, l ∈ lines ∧ line_won sampleBoard X l)
  ∧ calculateWinner [Some X; Some X; Some X; Some O; None; None; None; Some O; None]
    = calculateWinner sampleBoard.
Proof.
  split; [reflexivity|].
  destruct (calculateWinner_spec sampleBoard eq_refl)
    as (Hmark & _ & _ & _ & _ & Hperm & _).
  split; [exact (Hmark X eq_refl)|].
  apply Hperm.
  - unfold sampleBoard.
    change [Some X; Some X; Some X; None; Some O; Some O; None; None; None]
      with ([Some X; Some X; Some X] ++ [None; Some O; Some O; None; None; None]).
    change [Some X; Some X; Some X; Some O; None; None; None; Some O; None]
      with ([Some X; Some X; Some X] ++ [Some O; None; None; None; Some O; None]).
    apply Permutation_app_head.
    apply (Permutation_trans (l' := [Some O; None; Some O; None; None; None])).
    + apply perm_swap.
    + apply perm_skip, perm_skip.
      apply (Permutation_trans (l' := [None; Some O; None; None])).
      * apply perm_swap.
      * apply perm_skip, perm_swap.
  - intros l m Hin. each_line Hin; unfold line_won; simpl;
      intros (? & ? & ?); by simplify_eq.
  - intros l m Hin. each_line Hin; unfold line_won; simpl;
      intros (? & ? & ?); by simplify_eq.
Defined.

(** ** The view of a participant whose current game is in the store *)

Lemma inGame_view (st : gmap string Game) (user matchId : string) (g : Game) :
  st !! matchId = Some g →
  db (inGame user matchId st) = true
  ∧ userId (inGame user matchId st) = Some user
  ∧ currentGameId (inGame user matchId st) = Some matchId
  ∧ board (inGame user matchId st) = GameData.board g
  ∧ currentPlayer (inGame user matchId st) = GameData.currentPlayer g
  ∧ winner (inGame user matchId st) = GameData.winner g
  ∧ status (inGame user matchId st) = GameData.status g
  ∧ playerRole (inGame user matchId st) = roleOf g (Some user).
Proof.
  intros H. unfold inGame, onGameSnapshot. rewrite H.
  by destruct (GameData.winner g).
Qed.

Lemma moveRejected_inGame (st : gmap string Game) (user matchId : string)
    (g : Game) (i : nat) :
  st !! matchId = Some g →
  moveRejected (inGame user matchId st) i
  = negb (truthy (Some matchId))
    || bool_decide (GameData.winner g ≠ None)
    || not_null (square (GameData.board g) i)
    || bool_decide (GameData.status g ≠ inProgress)
    || bool_decide (Some (GameData.currentPlayer g) ≠ roleOf g (Some user)).
Proof.
  intros H. destruct (inGame_view st user matchId g H)
    as (Hdb & _ & Hid & Hb & Hp & Hw & Hs & Hr).
  unfold moveRejected. by rewrite Hdb, Hid, Hb, Hp, Hw, Hs, Hr.
Qed.

Lemma truthy_Some (s : string) : s ≠ EmptyString → truthy (Some s) = true.
Proof. by destruct s. Qed.

Lemma array_set_in_range (i : nat) (v : Cell) (squares : list Cell) :
  i < length squares → array_set i v squares = <[i := v]> squares.
Proof. intros H. unfold array_set. by rewrite decide_True. Qed.

Lemma toggle_opposite (m : Mark) :
  (if bool_decide (Some m = Some X) then O else X) = opposite m.
Proof. by destruct m. Qed.

Lemma moveRejected_refused (st : gmap string Game) (user matchId : string)
    (g : Game) (i : nat) :
  st !! matchId = Some g → matchId ≠ EmptyString → i < length (GameData.board g) →
  moveRejected (inGame user matchId st) i = true ↔ moveRefused g user i.
Proof.
  intros Hg Hid Hi. rewrite (moveRejected_inGame st user matchId g i Hg).
  rewrite truthy_Some by done. simpl. unfold moveRefused.
  destruct (lookup_lt_is_Some_2 _ _ Hi) as [c Hc].
  rewrite (square_lookup _ _ _ Hc), Hc.
  rewrite !orb_true_iff, !bool_decide_eq_true.
  split.
  - intros [[[Hw|Hn]|Hs]|Hr].
    + by right; left.
    + right; right; left. destruct c; [congruence|done].
    + by left.
    + right; right; right. congruence.
  - intros [Hs|[Hw|[Hn|Hr]]].
    + by left; right.
    + by left; left; left.
    + left; left; right. destruct c; [done|congruence].
    + right. congruence.
Qed.

(** ** [submitMove] *)

Lemma submitMove_refused (st : gmap string Game) (matchId actorId : string)
    (g : Game) (i now : nat) :
  st !! matchId = Some g → matchId ≠ EmptyString → i < length (GameData.board g) →
  moveRefused g actorId i →
  submitMove st matchId actorId i now = (inGame actorId matchId st, st).
Proof.
  intros Hg Hid Hi Href. unfold submitMove. apply makeMove_rejected.
  by apply (moveRejected_refused st actorId matchId g i).
Qed.

Lemma not_moveRefused (g : Game) (actorId : string) (i : nat) :
  ¬ moveRefused g actorId i ↔
  GameData.status g = inProgress ∧ GameData.winner g = None
  ∧ GameData.board g !! i = Some None
  ∧ roleOf g (Some actorId) = Some (GameData.currentPlayer g).
Proof.
  unfold moveRefused. split.
  - intros H.
    destruct (decide (GameData.status g = inProgress)); [|by destruct H; left].
    destruct (decide (GameData.winner g = None)); [|by destruct H; right; left].
    destruct (decide (GameData.board g !! i = Some None));
      [|by destruct H; right; right; left].
    destruct (decide (roleOf g (Some actorId) = Some (GameData.currentPlayer g)));
      [done|by destruct H; right; right; right].
  - intros (? & ? & ? & ?) [?|[?|[?|?]]]; done.
Qed.

(** The document that an accepted move writes. *)
Lemma submitMove_accepted (st : gmap string Game) (matchId actorId : string)
    (g : Game) (i now : nat) :
  st !! matchId = Some g → matchId ≠ EmptyString → i < length (GameData.board g) →
  ¬ moveRefused g actorId i →
  let newBoard := <[i := Some (GameData.currentPlayer g)]> (GameData.board g) in
  submitMove st matchId actorId i now
  = (inGame actorId matchId st,
     <[matchId :=
         GameData.mk (GameData.players g) newBoard
           (opposite (GameData.currentPlayer g))
           (match calculateWinner newBoard with
            | Some _ => finished | None => inProgress end)
           (calculateWinner newBoard) (GameData.createdAt g) now]> st).
Proof.
  intros Hg Hid Hi Hacc. simpl.
  assert (moveRejected (inGame actorId matchId st) i = false) as Hrej.
  { apply not_true_is_false. by rewrite (moveRejected_refused st actorId matchId g i). }
  apply not_moveRefused in Hacc as (_ & _ & _ & Hrole).
  destruct (inGame_view st actorId matchId g Hg)
    as (_ & _ & Hcur & Hb & _ & _ & _ & Hr).
  unfold submitMove.
  rewrite (makeMove_accepted _ st i now matchId g Hrej Hcur Hg).
  rewrite Hb, Hr, Hrole, array_set_in_range by done.
  unfold moveFields. by rewrite toggle_opposite.
Qed.

(** C1. A call of [submitMove] on a match that is not in progress, or has a
    winner, or whose target square is occupied, or by an actor whose role is
    not the current player, changes nothing in the store, also when it is
    repeated on the same occupied square; any other call writes the actor's
    mark (the current player) in exactly that square, the winner recomputed
    from the new board, the other mark as current player, and the status
    finished when there is a winner and inProgress otherwise. *)
Theorem submitMove_spec (st : gmap string Game) (matchId actorId : string)
    (g : Game) (i now : nat) :
  st !! matchId = Some g → matchId ≠ EmptyString →
  length (GameData.board g) = 9 → i < 9 →
  (moveRefused g actorId i →
     submitMove st matchId actorId i now = (inGame actorId matchId st, st))
  ∧ (∀ m actor2 now2,
       GameData.board g !! i = Some (Some m) →
       (submitMove (submitMove st matchId actorId i now).2 matchId actor2 i now2).2
       = st)
  ∧ (¬ moveRefused g actorId i →
       let newBoard := <[i := roleOf g (Some actorId)]> (GameData.board g) in
       let newWinner := calculateWinner newBoard in
       let st' := (submitMove st matchId actorId i now).2 in
       roleOf g (Some actorId) = Some (GameData.currentPlayer g)
       ∧ st' = <[matchId :=
                  GameData.mk (GameData.players g) newBoard
                    (opposite (GameData.currentPlayer g))
                    (if bool_decide (newWinner = None) then inProgress else finished)
                    newWinner (GameData.createdAt g) now]> st
       ∧ newBoard !! i = Some (roleOf g (Some actorId))
       ∧ (∀ j, j ≠ i → newBoard !! j = GameData.board g !! j)
       ∧ (∀ actor2 now2, (submitMove st' matchId actor2 i now2).2 = st')).
Proof.
  intros Hg Hid Hlen Hi.
  assert (i < length (GameData.board g)) as Hi' by lia.
  split; [|split].
  - by apply submitMove_refused.
  - intros m actor2 now2 Hocc.
    assert (∀ a, moveRefused g a i) as Href.
    { intros a. right; right; left. congruence. }
    rewrite (submitMove_refused st matchId actorId g i now) by done. simpl.
    by rewrite (submitMove_refused st matchId actor2 g i now2).
  - intros Hacc. simpl.
    pose proof (submitMove_accepted st matchId actorId g i now Hg Hid Hi' Hacc) as Hst.
    simpl in Hst.
    apply not_moveRefused in Hacc as (_ & _ & _ & Hrole).
    rewrite Hst, Hrole. simpl. split; [done|]. split; [|split; [|split]].
    + f_equal. f_equal.
      by destruct (calculateWinner _).
    + by apply list_lookup_insert_eq.
    + intros j Hj. by apply list_lookup_insert_ne.
    + intros actor2 now2.
      erewrite submitMove_refused;
        [done | apply lookup_insert_eq | done | simpl; by rewrite length_insert |].
      right; right; left. simpl. rewrite list_lookup_insert_eq by done. congruence.
Qed.

Lemma aliceBob_lookup : aliceBob !! "m1" = Some aliceBobGame.
Proof. by vm_compute. Qed.

Lemma submitMove_spec_witness :
  submitMove aliceBob "m1" "bob" 0 2 = (inGame "bob" "m1" aliceBob, aliceBob)
  ∧ ∃ st', (submitMove aliceBob "m1" "alice" 0 2).2 = st'
      ∧ (GameData.board <$> st' !! "m1")
        = Some [Some X; None; None; None; None; None; None; None; None]
      ∧ (submitMove st' "m1" "alice" 0 3).2 = st'.
Proof.
  assert ("m1" ≠ EmptyString) as Hid by discriminate.
  assert (0 < 9) as Hi by lia.
  split.
  - destruct (submitMove_spec aliceBob "m1" "bob" aliceBobGame 0 2
                aliceBob_lookup Hid eq_refl Hi) as (Href & _).
    apply Href. right; right; right. by vm_compute.
  - destruct (submitMove_spec aliceBob "m1" "alice" aliceBobGame 0 2
                aliceBob_lookup Hid eq_refl Hi) as (_ & _ & Hacc).
    destruct Hacc as (_ & Hst & _ & _ & Hrep).
    { apply not_moveRefused. by vm_compute. }
    eexists. split; [reflexivity|]. split; [|apply Hrep].
    rewrite Hst, lookup_insert_eq. reflexivity.
Defined.

(** C5. A move that passes the guard changes exactly one of the nine squares,
    that square was empty before (so a filled square keeps its mark), and the
    current player of the written document is the other mark. *)
Theorem acceptedMove_one_square (st : gmap string Game) (matchId actorId : string)
    (g : Game) (i now : nat) :
  st !! matchId = Some g → matchId ≠ EmptyString →
  length (GameData.board g) = 9 → i < 9 →
  moveRejected (inGame actorId matchId st) i = false →
  ∃ g', (submitMove st matchId actorId i now).2 !! matchId = Some g'
    ∧ length (GameData.board g') = 9
    ∧ (∀ j, j < 9 → GameData.board g' !! j ≠ GameData.board g !! j ↔ j = i)
    ∧ GameData.board g !! i = Some None
    ∧ (∀ j m, GameData.board g !! j = Some (Some m) →
              GameData.board g' !! j = Some (Some m))
    ∧ GameData.currentPlayer g' = opposite (GameData.currentPlayer g).
Proof.
  intros Hg Hid Hlen Hi Hrej.
  assert (i < length (GameData.board g)) as Hi' by lia.
  assert (¬ moveRefused g actorId i) as Hacc.
  { rewrite <- (moveRejected_refused st actorId matchId g i) by done. congruence. }
  pose proof (submitMove_accepted st matchId actorId g i now Hg Hid Hi' Hacc) as Hst.
  simpl in Hst. rewrite Hst. simpl. rewrite lookup_insert_eq.
  apply not_moveRefused in Hacc as (_ & _ & Hempty & _).
  eexists. split; [done|]. simpl. split; [by rewrite length_insert|].
  split; [|split; [done|split; [|done]]].
  - intros j Hj. destruct (decide (j = i)) as [->|Hne].
    + rewrite list_lookup_insert_eq, Hempty by done. split; [done|]. discriminate.
    + rewrite list_lookup_insert_ne by done. split; [done|]. intros ->. done.
  - intros j m Hjm. destruct (decide (j = i)) as [->|Hne]; [congruence|].
    by rewrite list_lookup_insert_ne.
Qed.

Lemma acceptedMove_one_square_witness :
  ∃ g', (submitMove aliceBob "m1" "alice" 4 2).2 !! "m1" = Some g'
    ∧ length (GameData.board g') = 9
    ∧ (∀ j, j < 9 →
         GameData.board g' !! j ≠ GameData.board aliceBobGame !! j ↔ j = 4)
    ∧ GameData.board aliceBobGame !! 4 = Some None
    ∧ (∀ j m, GameData.board aliceBobGame !! j = Some (Some m) →
              GameData.board g' !! j = Some (Some m))
    ∧ GameData.currentPlayer g' = opposite (GameData.currentPlayer aliceBobGame).
Proof.
  apply (acceptedMove_one_square aliceBob "m1" "alice" aliceBobGame 4 2).
  - exact aliceBob_lookup.
  - discriminate.
  - reflexivity.
  - lia.
  - by vm_compute.
Defined.

(** ** A full game *)

Lemma filledSquares_insert (squares : list Cell) (i : nat) (m : Mark) :
  squares !! i = Some None →
  filledSquares (<[i := Some m]> squares) = S (filledSquares squares).
Proof.
  unfold filledSquares. revert i.
  induction squares as [|c squares IH]; intros [|i] H; simpl in *; try done.
  - by injection H as ->.
  - destruct (not_null c); simpl; by rewrite (IH i H).
Qed.

Lemma filledSquares_all (squares : list Cell) :
  filledSquares squares = length squares → forallb not_null squares = true.
Proof.
  unfold filledSquares.
  induction squares as [|c squares IH]; simpl; [done|].
  destruct (not_null c); simpl.
  - intros H. apply IH. lia.
  - intros H. pose proof (List.filter_length_le not_null squares). lia.
Qed.

Lemma createMatch_store (st : gmap string Game) (ownerId newId : string) (now : nat) :
  ownerId ≠ EmptyString →
  (createMatch st ownerId newId now).2
  = <[newId := GameData.mk {| player1Id := Some ownerId; player2Id := None |}
                 emptyBoard X waiting None now now]> st.
Proof.
  intros H. unfold createMatch, createNewGame.
  change (userId (mounted ownerId)) with (Some ownerId).
  by rewrite truthy_Some.
Qed.

Lemma joinMatch_store (st : gmap string Game) (matchId joinerId : string)
    (g : Game) (now : nat) :
  st !! matchId = Some g → joinerId ≠ EmptyString →
  player1Id (GameData.players g) ≠ Some joinerId →
  (joinMatch st matchId joinerId now).2
  = <[matchId := joinFields (Some joinerId) now g]> st.
Proof.
  intros Hg Hj Hp. unfold joinMatch, joinGame, updateDoc. rewrite Hg.
  change (userId (mounted joinerId)) with (Some joinerId).
  rewrite truthy_Some by done.
  by rewrite (bool_decide_eq_false_2 (player1Id _ = _)) by done.
Qed.

(** Every accepted move of a sequence fills one more square of the nine, and
    the last one leaves the winner computed from the final board. *)
Lemma playMoves_filled (matchId : string) (moves : list (string * nat)) :
  matchId ≠ EmptyString →
  ∀ (st st' : gmap string Game) (g : Game) (now : nat),
    st !! matchId = Some g → length (GameData.board g) = 9 →
    Forall (λ mv, mv.2 < 9) moves →
    playMoves st matchId moves now = Some st' →
    ∃ g', st' !! matchId = Some g'
      ∧ length (GameData.board g') = 9
      ∧ filledSquares (GameData.board g')
        = filledSquares (GameData.board g) + length moves
      ∧ (moves ≠ [] →
           GameData.winner g' = calculateWinner (GameData.board g')
           ∧ GameData.status g'
             = match GameData.winner g' with
               | Some _ => finished | None => inProgress end).
Proof.
  intros Hid. induction moves as [|[actorId i] rest IH];
    intros st st' g now Hg Hlen Hall Hplay; simpl in Hplay.
  - injection Hplay as <-. exists g.
    split; [done|]. split; [done|]. split; [simpl; lia|done].
  - destruct (moveRejected (inGame actorId matchId st) i) eqn:Hrej; [done|].
    apply Forall_cons in Hall as [Hi Hall]. simpl in Hi.
    assert (i < length (GameData.board g)) as Hi' by lia.
    assert (¬ moveRefused g actorId i) as Hacc.
    { rewrite <- (moveRejected_refused st actorId matchId g i) by done. congruence. }
    pose proof (submitMove_accepted st matchId actorId g i now Hg Hid Hi' Hacc) as Hst.
    simpl in Hst. rewrite Hst in Hplay. simpl in Hplay.
    apply not_moveRefused in Hacc as (_ & _ & Hempty & _).
    pose proof Hplay as Hplay0.
    eapply IH in Hplay as (g' & Hg' & Hlen' & Hfilled & Hlast);
      [| apply lookup_insert_eq | simpl; by rewrite length_insert | done].
    simpl in Hfilled. rewrite filledSquares_insert in Hfilled by done.
    exists g'. split; [done|]. split; [done|]. split; [simpl; lia|].
    intros _. destruct rest as [|mv rest']; [|by apply Hlast].
    simpl in Hplay0. injection Hplay0 as <-.
    rewrite lookup_insert_eq in Hg'. injection Hg' as <-. done.
Qed.

(** C8. Nine accepted moves on a match that was just created and joined fill
    the nine squares; when the final board has no won line, the document ends
    with status finished and winner Draw. *)
Theorem full_game_draw (st st9 : gmap string Game) (ownerId joinerId matchId : string)
    (moves : list (string * nat)) (t0 t1 t : nat) :
  ownerId ≠ EmptyString → joinerId ≠ EmptyString → ownerId ≠ joinerId →
  matchId ≠ EmptyString →
  length moves = 9 → Forall (λ mv, mv.2 < 9) moves →
  playMoves (joinMatch (createMatch st ownerId matchId t0).2 matchId joinerId t1).2
    matchId moves t = Some st9 →
  ∃ g9, st9 !! matchId = Some g9
    ∧ full (GameData.board g9)
    ∧ ((∀ l m, l ∈ lines → ¬ line_won (GameData.board g9) m l) →
         GameData.status g9 = finished ∧ GameData.winner g9 = Some Draw).
Proof.
  intros Ho Hj Hne Hid Hlen Hall Hplay.
  rewrite (createMatch_store st ownerId matchId t0 Ho) in Hplay.
  erewrite joinMatch_store in Hplay;
    [| apply lookup_insert_eq | done | simpl; congruence].
  eapply (playMoves_filled matchId moves Hid) in Hplay
    as (g9 & Hg9 & Hlen9 & Hfilled & Hlast);
    [| apply lookup_insert_eq | done | done].
  simpl in Hfilled. rewrite Hlen in Hfilled.
  assert (full (GameData.board g9)) as Hfull.
  { apply forallb_not_null_full, filledSquares_all. rewrite Hlen9, Hfilled.
    reflexivity. }
  exists g9. split; [done|]. split; [done|]. intros Hno.
  destruct Hlast as [Hw Hs]; [by destruct moves|].
  assert (calculateWinner (GameData.board g9) = Some Draw) as Hdraw.
  { apply calculateWinner_Draw. split; [|done]. by apply scan_lines_None. }
  rewrite Hs, Hw, Hdraw. done.
Qed.


Lemma full_game_draw_witness :
  ∃ st9 g9,
    playMoves aliceBob "m1" drawMoves 2 = Some st9
    ∧ st9 !! "m1" = Some g9
    ∧ GameData.board g9
      = [Some X; Some O; Some X; Some X; Some O; Some O; Some O; Some X; Some X]
    ∧ GameData.status g9 = finished ∧ GameData.winner g9 = Some Draw.
Proof.
  destruct (playMoves aliceBob "m1" drawMoves 2) as [st9|] eqn:Hplay;
    [|by vm_compute in Hplay].
  assert (Forall (λ mv : string * nat, mv.2 < 9) drawMoves) as Hall.
  { unfold drawMoves. repeat constructor; simpl; lia. }
  destruct (full_game_draw ∅ st9 "alice" "bob" "m1" drawMoves 0 1 2)
    as (g9 & Hg9 & _ & Hdraw);
    [discriminate | discriminate | discriminate | discriminate | reflexivity
    | exact Hall | exact Hplay |].
  exists st9, g9. split; [done|]. split; [done|].
  vm_compute in Hplay. injection Hplay as <-.
  vm_compute in Hg9. injection Hg9 as <-.
  split; [reflexivity|]. apply Hdraw.
  intros l m Hin; each_line Hin; unfold line_won; simpl;
    intros (? & ? & ?); by simplify_eq.
Defined.

(** ** [joinGame] *)

Lemma joinGame_own (c : Client) (st : gmap string Game) (gameId : string) (now : nat) :
  db c = true → truthy (userId c) = true → currentGameId c ≠ Some gameId →
  joinGame c st gameId (userId c) now
  = (showModal "Cannot Join"
       "You cannot join your own game. Please wait for an opponent or create a new game."
       c, st).
Proof.
  intros Hdb Hu Hcur. unfold joinGame. rewrite Hdb, Hu. simpl.
  rewrite bool_decide_eq_false_2 by congruence.
  by rewrite bool_decide_eq_true_2.
Qed.

Lemma joinGame_other (c : Client) (st : gmap string Game) (gameId : string)
    (player1 : option string) (g : Game) (now : nat) :
  db c = true → truthy (userId c) = true → currentGameId c ≠ Some gameId →
  player1 ≠ userId c → st !! gameId = Some g →
  joinGame c st gameId player1 now
  = (setLoading false (setCurrentGameId (Some gameId) (setLoading true c)),
     <[gameId := joinFields (userId c) now g]> st).
Proof.
  intros Hdb Hu Hcur Hp Hg. unfold joinGame, updateDoc. rewrite Hdb, Hu, Hg. simpl.
  rewrite bool_decide_eq_false_2 by congruence.
  by rewrite bool_decide_eq_false_2.
Qed.

(** A participant who is attached to the match gets no answer at all: the
    first guard of [joinGame] returns before the test of player 1. *)
Lemma joinGame_attached (c : Client) (st : gmap string Game) (gameId : string)
    (player1 : option string) (now : nat) :
  currentGameId c = Some gameId → joinGame c st gameId player1 now = (c, st).
Proof.
  intros Hcur. unfold joinGame. rewrite Hcur.
  rewrite bool_decide_eq_true_2 by done. by rewrite !orb_true_r.
Qed.

(** C6. A participant who is signed in and is not attached to the match
    joins it through [joinGame(game.id, game.players.player1Id)].  When the
    participant is player 1 of the match the call only opens the notice
    "Cannot Join": the store is not written.  Any other participant becomes
    player 2 and the status becomes inProgress.  In the scenario, the match
    created by alice is waiting without player 2, and after bob joins it is
    in progress with bob as player 2. *)
Theorem joinGame_spec (c : Client) (st : gmap string Game) (gameId : string)
    (g : Game) (now : nat) :
  st !! gameId = Some g → db c = true → truthy (userId c) = true →
  currentGameId c ≠ Some gameId →
  let player1 := player1Id (GameData.players g) in
  (userId c = player1 →
     joinGame c st gameId player1 now
     = (showModal "Cannot Join"
          "You cannot join your own game. Please wait for an opponent or create a new game."
          c, st))
  ∧ (userId c ≠ player1 →
       ∃ g', (joinGame c st gameId player1 now).2 = <[gameId := g']> st
         ∧ player2Id (GameData.players g') = userId c
         ∧ GameData.status g' = inProgress
         ∧ player1Id (GameData.players g') = player1
         ∧ GameData.board g' = GameData.board g
         ∧ GameData.currentPlayer g' = GameData.currentPlayer g
         ∧ GameData.winner g' = GameData.winner g)
  ∧ (∀ st0 newId t0 t1,
       let st1 := (createMatch st0 "alice" newId t0).2 in
       (∃ g1, st1 !! newId = Some g1 ∧ GameData.status g1 = waiting
              ∧ GameData.players g1
                = {| player1Id := Some "alice"; player2Id := None |})
       ∧ (∃ g2, (joinMatch st1 newId "bob" t1).2 !! newId = Some g2
                ∧ GameData.status g2 = inProgress
                ∧ GameData.players g2
                  = {| player1Id := Some "alice"; player2Id := Some "bob" |})).
Proof.
  intros Hg Hdb Hu Hcur player1. subst player1. split; [|split].
  - intros <-. by apply joinGame_own.
  - intros Hne. eexists.
    rewrite (joinGame_other c st gameId _ g now) by done.
    split; [done|]. done.
  - intros st0 newId t0 t1 st1. subst st1.
    rewrite (createMatch_store st0 "alice" newId t0) by done. split.
    + eexists. by rewrite lookup_insert_eq.
    + erewrite joinMatch_store; [| apply lookup_insert_eq | done | done].
      eexists. by rewrite lookup_insert_eq.
Qed.

Lemma aliceWaiting_lookup : aliceWaiting !! "m1" = Some aliceGame.
Proof. by vm_compute. Qed.

Lemma joinGame_spec_witness :
  joinGame (mounted "alice") aliceWaiting "m1" (Some "alice") 1
  = (showModal "Cannot Join"
       "You cannot join your own game. Please wait for an opponent or create a new game."
       (mounted "alice"), aliceWaiting)
  ∧ ∃ g', (joinGame (mounted "bob") aliceWaiting "m1" (Some "alice") 1).2
          = <["m1" := g']> aliceWaiting
      ∧ player2Id (GameData.players g') = Some "bob"
      ∧ GameData.status g' = inProgress.
Proof.
  split.
  - apply (joinGame_spec (mounted "alice") aliceWaiting "m1" aliceGame 1);
      [exact aliceWaiting_lookup | reflexivity | reflexivity | discriminate
      | reflexivity].
  - destruct (joinGame_spec (mounted "bob") aliceWaiting "m1" aliceGame 1)
      as (_ & Hjoin & _);
      [exact aliceWaiting_lookup | reflexivity | reflexivity | discriminate |].
    destruct Hjoin as (g' & Hst & Hp2 & Hs & _); [discriminate|].
    exists g'. split; [exact Hst|]. split; [exact Hp2 | exact Hs].
Defined.

(** C10. [joinGame] looks at nothing of the match but its player 1: whatever
    the status, the winner and the player 2 of the document, a signed-in
    participant who is not attached to the match and is not its player 1
    is written as player 2 and the status is written as inProgress, the
    other fields being kept; so a present player 2 is replaced and a
    finished match is reopened with its winner still set. *)
Theorem joinGame_unguarded (c : Client) (st : gmap string Game) (gameId : string)
    (g : Game) (now : nat) :
  st !! gameId = Some g → db c = true → truthy (userId c) = true →
  currentGameId c ≠ Some gameId →
  userId c ≠ player1Id (GameData.players g) →
  (joinGame c st gameId (player1Id (GameData.players g)) now).2
  = <[gameId :=
        GameData.mk
          {| player1Id := player1Id (GameData.players g); player2Id := userId c |}
          (GameData.board g) (GameData.currentPlayer g) inProgress
          (GameData.winner g) (GameData.createdAt g) now]> st.
Proof.
  intros Hg Hdb Hu Hcur Hne.
  by rewrite (joinGame_other c st gameId _ g now).
Qed.

Lemma joinGame_unguarded_witness :
  (joinGame (mounted "carol") {["m1" := wonGame]} "m1" (Some "alice") 7).2 !! "m1"
  = Some (GameData.mk {| player1Id := Some "alice"; player2Id := Some "carol" |}
            [Some X; Some X; Some X; Some O; Some O; None; None; None; None]
            O inProgress (Some (Won X)) 0 7).
Proof.
  rewrite (joinGame_unguarded (mounted "carol") {["m1" := wonGame]} "m1" wonGame 7);
    [ by rewrite lookup_insert_eq
    | by rewrite lookup_singleton_eq | reflexivity | reflexivity | discriminate
    | discriminate ].
Defined.

(** ** [leaveGame] *)

Lemma leaveMatch_unfold (st : gmap string Game) (matchId leaverId : string) (g : Game) :
  st !! matchId = Some g → matchId ≠ EmptyString →
  (leaveMatch st matchId leaverId).2
  = let ps := GameData.players g in
    if bool_decide (player1Id ps = Some leaverId) && negb (truthy (player2Id ps))
    then delete matchId st
    else if bool_decide (player1Id ps = Some leaverId)
    then <[matchId := promoteFields g]> st
    else if bool_decide (player2Id ps = Some leaverId)
    then <[matchId := removePlayer2Fields g]> st
    else st.
Proof.
  intros Hg Hid.
  destruct (inGame_view st leaverId matchId g Hg) as (Hdb & Hu & Hcur & _).
  unfold leaveMatch, leaveGame, getDoc, updateDoc, deleteDoc.
  rewrite Hdb, Hu, Hcur, Hg, truthy_Some by done. simpl.
  repeat case_match; done.
Qed.

(** C7. [leaveMatch] by cases.  The sole player of a match deletes the
    document, as the creator does who leaves right after creating it.  When
    player 1 leaves a match that has a player 2, player 2 becomes player 1,
    player 2 is cleared, the status is waiting and the winner is cleared.
    When player 2 leaves, player 2 is cleared, the status is waiting and the
    winner is cleared.  The two updates keep the board. *)
Theorem leaveMatch_spec (st : gmap string Game) (matchId leaverId : string) (g : Game) :
  st !! matchId = Some g → matchId ≠ EmptyString → leaverId ≠ EmptyString →
  let ps := GameData.players g in
  let st' := (leaveMatch st matchId leaverId).2 in
  (player1Id ps = Some leaverId → player2Id ps = None →
     st' = delete matchId st ∧ st' !! matchId = None)
  ∧ (∀ p2, player1Id ps = Some leaverId → player2Id ps = Some p2 →
       p2 ≠ EmptyString →
       st' = <[matchId :=
                 GameData.mk {| player1Id := Some p2; player2Id := None |}
                   (GameData.board g) (GameData.currentPlayer g) waiting None
                   (GameData.createdAt g) (GameData.lastMoveAt g)]> st)
  ∧ (player2Id ps = Some leaverId →
       st' = <[matchId :=
                 GameData.mk {| player1Id := player1Id ps; player2Id := None |}
                   (GameData.board g) (GameData.currentPlayer g) waiting None
                   (GameData.createdAt g) (GameData.lastMoveAt g)]> st)
  ∧ (∀ st0 newId now,
       newId ≠ EmptyString →
       (leaveMatch (createMatch st0 leaverId newId now).2 newId leaverId).2 !! newId
       = None).
Proof.
  intros Hg Hid Hl ps st'. subst st'.
  rewrite (leaveMatch_unfold st matchId leaverId g Hg Hid).
  fold ps. cbv zeta. split; [|split; [|split]].
  - intros -> ->. simpl. rewrite bool_decide_eq_true_2 by done. simpl.
    split; [done|]. apply lookup_delete_eq.
  - intros p2 -> Hp2 Hne. rewrite Hp2, truthy_Some by done.
    rewrite bool_decide_eq_true_2 by done. simpl.
    unfold promoteFields. fold ps. by rewrite Hp2.
  - intros Hp2. rewrite Hp2, truthy_Some by done.
    rewrite andb_false_r. rewrite (bool_decide_eq_true_2 (Some leaverId = _)) by done.
    case_bool_decide as Hp1; [|done].
    unfold promoteFields. fold ps. by rewrite Hp2, Hp1.
  - intros st0 newId now Hnew.
    rewrite (createMatch_store st0 leaverId newId now Hl).
    erewrite leaveMatch_unfold; [| apply lookup_insert_eq | done].
    simpl. rewrite bool_decide_eq_true_2 by done. simpl.
    apply lookup_delete_eq.
Qed.

Lemma leaveMatch_spec_witness :
  (leaveMatch aliceWaiting "m1" "alice").2 = delete "m1" aliceWaiting
  ∧ (GameData.players <$> (leaveMatch aliceBob "m1" "alice").2 !! "m1")
    = Some {| player1Id := Some "bob"; player2Id := None |}
  ∧ (leaveMatch {["m1" := wonGame]} "m1" "bob").2 !! "m1"
    = Some (GameData.mk {| player1Id := Some "alice"; player2Id := None |}
              (GameData.board wonGame) O waiting None 0 6).
Proof.
  split; [|split].
  - destruct (leaveMatch_spec aliceWaiting "m1" "alice" aliceGame)
      as (Hsole & _); [exact aliceWaiting_lookup | discriminate | discriminate |].
    apply Hsole; reflexivity.
  - destruct (leaveMatch_spec aliceBob "m1" "alice" aliceBobGame)
      as (_ & Hp1 & _); [exact aliceBob_lookup | discriminate | discriminate |].
    rewrite (Hp1 "bob"); [| reflexivity | reflexivity | discriminate].
    by rewrite lookup_insert_eq.
  - destruct (leaveMatch_spec {["m1" := wonGame]} "m1" "bob" wonGame)
      as (_ & _ & Hp2 & _);
      [by rewrite lookup_singleton_eq | discriminate | discriminate |].
    rewrite Hp2 by reflexivity. by rewrite lookup_insert_eq.
Defined.

(** ** The invariants along sequences of operations *)

(** What one operation leaves in the document. *)
Lemma applyOp_doc (st : gmap string Game) (matchId : string) (op : Op) (now : nat)
    (g g' : Game) :
  matchId ≠ EmptyString → st !! matchId = Some g →
  applyOp st matchId op now !! matchId = Some g' →
  g' = g ∨
  match op with
  | OpJoin u => g' = joinFields (Some u) now g
  | OpMove u i =>
      GameData.status g = inProgress ∧ GameData.winner g = None
      ∧ ∃ newBoard role,
          g' = moveFields newBoard role (calculateWinner newBoard) now g
  | OpReset u => g' = resetFields now g
  | OpLeave u => g' = promoteFields g ∨ g' = removePlayer2Fields g
  end.
Proof.
  intros Hid Hg. destruct op as [u|u i|u|u]; simpl.
  - unfold joinMatch, joinGame, updateDoc. rewrite Hg.
    repeat case_match; simpl; rewrite ?lookup_insert_eq; intros; simplify_eq; eauto.
  - unfold submitMove.
    destruct (moveRejected (inGame u matchId st) i) eqn:Hrej.
    + rewrite makeMove_rejected by done. simpl. intros. simplify_eq. by left.
    + destruct (inGame_view st u matchId g Hg) as (_ & _ & Hcur & _).
      rewrite (makeMove_accepted _ st i now matchId g Hrej Hcur Hg). simpl.
      rewrite lookup_insert_eq. intros [= <-]. right.
      rewrite (moveRejected_inGame st u matchId g i Hg) in Hrej.
      rewrite !orb_false_iff, !bool_decide_eq_false in Hrej.
      destruct Hrej as ((((_ & Hw) & _) & Hs) & _).
      split; [by apply dec_stable|]. split; [by apply dec_stable|]. eauto.
  - unfold resetMatch, resetCurrentGame, updateDoc.
    destruct (inGame_view st u matchId g Hg) as (_ & _ & Hcur & _).
    rewrite Hcur, Hg.
    repeat case_match; simpl; rewrite ?lookup_insert_eq; intros; simplify_eq; eauto.
  - rewrite (leaveMatch_unfold st matchId u g Hg Hid). cbv zeta.
    repeat case_match; rewrite ?lookup_insert_eq, ?lookup_delete_eq;
      intros; simplify_eq; eauto.
Qed.

(** The join button is rendered for waiting matches only. *)
Lemma joinButtonShown_waiting (c : Client) (g : Game) (joinerId : string) :
  joinButtonShown c g = true → joinWhileWaiting (OpJoin joinerId) g.
Proof.
  unfold joinButtonShown. rewrite andb_true_iff, bool_decide_eq_true.
  by intros [? _].
Qed.

Lemma reachable_weak (matchId : string) (allowed : Op → Game → Prop)
    (st : gmap string Game) :
  matchId ≠ EmptyString → reachable matchId allowed st →
  ∀ g, st !! matchId = Some g →
    (GameData.status g = waiting → player2Id (GameData.players g) = None)
    ∧ (GameData.status g = finished → GameData.winner g ≠ None).
Proof.
  intros Hid Hreach. induction Hreach as [st ownerId now Ho|st g0 op now _ IH Hg0 _].
  - intros g. rewrite createMatch_store, lookup_insert_eq by done.
    intros [= <-]. simpl. split; [done|discriminate].
  - intros g Hg. destruct (IH g0 Hg0) as [IHw IHf].
    destruct (applyOp_doc st matchId op now g0 g Hid Hg0 Hg) as [->|Hop]; [done|].
    destruct op as [u|u i|u|u].
    + subst g. simpl. split; discriminate.
    + destruct Hop as (_ & _ & newBoard & role & ->). simpl.
      destruct (calculateWinner newBoard); split; discriminate.
    + subst g. simpl. split; discriminate.
    + destruct Hop as [-> | ->]; simpl; split; done.
Qed.

Lemma reachable_finishedIffWinner (matchId : string) (allowed : Op → Game → Prop)
    (st : gmap string Game) :
  matchId ≠ EmptyString → (∀ op g, allowed op g → joinWhileWaiting op g) →
  reachable matchId allowed st →
  ∀ g, st !! matchId = Some g → finishedIffWinner g.
Proof.
  intros Hid Hallowed Hreach. unfold finishedIffWinner.
  induction Hreach as [st ownerId now Ho|st g0 op now _ IH Hg0 Hop0].
  - intros g. rewrite createMatch_store, lookup_insert_eq by done.
    intros [= <-]. simpl. split; [discriminate|done].
  - intros g Hg. specialize (IH g0 Hg0). apply Hallowed in Hop0.
    destruct (applyOp_doc st matchId op now g0 g Hid Hg0 Hg) as [->|Hop]; [done|].
    destruct op as [u|u i|u|u].
    + subst g. simpl in *. split; [discriminate|].
      intros Hw. apply IH in Hw. congruence.
    + destruct Hop as (_ & _ & newBoard & role & ->). simpl.
      destruct (calculateWinner newBoard); split; done.
    + subst g. simpl. split; [discriminate|done].
    + destruct Hop as [-> | ->]; simpl; split; done.
Qed.

Lemma reachable_waitingIffAlone (matchId : string) (allowed : Op → Game → Prop)
    (st : gmap string Game) :
  matchId ≠ EmptyString → (∀ op g, allowed op g → resetWithTwoPlayers op g) →
  reachable matchId allowed st →
  ∀ g, st !! matchId = Some g → waitingIffAlone g.
Proof.
  intros Hid Hallowed Hreach. unfold waitingIffAlone.
  induction Hreach as [st ownerId now Ho|st g0 op now _ IH Hg0 Hop0].
  - intros g. rewrite createMatch_store, lookup_insert_eq by done.
    intros [= <-]. simpl. done.
  - intros g Hg. specialize (IH g0 Hg0). apply Hallowed in Hop0.
    destruct (applyOp_doc st matchId op now g0 g Hid Hg0 Hg) as [->|Hop]; [done|].
    destruct op as [u|u i|u|u].
    + subst g. simpl. split; discriminate.
    + destruct Hop as (Hs & _ & newBoard & role & ->). simpl.
      assert (player2Id (GameData.players g0) ≠ None) as Hp2.
      { intros Hp2. apply IH in Hp2. congruence. }
      destruct (calculateWinner newBoard); split; done.
    + subst g. simpl in *. split; done.
    + destruct Hop as [-> | ->]; simpl; split; done.
Qed.

Lemma resetMatch_doc (st : gmap string Game) (matchId actorId : string) (now : nat)
    (g g' : Game) :
  matchId ≠ EmptyString → st !! matchId = Some g →
  (resetMatch st matchId actorId now).2 !! matchId = Some g' →
  g' = g ∨ g' = resetFields now g.
Proof.
  intros Hid Hg Hg'.
  apply (applyOp_doc st matchId (OpReset actorId) now g g' Hid Hg Hg').
Qed.

(** C4, as the code has it.  In every document reached from [createMatch] by
    calls of joinMatch, submitMove, leaveMatch and resetMatch, a waiting match
    has no player 2 and a finished match has a winner.  The status is
    finished exactly when there is a winner along the sequences that join a
    match only while it is waiting, and the status is waiting exactly when
    there is no player 2 along the sequences that reset a match only while
    it has a player 2.  resetMatch keeps the first equivalence, and keeps the
    second one on a match that has a player 2. *)
Theorem invariants_reachable (matchId : string) (allowed : Op → Game → Prop)
    (st : gmap string Game) (g : Game) :
  matchId ≠ EmptyString → reachable matchId allowed st → st !! matchId = Some g →
  (GameData.status g = waiting → player2Id (GameData.players g) = None)
  ∧ (GameData.status g = finished → GameData.winner g ≠ None)
  ∧ ((∀ op g0, allowed op g0 → joinWhileWaiting op g0) → finishedIffWinner g)
  ∧ ((∀ op g0, allowed op g0 → resetWithTwoPlayers op g0) → waitingIffAlone g)
  ∧ (∀ actorId now g',
       (resetMatch st matchId actorId now).2 !! matchId = Some g' →
       (finishedIffWinner g → finishedIffWinner g')
       ∧ (waitingIffAlone g → player2Id (GameData.players g) ≠ None →
          waitingIffAlone g')).
Proof.
  intros Hid Hreach Hg.
  destruct (reachable_weak matchId allowed st Hid Hreach g Hg) as [Hw Hf].
  split; [done|]. split; [done|]. split; [|split].
  - intros Hallowed. by apply (reachable_finishedIffWinner matchId allowed st).
  - intros Hallowed. by apply (reachable_waitingIffAlone matchId allowed st).
  - intros actorId now g' Hg'.
    destruct (resetMatch_doc st matchId actorId now g g' Hid Hg Hg') as [-> | ->];
      [done|].
    unfold finishedIffWinner, waitingIffAlone. simpl. split.
    + intros _. split; [discriminate|done].
    + intros _ Hp2. split; [discriminate|done].
Qed.

Lemma aliceWaiting_reachable (allowed : Op → Game → Prop) :
  reachable "m1" allowed aliceWaiting.
Proof. by apply reach_create. Qed.

Lemma aliceBob_reachable : reachable "m1" lobbyOps aliceBob.
Proof.
  apply (reach_op "m1" lobbyOps aliceWaiting aliceGame (OpJoin "bob") 1).
  - apply aliceWaiting_reachable.
  - exact aliceWaiting_lookup.
  - by split.
Qed.

Lemma invariants_reachable_witness :
  finishedIffWinner aliceBobGame ∧ waitingIffAlone aliceBobGame.
Proof.
  destruct (invariants_reachable "m1" lobbyOps aliceBob aliceBobGame)
    as (_ & _ & Hfin & Hwait & _);
    [discriminate | exact aliceBob_reachable | exact aliceBob_lookup |].
  split.
  - apply Hfin. by intros op g [? _].
  - apply Hwait. by intros op g [_ ?].
Defined.

Lemma wonPlay_lookup : wonPlay !! "m1" = Some wonGame.
Proof. by vm_compute. Qed.

Lemma wonPlay_reachable : reachable "m1" anyOp wonPlay.
Proof.
  assert (reachable "m1" anyOp aliceBob) as H0.
  { apply (reach_op "m1" anyOp aliceWaiting aliceGame (OpJoin "bob") 1);
      [apply aliceWaiting_reachable | exact aliceWaiting_lookup | done]. }
  unfold wonPlay.
  repeat (eapply reach_op; [| by vm_compute | done]).
  exact H0.
Qed.

(** C4 fails on the code in two ways.  The creator of a match may reset it
    before anybody joins: the status becomes inProgress while there is no
    player 2.  And a participant may join a finished match: the status
    becomes inProgress while the winner stays set. *)
Lemma invariants_counterexample :
  (∃ g, reachable "m1" anyOp aliceReset ∧ aliceReset !! "m1" = Some g
        ∧ GameData.status g = inProgress
        ∧ player2Id (GameData.players g) = None
        ∧ ¬ waitingIffAlone g)
  ∧ (∃ g, reachable "m1" anyOp carolJoined ∧ carolJoined !! "m1" = Some g
          ∧ GameData.status g = inProgress
          ∧ GameData.winner g = Some (Won X)
          ∧ ¬ finishedIffWinner g).
Proof.
  split.
  - exists (resetFields 1 aliceGame). split; [|split; [by vm_compute|]].
    + apply (reach_op "m1" anyOp aliceWaiting aliceGame (OpReset "alice") 1);
        [apply aliceWaiting_reachable | exact aliceWaiting_lookup | done].
    + split; [done|]. split; [done|]. unfold waitingIffAlone. simpl.
      intros [_ H]. by specialize (H eq_refl).
  - exists (joinFields (Some "carol") 7 wonGame). split; [|split; [by vm_compute|]].
    + apply (reach_op "m1" anyOp wonPlay wonGame (OpJoin "carol") 7);
        [exact wonPlay_reachable | exact wonPlay_lookup | done].
    + split; [done|]. split; [done|]. unfold finishedIffWinner. simpl.
      intros [_ H]. by specialize (H ltac:(discriminate)).
Qed.

(** ** The compass script *)

Section CompassProofs.
Local Open Scope R_scope.

Lemma atan2_bound (y x : R) : - PI < atan2 y x <= PI.
Proof.
  pose proof PI_RGT_0 as Hpi. unfold atan2.
  destruct (Rlt_dec 0 x) as [Hx|Hx].
  - pose proof (atan_bound (y / x)). lra.
  - destruct (Rlt_dec x 0) as [Hx'|Hx'].
    + destruct (Rle_dec 0 y) as [Hy|Hy].
      * assert (atan (y / x) <= 0) as Ha.
        { rewrite <- atan_0. 
          destruct (Req_dec y 0) as [->|Hy0].
          - unfold Rdiv. rewrite Rmult_0_l. lra.
          - left. apply atan_increasing. 
            assert (0 < y * / - x) by (apply Rmult_lt_0_compat; [lra|apply Rinv_0_lt_compat; lra]).
            unfold Rdiv. replace (/ x) with (- / - x). lra. 
            rewrite Rinv_opp. lra. }
        pose proof (atan_bound (y / x)). lra.
      * assert (0 < atan (y / x)) as Ha.
        { rewrite <- atan_0. apply atan_increasing.
          assert (0 < - y * / - x) by (apply Rmult_lt_0_compat; [lra|apply Rinv_0_lt_compat; lra]).
          unfold Rdiv. replace (/ x) with (- / - x). lra.
          rewrite Rinv_opp. lra. }
        pose proof (atan_bound (y / x)). lra.
    + destruct (Rlt_dec 0 y); [lra|]. destruct (Rlt_dec y 0); lra.
Qed.

Lemma truncate_nonneg (x : R) : 0 <= x → truncate x = Int_part x.
Proof. intros H. unfold truncate. by destruct (Rle_dec 0 x). Qed.

Lemma remainder_range (v : R) : 0 <= v → 0 <= remainder v 360 < 360.
Proof.
  intros Hv. unfold remainder.
  assert (0 <= v / 360) as Hq by lra.
  rewrite (truncate_nonneg _ Hq).
  destruct (base_Int_part (v / 360)) as [Hlo Hhi]. lra.
Qed.

Lemma remainder_small (v : R) : 0 <= v < 360 → remainder (v + 360) 360 = v.
Proof.
  intros Hv. unfold remainder.
  assert (0 <= (v + 360) / 360) as Hq by lra.
  rewrite (truncate_nonneg _ Hq).
  rewrite <- (Int_part_spec ((v + 360) / 360) 1); [lra|]. lra.
Qed.

Lemma toDegrees_bound (t : R) : - PI < t <= PI → -180 < toDegrees t <= 180.
Proof.
  pose proof PI_RGT_0 as Hpi. intros [Hlo Hhi]. unfold toDegrees.
  split.
  - apply (Rmult_lt_reg_r PI); [lra|]. unfold Rdiv.
    rewrite Rmult_assoc, Rinv_l by lra. lra.
  - apply (Rmult_le_reg_r PI); [lra|]. unfold Rdiv.
    rewrite Rmult_assoc, Rinv_l by lra. lra.
Qed.

Lemma toDegrees_PI2 : toDegrees (PI / 2) = 90.
Proof. pose proof PI_RGT_0. unfold toDegrees. field. lra. Qed.

Lemma toDegrees_0 : toDegrees 0 = 0.
Proof. pose proof PI_RGT_0. unfold toDegrees. field. lra. Qed.

Lemma atan2_0_0 : atan2 0 0 = 0.
Proof.
  unfold atan2. repeat (destruct (Rlt_dec _ _); [lra|]). done.
Qed.

Lemma getQiblaAngle_range (lat1 lon1 lat2 lon2 : R) :
  0 <= getQiblaAngle lat1 lon1 lat2 lon2 < 360.
Proof.
  unfold getQiblaAngle. cbv zeta. apply remainder_range.
  pose proof (toDegrees_bound _ (atan2_bound
    (sin (toRadians lon2 - toRadians lon1) * cos (toRadians lat2))
    (cos (toRadians lat1) * sin (toRadians lat2)
     - sin (toRadians lat1) * cos (toRadians lat2)
       * cos (toRadians lon2 - toRadians lon1)))). lra.
Qed.

(** C3. The bearing computed by [getQiblaAngle] lies in the interval from 0
    (included) to 360 (excluded) for every origin and target; it is 0 when the
    two points are the same; from the origin (0, 0) it is 90 to the target
    (0, 90) and 0 to the north pole (90, 0). *)
Theorem getQiblaAngle_spec (lat1 lon1 lat2 lon2 : R) :
  0 <= getQiblaAngle lat1 lon1 lat2 lon2 < 360
  ∧ getQiblaAngle lat1 lon1 lat1 lon1 = 0
  ∧ getQiblaAngle 0 0 0 90 = 90
  ∧ getQiblaAngle 0 0 90 0 = 0.
Proof.
  split; [|split; [|split]].
  - apply getQiblaAngle_range.
  - unfold getQiblaAngle. cbv zeta.
    rewrite Rminus_diag, sin_0, cos_0.
    replace (0 * cos (toRadians lat1)) with 0 by lra.
    replace (cos (toRadians lat1) * sin (toRadians lat1) -
             sin (toRadians lat1) * cos (toRadians lat1) * 1) with 0 by lra.
    rewrite atan2_0_0, toDegrees_0.
    apply remainder_small. lra.
  - unfold getQiblaAngle. cbv zeta.
    replace (toRadians 0) with 0 by (unfold toRadians; lra).
    replace (toRadians 90) with (PI / 2) by (unfold toRadians; lra).
    rewrite Rminus_0_r, sin_PI2, cos_PI2, sin_0, cos_0.
    replace (1 * 0 - 0 * 1 * 0) with 0 by lra. rewrite Rmult_1_l.
    assert (atan2 1 0 = PI / 2) as ->.
    { unfold atan2. destruct (Rlt_dec 0 0); [lra|]. destruct (Rlt_dec 0 0); [lra|].
      destruct (Rlt_dec 0 1); [done|lra]. }
    rewrite toDegrees_PI2. apply remainder_small. lra.
  - unfold getQiblaAngle. cbv zeta.
    replace (toRadians 0) with 0 by (unfold toRadians; lra).
    replace (toRadians 90) with (PI / 2) by (unfold toRadians; lra).
    rewrite Rminus_0_r, sin_PI2, cos_PI2, sin_0, cos_0.
    replace (1 * 1 - 0 * 0 * 1) with 1 by lra.
    replace (0 * 0) with 0 by lra.
    assert (atan2 0 1 = 0) as ->.
    { unfold atan2. destruct (Rlt_dec 0 1); [|lra].
      replace (0 / 1) with 0 by lra. apply atan_0. }
    rewrite toDegrees_0. apply remainder_small. lra.
Qed.

Lemma toFixed2_close (x : R) : Rabs (parseFloat (toFixed2 x) - x) <= 1 / 200.
Proof.
  unfold parseFloat, toFixed2. apply Rabs_le.
  destruct (Rle_dec 0 x) as [Hx|Hx].
  - destruct (base_Int_part (x * 100 + 1 / 2)) as [Hlo Hhi]. lra.
  - rewrite opp_IZR.
    destruct (base_Int_part (- x * 100 + 1 / 2)) as [Hlo Hhi]. lra.
Qed.

Lemma toFixed2_hundredths (n : Z) :
  0 <= IZR n / 100 → toFixed2 (IZR n / 100) = n.
Proof.
  intros Hn. unfold toFixed2. destruct (Rle_dec 0 (IZR n / 100)); [|done].
  symmetry. apply Int_part_spec. lra.
Qed.

Lemma toDegrees_supplement (d : R) : toDegrees (PI - toRadians d) = 180 - d.
Proof. pose proof PI_RGT_0. unfold toDegrees, toRadians. field. lra. Qed.

Lemma getQiblaAngle_north_pole : getQiblaAngle 90 0 qiblaLat qiblaLon = 140.1738.
Proof.
  pose proof PI_RGT_0 as Hpi.
  unfold getQiblaAngle, qiblaLat, qiblaLon. cbv zeta.
  replace (toRadians 90) with (PI / 2) by (unfold toRadians; lra).
  replace (toRadians 0) with 0 by (unfold toRadians; lra).
  rewrite Rminus_0_r, sin_PI2, cos_PI2.
  set (phi := toRadians 21.4225). set (delta := toRadians 39.8262).
  assert (0 < phi < PI / 2) as Hphi by (unfold phi, toRadians; lra).
  assert (0 < delta < PI / 2) as Hdelta by (unfold delta, toRadians; lra).
  assert (0 < cos phi) as Hcphi by (apply cos_gt_0; lra).
  assert (0 < cos delta) as Hcdelta by (apply cos_gt_0; lra).
  assert (0 < sin delta) as Hsdelta by (apply sin_gt_0; lra).
  assert (toDegrees (PI - delta) = 140.1738) as Hdeg.
  { unfold delta. rewrite toDegrees_supplement. lra. }
  clearbody phi delta.
  assert (atan2 (sin delta * cos phi) (0 * sin phi - 1 * cos phi * cos delta)
          = PI - delta) as ->.
  { unfold atan2.
    assert (0 < cos phi * cos delta) by (by apply Rmult_lt_0_compat).
    assert (0 < sin delta * cos phi) by (by apply Rmult_lt_0_compat).
    destruct (Rlt_dec _ _); [lra|]. destruct (Rlt_dec _ _); [|lra].
    destruct (Rle_dec _ _); [|lra].
    assert (sin delta * cos phi / (0 * sin phi - 1 * cos phi * cos delta)
            = - tan delta) as ->.
    { unfold tan. field. split; lra. }
    rewrite atan_opp, atan_tan by lra. lra. }
  rewrite Hdeg. apply remainder_small. lra.
Qed.

(** C9, as the code has it.  [showPosition] rotates the compass by the
    bearing [b] itself and shows [b] with two decimals.  On an orientation
    event with a heading [alpha], the compass is rotated by the shown
    bearing minus [alpha], without any normalisation: that is within 0.005
    of [b - alpha], and equal to it when [b] is a whole number of
    hundredths.  On an event without heading the page is left as it is. *)
Theorem handleOrientation_spec (userLat userLon alpha : R) :
  let b := getQiblaAngle userLat userLon qiblaLat qiblaLon in
  let p := showPosition userLat userLon in
  compass p = b
  ∧ compass (handleOrientation p (Some alpha)) = parseFloat (toFixed2 b) - alpha
  ∧ Rabs (compass (handleOrientation p (Some alpha)) - (b - alpha)) <= 1 / 200
  ∧ (∀ n : Z, b = IZR n / 100 →
       compass (handleOrientation p (Some alpha)) = b - alpha)
  ∧ (∀ q : Page, handleOrientation q None = q).
Proof.
  intros b p. simpl.
  split; [done|]. split; [done|]. split; [|split; [|done]].
  - fold b. pose proof (toFixed2_close b) as H.
    replace (parseFloat (toFixed2 b) - alpha - (b - alpha))
      with (parseFloat (toFixed2 b) - b) by lra. done.
  - fold b. intros n Hn.
    destruct (getQiblaAngle_range userLat userLon qiblaLat qiblaLon) as [Hb _].
    fold b in Hb. rewrite Hn in *. rewrite toFixed2_hundredths by done. done.
Qed.

(** C9 fails on the code: at the north pole the bearing is 140.1738, the
    page shows 140.17, and with the heading 30 the compass is rotated by
    110.17 and not by 110.1738. *)
Lemma rotation_counterexample :
  getQiblaAngle 90 0 qiblaLat qiblaLon - 30 = 110.1738
  ∧ compass (handleOrientation (showPosition 90 0) (Some 30)) = 110.17
  ∧ compass (handleOrientation (showPosition 90 0) (Some 30))
    ≠ getQiblaAngle 90 0 qiblaLat qiblaLon - 30.
Proof.
  assert (compass (handleOrientation (showPosition 90 0) (Some 30)) = 110.17) as H.
  { simpl. rewrite getQiblaAngle_north_pole.
    assert (toFixed2 140.1738 = 14017%Z) as ->.
    { unfold toFixed2. destruct (Rle_dec _ _); [|lra].
      symmetry. apply Int_part_spec. lra. }
    unfold parseFloat. lra. }
  rewrite H, getQiblaAngle_north_pole. split; [lra|]. split; [done|]. lra.
Qed.
End CompassProofs.

(** * Further properties of the code *)

(** ** The multiplayer match *)

Lemma inGame_missing (st : gmap string Game) (user matchId : string) :
  st !! matchId = None →
  currentGameId (inGame user matchId st) = None
  ∧ playerRole (inGame user matchId st) = None
  ∧ db (inGame user matchId st) = true.
Proof. intros H. unfold inGame. by rewrite H. Qed.

Lemma submitMove_other (st : gmap string Game) (matchId actorId other : string)
    (i now : nat) :
  other ≠ matchId → (submitMove st matchId actorId i now).2 !! other = st !! other.
Proof.
  intros Hne. unfold submitMove.
  destruct (moveRejected (inGame actorId matchId st) i) eqn:Hrej.
  - by rewrite makeMove_rejected.
  - destruct (st !! matchId) as [g|] eqn:Hg.
    + destruct (inGame_view st actorId matchId g Hg) as (_ & _ & Hcur & _).
      rewrite (makeMove_accepted _ st i now matchId g Hrej Hcur Hg). simpl.
      by rewrite lookup_insert_ne.
    + destruct (inGame_missing st actorId matchId Hg) as (Hcur & _).
      unfold moveRejected in Hrej. rewrite Hcur in Hrej. simpl in Hrej.
      by rewrite orb_true_r in Hrej.
Qed.

Lemma resetMatch_other (st : gmap string Game) (matchId actorId other : string)
    (now : nat) :
  other ≠ matchId → (resetMatch st matchId actorId now).2 !! other = st !! other.
Proof.
  intros Hne. unfold resetMatch, resetCurrentGame, updateDoc.
  destruct (st !! matchId) as [g|] eqn:Hg.
  - destruct (inGame_view st actorId matchId g Hg) as (_ & _ & Hcur & _).
    rewrite Hcur, Hg. repeat case_match; simpl; try done.
    by rewrite lookup_insert_ne.
  - destruct (inGame_missing st actorId matchId Hg) as (Hcur & _).
    rewrite Hcur. simpl. by rewrite orb_true_r.
Qed.

Lemma leaveMatch_other (st : gmap string Game) (matchId leaverId other : string) :
  other ≠ matchId → (leaveMatch st matchId leaverId).2 !! other = st !! other.
Proof.
  intros Hne. unfold leaveMatch, leaveGame, getDoc, updateDoc, deleteDoc.
  destruct (st !! matchId) as [g|] eqn:Hg.
  - destruct (inGame_view st leaverId matchId g Hg) as (_ & _ & Hcur & _).
    rewrite Hcur, Hg.
    repeat case_match; simpl; try done;
      by rewrite ?lookup_insert_ne, ?lookup_delete_ne.
  - destruct (inGame_missing st leaverId matchId Hg) as (Hcur & _).
    rewrite Hcur. simpl. by rewrite orb_true_r.
Qed.

Lemma joinMatch_other (st : gmap string Game) (matchId joinerId other : string)
    (now : nat) :
  other ≠ matchId → (joinMatch st matchId joinerId now).2 !! other = st !! other.
Proof.
  intros Hne. unfold joinMatch, joinGame, updateDoc.
  destruct (st !! matchId) as [g|] eqn:Hg; [|done].
  repeat case_match; simpl; try done. simplify_eq. by rewrite lookup_insert_ne.
Qed.

(** X1. Whatever a participant does on one match, the other documents of
    the collection are left as they are. *)
Theorem operations_frame (st : gmap string Game) (matchId other ownerId : string)
    (op : Op) (now : nat) :
  other ≠ matchId →
  applyOp st matchId op now !! other = st !! other
  ∧ (createMatch st ownerId matchId now).2 !! other = st !! other.
Proof.
  intros Hne. split.
  - destruct op as [u|u i|u|u]; simpl.
    + by apply joinMatch_other.
    + by apply submitMove_other.
    + by apply resetMatch_other.
    + by apply leaveMatch_other.
  - unfold createMatch, createNewGame, addDoc.
    case_match; simpl; [done|]. by rewrite lookup_insert_ne.
Qed.

Lemma operations_frame_witness :
  applyOp ({["m2" := wonGame]} ∪ aliceBob) "m1" (OpLeave "alice") 2 !! "m2"
  = Some wonGame.
Proof.
  destruct (operations_frame ({["m2" := wonGame]} ∪ aliceBob) "m1" "m2" "alice"
              (OpLeave "alice") 2) as [H _]; [discriminate|].
  rewrite H. by vm_compute.
Defined.

Lemma roleOf_observer (g : Game) (user : string) :
  ¬ isPlayer g user → roleOf g (Some user) = None.
Proof.
  unfold isPlayer, roleOf. intros H.
  rewrite !bool_decide_eq_false_2; [done| |]; intros ?; apply H; eauto.
Qed.

(** X2. A participant who is neither player 1 nor player 2 of a match cannot
    change it: a move on any square, a reset and a leave all return the
    collection as it was. *)
Theorem observer_writes_nothing (st : gmap string Game) (matchId user : string)
    (g : Game) (i now : nat) :
  st !! matchId = Some g → ¬ isPlayer g user →
  (submitMove st matchId user i now).2 = st
  ∧ (resetMatch st matchId user now).2 = st
  ∧ (leaveMatch st matchId user).2 = st.
Proof.
  intros Hg Hobs.
  pose proof (roleOf_observer g user Hobs) as Hrole.
  destruct (inGame_view st user matchId g Hg)
    as (_ & Hu & Hcur & _ & _ & _ & _ & Hr).
  rewrite Hrole in Hr. split; [|split].
  - unfold submitMove. rewrite makeMove_rejected; [done|].
    unfold moveRejected. rewrite Hr.
    rewrite (bool_decide_eq_true_2 (Some _ ≠ None)) by done.
    by rewrite !orb_true_r.
  - unfold resetMatch, resetCurrentGame. rewrite Hr.
    rewrite bool_decide_eq_true_2 by done. by rewrite !orb_true_r.
  - unfold leaveMatch, leaveGame, getDoc. rewrite Hcur, Hu, Hg.
    unfold isPlayer in Hobs.
    rewrite !(bool_decide_eq_false_2 (_ = Some user)) by (intros ?; apply Hobs; eauto).
    simpl. by case_match.
Qed.

Lemma observer_writes_nothing_witness :
  (submitMove aliceBob "m1" "carol" 0 2).2 = aliceBob
  ∧ (resetMatch aliceBob "m1" "carol" 2).2 = aliceBob
  ∧ (leaveMatch aliceBob "m1" "carol").2 = aliceBob.
Proof.
  apply (observer_writes_nothing aliceBob "m1" "carol" aliceBobGame 0 2).
  - exact aliceBob_lookup.
  - unfold isPlayer. simpl. intros [H|H]; discriminate.
Defined.

(** ** Invariants of the board *)

Lemma countMark_insert_same (squares : list Cell) (i : nat) (m : Mark) :
  squares !! i = Some None →
  countMark m (<[i := Some m]> squares) = S (countMark m squares).
Proof.
  unfold countMark. revert i.
  induction squares as [|c squares IH]; intros [|i] H; simpl in *; try done.
  - injection H as ->. simpl. by rewrite bool_decide_eq_true_2.
  - destruct (bool_decide (c = Some m)); simpl; by rewrite (IH i H).
Qed.

Lemma countMark_insert_other (squares : list Cell) (i : nat) (m m' : Mark) :
  m ≠ m' → squares !! i = Some None →
  countMark m (<[i := Some m']> squares) = countMark m squares.
Proof.
  unfold countMark. intros Hne. revert i.
  induction squares as [|c squares IH]; intros [|i] H; simpl in *; try done.
  - injection H as ->. simpl. by rewrite bool_decide_eq_false_2 by congruence.
  - destruct (bool_decide (c = Some m)); simpl; by rewrite (IH i H).
Qed.

Lemma countMark_emptyBoard (m : Mark) : countMark m emptyBoard = 0.
Proof. reflexivity. Qed.

(** X3. Along the sequences of operations whose moves target the nine
    rendered squares, the board always has nine squares and the marks agree
    with the turn: as many X as O when X is to move, one X more when O is to
    move. *)
Theorem board_balanced (matchId : string) (allowed : Op → Game → Prop)
    (st : gmap string Game) (g : Game) :
  matchId ≠ EmptyString → (∀ op g0, allowed op g0 → renderedSquares op g0) →
  reachable matchId allowed st → st !! matchId = Some g →
  length (GameData.board g) = 9 ∧ balanced g.
Proof.
  intros Hid Hallowed Hreach. revert g.
  induction Hreach as [st ownerId now Ho|st g0 op now _ IH Hg0 Hop0].
  - intros g. rewrite createMatch_store, lookup_insert_eq by done.
    intros [= <-]. simpl. split; [done|]. by left.
  - intros g Hg. destruct (IH g0 Hg0) as [Hlen Hbal]. apply Hallowed in Hop0.
    destruct op as [u|u i|u|u].
    + destruct (applyOp_doc st matchId _ now g0 g Hid Hg0 Hg) as [->| ->]; done.
    + simpl in Hop0, Hg.
      assert (i < length (GameData.board g0)) as Hi by lia.
      destruct (moveRejected (inGame u matchId st) i) eqn:Hrej.
      * unfold submitMove in Hg. rewrite makeMove_rejected in Hg by done.
        simpl in Hg. by simplify_eq.
      * assert (¬ moveRefused g0 u i) as Hacc.
        { rewrite <- (moveRejected_refused st u matchId g0 i) by done. congruence. }
        pose proof (submitMove_accepted st matchId u g0 i now Hg0 Hid Hi Hacc) as Hst.
        simpl in Hst. rewrite Hst in Hg. simpl in Hg.
        rewrite lookup_insert_eq in Hg. injection Hg as <-.
        apply not_moveRefused in Hacc as (_ & _ & Hempty & _).
        unfold balanced. simpl. split; [by rewrite length_insert|].
        destruct Hbal as [[Hc Hp]|[Hc Hp]]; rewrite Hp; simpl.
        -- right. rewrite countMark_insert_same, countMark_insert_other by done.
           by rewrite Hc.
        -- left. rewrite countMark_insert_same, countMark_insert_other by done.
           by rewrite Hc.
    + destruct (applyOp_doc st matchId _ now g0 g Hid Hg0 Hg) as [->| ->];
        [done|]. simpl. split; [done|]. by left.
    + destruct (applyOp_doc st matchId _ now g0 g Hid Hg0 Hg) as [->|[->| ->]]; done.
Qed.

Lemma wonPlay_rendered : reachable "m1" renderedSquares wonPlay.
Proof.
  assert (reachable "m1" renderedSquares aliceBob) as H0.
  { apply (reach_op "m1" renderedSquares aliceWaiting aliceGame (OpJoin "bob") 1);
      [apply aliceWaiting_reachable | exact aliceWaiting_lookup | done]. }
  unfold wonPlay.
  repeat (eapply reach_op; [| by vm_compute | simpl; lia]).
  exact H0.
Qed.

Lemma board_balanced_witness :
  length (GameData.board wonGame) = 9 ∧ balanced wonGame.
Proof.
  apply (board_balanced "m1" renderedSquares wonPlay wonGame).
  - discriminate.
  - intros op g H. exact H.
  - exact wonPlay_rendered.
  - exact wonPlay_lookup.
Defined.

(** X4. In every document reached from [createMatch] by any sequence of
    operations, a recorded winner is the winner that [calculateWinner]
    computes from the recorded board. *)
Theorem winner_of_board (matchId : string) (allowed : Op → Game → Prop)
    (st : gmap string Game) (g : Game) (w : Outcome) :
  matchId ≠ EmptyString → reachable matchId allowed st →
  st !! matchId = Some g → GameData.winner g = Some w →
  calculateWinner (GameData.board g) = Some w.
Proof.
  intros Hid Hreach. revert g.
  induction Hreach as [st ownerId now Ho|st g0 op now _ IH Hg0 _].
  - intros g. rewrite createMatch_store, lookup_insert_eq by done.
    intros [= <-]. simpl. discriminate.
  - intros g Hg. specialize (IH g0 Hg0).
    destruct (applyOp_doc st matchId op now g0 g Hid Hg0 Hg) as [->|Hop]; [done|].
    destruct op as [u|u i|u|u].
    + subst g. simpl. exact IH.
    + destruct Hop as (_ & _ & newBoard & role & ->). simpl. done.
    + subst g. simpl. discriminate.
    + destruct Hop as [-> | ->]; simpl; discriminate.
Qed.

Lemma winner_of_board_witness :
  calculateWinner (GameData.board wonGame) = Some (Won X).
Proof.
  apply (winner_of_board "m1" anyOp wonPlay wonGame (Won X)).
  - discriminate.
  - exact wonPlay_reachable.
  - exact wonPlay_lookup.
  - reflexivity.
Defined.

(** ** The lobby *)

(** X5. When the lobby renders the join button of a game for a signed-in
    participant without a current game, pressing it always joins: the game
    was waiting, the participant is written as player 2 beside a different
    player 1, the status becomes inProgress, the participant is attached to
    the game, and no notice is opened (the "Cannot Join" branch of
    [joinGame] cannot be reached from the lobby). *)
Theorem lobby_join_succeeds (c : Client) (st : gmap string Game) (gameId : string)
    (g : Game) (now : nat) :
  st !! gameId = Some g → db c = true → truthy (userId c) = true →
  currentGameId c = None → joinButtonShown c g = true →
  ∃ c' g',
    joinGame c st gameId (player1Id (GameData.players g)) now
    = (c', <[gameId := g']> st)
    ∧ GameData.status g = waiting
    ∧ GameData.status g' = inProgress
    ∧ player2Id (GameData.players g') = userId c
    ∧ player1Id (GameData.players g') ≠ player2Id (GameData.players g')
    ∧ currentGameId c' = Some gameId
    ∧ modalOpen c' = modalOpen c ∧ modalTitle c' = modalTitle c
    ∧ roleOf g' (userId c) = Some O.
Proof.
  intros Hg Hdb Hu Hcur Hshown.
  unfold joinButtonShown in Hshown.
  apply andb_true_iff in Hshown as [Hw Hp1].
  apply bool_decide_eq_true in Hw. apply bool_decide_eq_true in Hp1.
  rewrite (joinGame_other c st gameId _ g now) by (done || congruence).
  eexists _, _. split; [done|]. simpl.
  repeat (split; [done|]).
  unfold roleOf. simpl.
  rewrite bool_decide_eq_false_2 by done. by rewrite bool_decide_eq_true_2.
Qed.

Lemma lobby_join_succeeds_witness :
  ∃ c' g',
    joinGame (mounted "bob") aliceWaiting "m1" (Some "alice") 1
    = (c', <["m1" := g']> aliceWaiting)
    ∧ GameData.status g' = inProgress
    ∧ currentGameId c' = Some "m1"
    ∧ modalOpen c' = false.
Proof.
  destruct (lobby_join_succeeds (mounted "bob") aliceWaiting "m1" aliceGame 1)
    as (c' & g' & Hjoin & _ & Hs & _ & _ & Hcur & Hopen & _);
    [exact aliceWaiting_lookup | reflexivity | reflexivity | reflexivity
    | reflexivity |].
  exists c', g'. split; [exact Hjoin|]. split; [exact Hs|].
  split; [exact Hcur | exact Hopen].
Defined.

(** X6. Joining a game whose document does not exist fails without effect
    on the collection: the "Error" notice is opened, the loading flag is
    lowered again, and the participant is not attached to any game. *)
Theorem joinGame_missing_document (c : Client) (st : gmap string Game)
    (gameId : string) (player1 : option string) (now : nat) :
  st !! gameId = None → db c = true → truthy (userId c) = true →
  currentGameId c ≠ Some gameId → player1 ≠ userId c →
  ∃ c', joinGame c st gameId player1 now = (c', st)
    ∧ currentGameId c' = currentGameId c
    ∧ loading c' = false
    ∧ modalOpen c' = true ∧ modalTitle c' = "Error"
    ∧ modalMessage c'
      = "Failed to join the game. It might be full or no longer exists.".
Proof.
  intros Hg Hdb Hu Hcur Hp. unfold joinGame, updateDoc. rewrite Hdb, Hu, Hg. simpl.
  rewrite bool_decide_eq_false_2 by congruence.
  rewrite bool_decide_eq_false_2 by done.
  eexists. split; [done|]. done.
Qed.

Lemma joinGame_missing_document_witness :
  ∃ c', joinGame (mounted "bob") ∅ "m1" (Some "alice") 1 = (c', ∅)
    ∧ currentGameId c' = None ∧ modalTitle c' = "Error".
Proof.
  destruct (joinGame_missing_document (mounted "bob") ∅ "m1" (Some "alice") 1)
    as (c' & Hjoin & Hcur & _ & _ & Htitle & _);
    [apply lookup_empty | reflexivity | reflexivity | discriminate
    | discriminate |].
  exists c'. split; [exact Hjoin|]. split; [exact Hcur | exact Htitle].
Defined.

(** X7. When the document of the current game is gone, the snapshot
    listener detaches the participant (no current game, empty board, no
    role, the "Game Ended" notice), and from then on a move, a reset and a
    leave write nothing. *)
Theorem deleted_game_detaches (c : Client) (st : gmap string Game) (i now : nat) :
  let c' := onGameSnapshot c None in
  currentGameId c' = None ∧ playerRole c' = None ∧ board c' = emptyBoard
  ∧ status c' = waiting ∧ winner c' = None
  ∧ modalOpen c' = true ∧ modalTitle c' = "Game Ended"
  ∧ makeMove c' st i now = (c', st)
  ∧ resetCurrentGame c' st now = (c', st)
  ∧ leaveGame c' st = (c', st).
Proof.
  simpl. repeat (split; [done|]).
  unfold makeMove, moveRejected, resetCurrentGame, leaveGame. simpl.
  by rewrite !orb_true_r.
Qed.

(** ** Whose turn it is *)

Lemma submitMove_wrong_role (st : gmap string Game) (matchId actorId : string)
    (g : Game) (i now : nat) :
  st !! matchId = Some g →
  roleOf g (Some actorId) ≠ Some (GameData.currentPlayer g) →
  (submitMove st matchId actorId i now).2 = st.
Proof.
  intros Hg Hrole. unfold submitMove. rewrite makeMove_rejected; [done|].
  rewrite (moveRejected_inGame st actorId matchId g i Hg).
  rewrite (bool_decide_eq_true_2 (Some _ ≠ roleOf _ _)) by congruence.
  by rewrite !orb_true_r.
Qed.

Lemma submitMove_not_inProgress (st : gmap string Game) (matchId actorId : string)
    (g : Game) (i now : nat) :
  st !! matchId = Some g → GameData.status g ≠ inProgress →
  (submitMove st matchId actorId i now).2 = st.
Proof.
  intros Hg Hs. unfold submitMove. rewrite makeMove_rejected; [done|].
  rewrite (moveRejected_inGame st actorId matchId g i Hg).
  rewrite (bool_decide_eq_true_2 (GameData.status g ≠ inProgress)) by done.
  by rewrite !orb_true_r.
Qed.

Lemma calculateWinner_first_mark (i : nat) (m : Mark) :
  i < 9 → calculateWinner (<[i := Some m]> emptyBoard) = None.
Proof.
  intros Hi.
  do 9 (destruct i as [|i]; [by destruct m|]). lia.
Qed.

(** X8. In a match that was just created nobody can move before an
    opponent joins; once the opponent has joined, the opponent cannot move
    first, and the creator's first move on any of the nine squares writes an
    X there and hands the turn to O. *)
Theorem creator_moves_first (st : gmap string Game) (ownerId joinerId matchId : string)
    (t0 t1 i now : nat) :
  ownerId ≠ EmptyString → joinerId ≠ EmptyString → ownerId ≠ joinerId →
  matchId ≠ EmptyString → i < 9 →
  let st1 := (createMatch st ownerId matchId t0).2 in
  let st2 := (joinMatch st1 matchId joinerId t1).2 in
  (∀ u, (submitMove st1 matchId u i now).2 = st1)
  ∧ (submitMove st2 matchId joinerId i now).2 = st2
  ∧ ∃ g', (submitMove st2 matchId ownerId i now).2 !! matchId = Some g'
      ∧ GameData.board g' = <[i := Some X]> emptyBoard
      ∧ GameData.currentPlayer g' = O
      ∧ GameData.status g' = inProgress
      ∧ GameData.winner g' = None.
Proof.
  intros Ho Hj Hne Hid Hi st1 st2. subst st1 st2.
  rewrite (createMatch_store st ownerId matchId t0 Ho).
  erewrite joinMatch_store; [| apply lookup_insert_eq | done | simpl; congruence].
  split; [|split].
  - intros u. eapply submitMove_not_inProgress; [apply lookup_insert_eq|]. done.
  - eapply submitMove_wrong_role; [apply lookup_insert_eq|].
    unfold roleOf. simpl.
    rewrite bool_decide_eq_false_2 by congruence.
    by rewrite bool_decide_eq_true_2.
  - erewrite submitMove_accepted;
      [| apply lookup_insert_eq | done | simpl; lia |].
    + simpl. rewrite lookup_insert_eq. eexists. split; [done|]. simpl.
      rewrite calculateWinner_first_mark by done. done.
    + apply not_moveRefused. simpl. split; [done|]. split; [done|]. split.
      * apply lookup_replicate_2. lia.
      * unfold roleOf. simpl. by rewrite bool_decide_eq_true_2.
Qed.

Lemma creator_moves_first_witness :
  (submitMove aliceWaiting "m1" "alice" 4 2).2 = aliceWaiting
  ∧ (submitMove aliceBob "m1" "bob" 4 2).2 = aliceBob
  ∧ ∃ g', (submitMove aliceBob "m1" "alice" 4 2).2 !! "m1" = Some g'
      ∧ GameData.board g' = <[4 := Some X]> emptyBoard
      ∧ GameData.currentPlayer g' = O.
Proof.
  destruct (creator_moves_first ∅ "alice" "bob" "m1" 0 1 4 2)
    as (Hwait & Hbob & g' & Hg' & Hb & Hp & _);
    [discriminate | discriminate | discriminate | discriminate | lia |].
  split; [exact (Hwait "alice")|]. split; [exact Hbob|].
  exists g'. split; [exact Hg'|]. split; [exact Hb | exact Hp].
Defined.

(** X9. A reset by either player needs no consent and looks at nothing of
    the match: whatever the board, the status and the winner were, the
    document is written with an empty board, X to move, no winner and status
    inProgress, the players being kept; afterwards a move by anybody whose
    role is not X is refused. *)
Theorem resetMatch_by_player (st : gmap string Game) (matchId actorId : string)
    (g : Game) (now : nat) :
  st !! matchId = Some g → matchId ≠ EmptyString → isPlayer g actorId →
  let st' := (resetMatch st matchId actorId now).2 in
  st' = <[matchId :=
            GameData.mk (GameData.players g) emptyBoard X inProgress None
              (GameData.createdAt g) now]> st
  ∧ (∀ u i now', roleOf g (Some u) ≠ Some X →
       (submitMove st' matchId u i now').2 = st').
Proof.
  intros Hg Hid Hplayer st'.
  assert (st' = <[matchId := resetFields now g]> st) as Hst.
  { subst st'. unfold resetMatch, resetCurrentGame, updateDoc.
    destruct (inGame_view st actorId matchId g Hg)
      as (Hdb & _ & Hcur & _ & _ & _ & _ & Hr).
    rewrite Hdb, Hcur, Hr, Hg, truthy_Some by done. simpl.
    rewrite bool_decide_eq_false_2; [done|].
    unfold roleOf. destruct Hplayer as [H|H]; rewrite H.
    - by rewrite bool_decide_eq_true_2.
    - rewrite (bool_decide_eq_true_2 (Some actorId = Some actorId)) by done.
      by case_bool_decide. }
  split; [done|]. intros u i now' Hrole. rewrite Hst.
  eapply submitMove_wrong_role; [apply lookup_insert_eq|]. done.
Qed.

Lemma resetMatch_by_player_witness :
  (resetMatch {["m1" := wonGame]} "m1" "bob" 7).2
  = <["m1" := GameData.mk {| player1Id := Some "alice"; player2Id := Some "bob" |}
                emptyBoard X inProgress None 0 7]> {["m1" := wonGame]}.
Proof.
  destruct (resetMatch_by_player {["m1" := wonGame]} "m1" "bob" wonGame 7)
    as [H _];
    [by rewrite lookup_singleton_eq | discriminate | by right |].
  exact H.
Defined.

(** ** The single-player tic-tac-toe *)

Lemma array_set_lookup_same (i : nat) (v : Cell) (squares : list Cell) :
  i < length squares → array_set i v squares !! i = Some v.
Proof.
  intros H. rewrite array_set_in_range by done. by apply list_lookup_insert_eq.
Qed.

Lemma availableMoves_elem (currentBoard : list Cell) (idx : nat) :
  idx ∈ SinglePlayer.availableMoves currentBoard ↔ currentBoard !! idx = Some None.
Proof.
  unfold SinglePlayer.availableMoves. rewrite list_elem_of_omap. split.
  - intros (o & Hin & Ho). apply elem_of_lookup_imap in Hin as (j & c & -> & Hj).
    destruct c; [done|]. by simplify_eq.
  - intros H. exists (Some idx). split; [|done].
    apply elem_of_lookup_imap. by exists idx, None.
Qed.

Lemma availableMoves_lookup (currentBoard : list Cell) (r idx : nat) :
  SinglePlayer.availableMoves currentBoard !! r = Some idx →
  currentBoard !! idx = Some None.
Proof.
  intros H. apply availableMoves_elem. by eapply list_elem_of_lookup_2.
Qed.

Lemma availableMoves_nil (currentBoard : list Cell) :
  SinglePlayer.availableMoves currentBoard = [] → full currentBoard.
Proof.
  intros H j c Hj ->.
  apply availableMoves_elem in Hj. rewrite H in Hj. by apply elem_of_nil in Hj.
Qed.

(** X10. A click of the single-player game on a filled square, or after the
    game is over, changes nothing and schedules nothing.  Any other click on
    the board writes the mark of the turn in that square only, flips the
    turn, and records the winner computed from the new board; the computer's
    reply is scheduled exactly when the click was made on O's turn and the
    game goes on, so after a click on X's turn no reply is scheduled. *)
Theorem singlePlayer_click (s : SinglePlayer.State) (i : nat) :
  i < length (SinglePlayer.board s) →
  ((SinglePlayer.winner s ≠ None ∨ SinglePlayer.board s !! i ≠ Some None) →
     SinglePlayer.handleClick s i = (s, None))
  ∧ (SinglePlayer.winner s = None → SinglePlayer.board s !! i = Some None →
       let mark := if SinglePlayer.xIsNext s then X else O in
       let newBoard := <[i := Some mark]> (SinglePlayer.board s) in
       let s' := (SinglePlayer.handleClick s i).1 in
       SinglePlayer.board s' = newBoard
       ∧ SinglePlayer.xIsNext s' = negb (SinglePlayer.xIsNext s)
       ∧ SinglePlayer.winner s' = calculateWinner newBoard
       ∧ (SinglePlayer.handleClick s i).2
         = if negb (SinglePlayer.xIsNext s)
              && bool_decide (calculateWinner newBoard = None)
           then Some newBoard else None).
Proof.
  intros Hi. destruct (lookup_lt_is_Some_2 _ _ Hi) as [c Hc].
  unfold SinglePlayer.handleClick. rewrite (square_lookup _ _ _ Hc). split.
  - intros [Hw|Hn].
    + by rewrite bool_decide_eq_true_2.
    + destruct c as [m|]; [|congruence]. simpl. by rewrite orb_true_r.
  - intros Hw Hn. rewrite Hc in Hn. injection Hn as ->.
    rewrite bool_decide_eq_false_2 by (by intros H; apply H). simpl.
    rewrite array_set_in_range by done.
    destruct (calculateWinner _) as [w|] eqn:Hcw;
      destruct (SinglePlayer.xIsNext s); simpl; by rewrite ?Hw.
Qed.

Lemma singlePlayer_click_witness :
  (SinglePlayer.handleClick SinglePlayer.resetGame 4).2 = None
  ∧ SinglePlayer.board (SinglePlayer.handleClick SinglePlayer.resetGame 4).1
    = <[4 := Some X]> emptyBoard.
Proof.
  destruct (singlePlayer_click SinglePlayer.resetGame 4) as [_ H];
    [simpl; lia|].
  destruct H as (Hb & _ & _ & Hp); [reflexivity | reflexivity |].
  split; [exact Hp | exact Hb].
Defined.

(** X11. The computer's move, for every random index below the number of
    empty squares of the board it was given: it writes an O on one square
    that was empty and on no other, gives the turn to X, and records the
    winner computed from the new board; on a full board it changes nothing.
    The board it starts from is the one captured when the move was
    scheduled, whatever the component holds when the timer expires. *)
Theorem computer_move (s : SinglePlayer.State) (currentBoard : list Cell)
    (randomIndex : nat) :
  (randomIndex < length (SinglePlayer.availableMoves currentBoard) →
     ∃ idx, currentBoard !! idx = Some None
       ∧ SinglePlayer.board (SinglePlayer.makeComputerMove s currentBoard randomIndex)
         = <[idx := Some O]> currentBoard
       ∧ SinglePlayer.xIsNext
           (SinglePlayer.makeComputerMove s currentBoard randomIndex) = true
       ∧ (SinglePlayer.winner s = None →
          SinglePlayer.winner
            (SinglePlayer.makeComputerMove s currentBoard randomIndex)
          = calculateWinner (<[idx := Some O]> currentBoard)))
  ∧ (full currentBoard →
       SinglePlayer.makeComputerMove s currentBoard randomIndex = s).
Proof.
  split.
  - intros Hr. destruct (lookup_lt_is_Some_2 _ _ Hr) as [idx Hidx].
    pose proof (availableMoves_lookup _ _ _ Hidx) as Hempty.
    assert (idx < length currentBoard) as Hlt by (by eapply lookup_lt_Some).
    exists idx. split; [done|].
    unfold SinglePlayer.makeComputerMove.
    rewrite bool_decide_eq_true_2 by lia. rewrite Hidx.
    rewrite array_set_in_range by done.
    destruct (calculateWinner _) as [w|] eqn:Hcw; simpl; by rewrite ?Hcw.
  - intros Hfull. unfold SinglePlayer.makeComputerMove.
    destruct (SinglePlayer.availableMoves currentBoard) as [|idx l] eqn:Hav.
    + by rewrite bool_decide_eq_false_2 by (simpl; lia).
    + assert (currentBoard !! idx = Some None) as Hempty.
      { apply availableMoves_elem. rewrite Hav. left. }
      by destruct (Hfull idx None Hempty).
Qed.

Lemma handleClick_rejected (s : SinglePlayer.State) (i : nat) :
  SinglePlayer.winner s ≠ None ∨ not_null (square (SinglePlayer.board s) i) = true →
  SinglePlayer.handleClick s i = (s, None).
Proof.
  intros H. unfold SinglePlayer.handleClick.
  destruct H as [H| ->]; [|by rewrite orb_true_r].
  by rewrite bool_decide_eq_true_2.
Qed.

Lemma handleClick_accepted (s : SinglePlayer.State) (i : nat) :
  i < length (SinglePlayer.board s) →
  SinglePlayer.winner s = None → SinglePlayer.board s !! i = Some None →
  let newBoard :=
    <[i := Some (if SinglePlayer.xIsNext s then X else O)]> (SinglePlayer.board s) in
  let s1 :=
    {| SinglePlayer.board := newBoard;
       SinglePlayer.xIsNext := negb (SinglePlayer.xIsNext s);
       SinglePlayer.winner := None;
       SinglePlayer.modalOpen := SinglePlayer.modalOpen s;
       SinglePlayer.modalMessage := SinglePlayer.modalMessage s |} in
  SinglePlayer.handleClick s i
  = match calculateWinner newBoard with
    | Some w => (SinglePlayer.gameOver w s1, None)
    | None => if negb (SinglePlayer.xIsNext s) then (s1, Some newBoard) else (s1, None)
    end.
Proof.
  intros Hi Hw Hempty. unfold SinglePlayer.handleClick.
  rewrite (square_lookup _ _ _ Hempty), Hw. simpl.
  by rewrite array_set_in_range.
Qed.

Lemma makeComputerMove_in_range (s : SinglePlayer.State) (currentBoard : list Cell)
    (randomIndex : nat) :
  randomIndex < length (SinglePlayer.availableMoves currentBoard) →
  ∃ idx, currentBoard !! idx = Some None
    ∧ SinglePlayer.makeComputerMove s currentBoard randomIndex
      = let newBoard := <[idx := Some O]> currentBoard in
        let s1 :=
          {| SinglePlayer.board := newBoard; SinglePlayer.xIsNext := true;
             SinglePlayer.winner := SinglePlayer.winner s;
             SinglePlayer.modalOpen := SinglePlayer.modalOpen s;
             SinglePlayer.modalMessage := SinglePlayer.modalMessage s |} in
        match calculateWinner newBoard with
        | Some w => SinglePlayer.gameOver w s1
        | None => s1
        end.
Proof.
  intros Hr. destruct (lookup_lt_is_Some_2 _ _ Hr) as [idx Hidx].
  pose proof (availableMoves_lookup _ _ _ Hidx) as Hempty.
  assert (idx < length currentBoard) as Hlt by (by eapply lookup_lt_Some).
  exists idx. split; [done|].
  unfold SinglePlayer.makeComputerMove.
  rewrite bool_decide_eq_true_2 by lia. rewrite Hidx.
  by rewrite array_set_in_range.
Qed.

Ltac sp_simpl :=
  cbn [fst snd SinglePlayer.board SinglePlayer.xIsNext SinglePlayer.winner
       SinglePlayer.gameOver negb].

Lemma singlePlayer_step (sp sp' : SinglePlayer.State * option (list Cell))
    (e : SinglePlayer.Event) :
  singlePlayerTurns sp → renderedClick e → SinglePlayer.step sp e = Some sp' →
  singlePlayerTurns sp'.
Proof.
  destruct sp as [s pending]. unfold singlePlayerTurns, SinglePlayer.step.
  sp_simpl. intros [Hlen Hinv] He Hstep.
  destruct e as [i|r], pending as [b|]; try done.
  - (* a click, no timer pending *)
    injection Hstep as <-. simpl in He.
    assert (i < length (SinglePlayer.board s)) as Hi by lia.
    destruct (lookup_lt_is_Some_2 _ _ Hi) as [c Hc].
    destruct (decide (SinglePlayer.winner s = None)) as [Hw|Hw];
      [|by rewrite handleClick_rejected by (by left)].
    destruct c as [m|].
    { rewrite handleClick_rejected; [done|].
      right. by rewrite (square_lookup _ _ _ Hc). }
    rewrite (handleClick_accepted s i Hi Hw Hc). cbv zeta.
    destruct (SinglePlayer.xIsNext s) eqn:Hx.
    + destruct Hinv as [Hinv|[Hw' _]]; [|done].
      assert (countMark O (<[i:=Some X]> (SinglePlayer.board s)) + 2
              = 2 * countMark X (<[i:=Some X]> (SinglePlayer.board s))) as Hcount.
      { rewrite countMark_insert_same, countMark_insert_other by done. lia. }
      destruct (calculateWinner (<[i:=Some X]> _)); sp_simpl;
        by rewrite length_insert.
    + assert (countMark O (<[i:=Some O]> (SinglePlayer.board s)) + 1
              = 2 * countMark X (<[i:=Some O]> (SinglePlayer.board s))) as Hcount.
      { rewrite countMark_insert_same, countMark_insert_other by done. lia. }
      destruct (calculateWinner (<[i:=Some O]> _)) eqn:Hcw; sp_simpl;
        rewrite length_insert.
      * split; [done|]. right. done.
      * done.
  - (* the timer expires *)
    case_bool_decide as Hr; [|done]. injection Hstep as <-.
    destruct Hinv as (-> & Hcw & Hw & Hx & Hcount).
    assert (r < length (SinglePlayer.availableMoves (SinglePlayer.board s))) as Hr'.
    { destruct Hr as [Hr| ->]; [done|].
      destruct (SinglePlayer.availableMoves (SinglePlayer.board s)) eqn:Hav;
        [|simpl; lia].
      apply availableMoves_nil in Hav. apply calculateWinner_None in Hcw as [_ Hnf].
      done. }
    destruct (makeComputerMove_in_range s (SinglePlayer.board s) r Hr')
      as (idx & Hempty & ->). cbv zeta.
    assert (countMark O (<[idx:=Some O]> (SinglePlayer.board s))
            = 2 * countMark X (<[idx:=Some O]> (SinglePlayer.board s))) as Hc'.
    { rewrite countMark_insert_same, countMark_insert_other by done. lia. }
    destruct (calculateWinner (<[idx:=Some O]> _)); sp_simpl;
      rewrite length_insert; (split; [done|]); by left.
Qed.

(** X12. The turns of the single-player game, in every run in which the
    user clicks on the nine squares and lets a pending timer expire before
    the next click: only the click made on O's turn is answered by the
    computer, with another O.  So whenever X is announced and the game goes
    on, O has twice as many marks as X (one less while the timer is
    pending), and whenever O is announced, O has two marks less than twice
    the marks of X. *)
Theorem singlePlayer_turns (events : list SinglePlayer.Event)
    (sp : SinglePlayer.State * option (list Cell)) :
  Forall renderedClick events → SinglePlayer.play events = Some sp →
  singlePlayerTurns sp.
Proof.
  unfold SinglePlayer.play.
  assert (singlePlayerTurns (SinglePlayer.resetGame, None)) as H0.
  { split; [done|]. by left. }
  revert H0. generalize (SinglePlayer.resetGame, @None (list Cell)).
  induction events as [|e events IH]; intros sp0 H0 Hall Hplay; simpl in Hplay.
  - by injection Hplay as <-.
  - apply Forall_cons in Hall as [He Hall].
    destruct (SinglePlayer.step sp0 e) as [sp1|] eqn:Hstep; [|done].
    eapply IH; [|done|done]. by eapply singlePlayer_step.
Qed.

Lemma singlePlayer_turns_witness :
  ∃ s, SinglePlayer.play
         [SinglePlayer.Click 4; SinglePlayer.Click 0; SinglePlayer.Timeout 0]
       = Some (s, None)
    ∧ SinglePlayer.board s
      = [Some O; Some O; None; None; Some X; None; None; None; None]
    ∧ singlePlayerTurns (s, None).
Proof.
  eexists. split; [by vm_compute|]. split; [reflexivity|].
  apply (singlePlayer_turns
           [SinglePlayer.Click 4; SinglePlayer.Click 0; SinglePlayer.Timeout 0]).
  - repeat constructor; simpl; lia.
  - by vm_compute.
Defined.

(** ** Rock, paper, scissors *)

(** X13. A round of rock, paper, scissors is fair.  It is a tie exactly
    when both choices are the same, and then the score is kept; otherwise
    exactly one side gains one point; the user wins with [a] against [b]
    exactly when the computer wins with [b] against [a]; and against the
    three possible replies every choice gives one tie, one win and one
    loss. *)
Theorem determineWinner_fair (a b : RockPaperScissors.Choice)
    (sc : RockPaperScissors.Score) :
  let r := RockPaperScissors.determineWinner a (Some b) sc in
  let r' := RockPaperScissors.determineWinner b (Some a) sc in
  (r.1 = "It's a tie!" ↔ a = b)
  ∧ (r.1 = "You win!" ↔ r'.1 = "Computer wins!")
  ∧ (r.1 = "It's a tie!" → r.2 = sc)
  ∧ (r.1 = "You win!" →
       RockPaperScissors.player r.2 = RockPaperScissors.player sc + 1
       ∧ RockPaperScissors.computer r.2 = RockPaperScissors.computer sc)
  ∧ (r.1 = "Computer wins!" →
       RockPaperScissors.player r.2 = RockPaperScissors.player sc
       ∧ RockPaperScissors.computer r.2 = RockPaperScissors.computer sc + 1)
  ∧ (λ c, (RockPaperScissors.determineWinner a (Some c) sc).1)
      <$> RockPaperScissors.choices
    ≡ₚ ["It's a tie!"; "You win!"; "Computer wins!"].
Proof.
  cbv zeta. split; [|split; [|split; [|split; [|split]]]].
  - destruct a, b; by vm_compute.
  - destruct a, b; by vm_compute.
  - destruct a, b; vm_compute; by (done || destruct sc).
  - destruct a, b; vm_compute; try done; by destruct sc.
  - destruct a, b; vm_compute; try done; by destruct sc.
  - destruct a; simpl.
    + (* rock: tie, lose, win *)
      apply perm_skip, perm_swap.
    + (* paper: win, tie, lose *)
      etrans; [apply perm_swap|]. done.
    + (* scissors: lose, win, tie *)
      etrans; [apply perm_skip, perm_swap|].
      etrans; [apply perm_swap|]. apply perm_skip, perm_swap.
Qed.

Lemma playRounds_snoc (rounds : list (RockPaperScissors.Choice * nat))
    (round : RockPaperScissors.Choice * nat) :
  RockPaperScissors.playRounds (rounds ++ [round])
  = RockPaperScissors.handlePlay (RockPaperScissors.playRounds rounds)
      round.1 round.2.
Proof. unfold RockPaperScissors.playRounds. by rewrite foldl_app. Qed.

Lemma handlePlay_score (s : RockPaperScissors.State)
    (round : RockPaperScissors.Choice * nat) :
  let sc := RockPaperScissors.score s in
  let sc' := RockPaperScissors.score
               (RockPaperScissors.handlePlay s round.1 round.2) in
  RockPaperScissors.player sc' + RockPaperScissors.computer sc'
  = RockPaperScissors.player sc + RockPaperScissors.computer sc
    + (if RockPaperScissors.tied round then 0 else 1)
  ∧ RockPaperScissors.player sc ≤ RockPaperScissors.player sc'
  ∧ RockPaperScissors.computer sc ≤ RockPaperScissors.computer sc'.
Proof.
  destruct round as [choice k].
  unfold RockPaperScissors.handlePlay, RockPaperScissors.determineWinner,
    RockPaperScissors.tied.
  destruct (RockPaperScissors.score s) as [p q].
  cbn [fst snd RockPaperScissors.player RockPaperScissors.computer].
  destruct (RockPaperScissors.choices !! k) as [c|]; clear k.
  - destruct (decide (c = choice)) as [->|Hne].
    + rewrite !bool_decide_eq_true_2 by done. simpl. lia.
    + rewrite (bool_decide_eq_false_2 (Some choice = Some c)) by congruence.
      rewrite (bool_decide_eq_false_2 (Some c = Some choice)) by congruence.
      destruct (_ || _); simpl; lia.
  - rewrite (bool_decide_eq_false_2 (Some choice = None)) by done.
    rewrite (bool_decide_eq_false_2 (None = Some choice)) by done.
    destruct (_ || _); simpl; lia.
Qed.

(** X14. After any rounds played from a reset, the two scores add up to the
    number of rounds that were not tied: every round that is not a tie
    gives exactly one point, and no point is ever taken back. *)
Theorem score_accounting (rounds : list (RockPaperScissors.Choice * nat)) :
  let sc := RockPaperScissors.score (RockPaperScissors.playRounds rounds) in
  RockPaperScissors.player sc + RockPaperScissors.computer sc
  = length (List.filter (λ round, negb (RockPaperScissors.tied round)) rounds).
Proof.
  cbv zeta. induction rounds as [|round rounds IH] using rev_ind; [done|].
  rewrite playRounds_snoc, List.filter_app, length_app.
  destruct (handlePlay_score (RockPaperScissors.playRounds rounds) round)
    as (Hsum & _ & _).
  rewrite Hsum, IH. simpl. by destruct (RockPaperScissors.tied round).
Qed.

(** ** The clicker *)

Lemma clicker_run_snoc (events : list Clicker.Event) (e : Clicker.Event) :
  Clicker.run (events ++ [e]) = Clicker.step (Clicker.run events) e.
Proof. unfold Clicker.run. by rewrite foldl_app. Qed.

Lemma clicker_bounds (events : list Clicker.Event) :
  (0 ≤ Clicker.score (Clicker.run events))%Z
  ∧ (1 ≤ Clicker.clickPower (Clicker.run events))%Z
  ∧ (10 ≤ Clicker.upgradeCost (Clicker.run events))%Z.
Proof.
  induction events as [|e events IH] using rev_ind; [done|].
  rewrite clicker_run_snoc. destruct IH as (Hs & Hp & Hc).
  destruct e; simpl; [lia | | lia].
  unfold Clicker.handleUpgrade. case_bool_decide; simpl; [|lia].
  split; [lia|]. split; [lia|].
  apply Z.div_le_lower_bound; lia.
Qed.

(** X15. Whatever the user clicks in the clicker game, the score never
    becomes negative, the click power stays at least 1 and the upgrade cost
    at least 10.  An upgrade that the score can pay takes exactly its cost
    from the score, adds one to the click power and raises the cost by at
    least 5; an upgrade that the score cannot pay changes none of the three
    numbers and announces a positive missing amount. *)
Theorem clicker_invariants (events : list Clicker.Event) :
  let s := Clicker.run events in
  let s' := Clicker.handleUpgrade s in
  (0 ≤ Clicker.score s)%Z ∧ (1 ≤ Clicker.clickPower s)%Z
  ∧ (10 ≤ Clicker.upgradeCost s)%Z
  ∧ ((Clicker.upgradeCost s ≤ Clicker.score s)%Z →
       Clicker.score s' = (Clicker.score s - Clicker.upgradeCost s)%Z
       ∧ Clicker.clickPower s' = (Clicker.clickPower s + 1)%Z
       ∧ (Clicker.upgradeCost s + 5 ≤ Clicker.upgradeCost s')%Z
       ∧ Clicker.modalTitle s' = "Upgrade Successful!")
  ∧ ((Clicker.score s < Clicker.upgradeCost s)%Z →
       Clicker.score s' = Clicker.score s
       ∧ Clicker.clickPower s' = Clicker.clickPower s
       ∧ Clicker.upgradeCost s' = Clicker.upgradeCost s
       ∧ Clicker.modalTitle s' = "Not Enough Score!"
       ∧ (0 < Clicker.upgradeCost s - Clicker.score s)%Z).
Proof.
  cbv zeta. destruct (clicker_bounds events) as (Hs & Hp & Hc).
  split; [done|]. split; [done|]. split; [done|].
  unfold Clicker.handleUpgrade. split.
  - intros H. rewrite bool_decide_eq_true_2 by done. simpl.
    split; [done|]. split; [done|]. split; [|done].
    apply Z.div_le_lower_bound; lia.
  - intros H. rewrite bool_decide_eq_false_2 by lia. simpl.
    repeat (split; [done|]). lia.
Qed.

(** ** The number guessing game *)

Example parseInt_digits : parseInt "42" = Some 42%Z.
Proof. reflexivity. Qed.

Example parseInt_prefix : parseInt "  17px" = Some 17%Z.
Proof. reflexivity. Qed.

Example parseInt_fraction : parseInt "1.9" = Some 1%Z.
Proof. reflexivity. Qed.

Example parseInt_negative : parseInt "-3" = Some (-3)%Z.
Proof. reflexivity. Qed.

Example parseInt_empty : parseInt EmptyString = None.
Proof. reflexivity. Qed.

Example parseInt_letters : parseInt "abc" = None.
Proof. reflexivity. Qed.

Lemma startGame_target (s : NumberGuessing.State) (random : R) :
  (0 <= random < 1)%R →
  ∃ t, NumberGuessing.targetNumber (NumberGuessing.startGame s random) = Some t
    ∧ (1 ≤ t ≤ 100)%Z.
Proof.
  intros [Hlo Hhi]. eexists. split; [reflexivity|].
  destruct (base_Int_part (random * 100)) as [H1 H2].
  assert (-1 < IZR (Int_part (random * 100)))%R as Hl by lra.
  assert (IZR (Int_part (random * 100)) < 100)%R as Hu by lra.
  apply lt_IZR in Hl, Hu. lia.
Qed.

(** X16. Every game of number guessing can be won.  For every value of
    [Math.random()] the target is between 1 and 100, so a text that
    [parseInt] reads as the target is always accepted: the first such guess
    ends the game at once, counts as attempt 1 and opens the
    "Congratulations!" notice. *)
Theorem guessing_game_winnable (s : NumberGuessing.State) (random : R) :
  (0 <= random < 1)%R →
  ∃ t, NumberGuessing.targetNumber (NumberGuessing.startGame s random) = Some t
    ∧ (1 ≤ t ≤ 100)%Z
    ∧ ∀ text, parseInt text = Some t →
        let s' := NumberGuessing.handleGuess
                    (NumberGuessing.setGuess text
                       (NumberGuessing.startGame s random)) in
        NumberGuessing.gameOver s' = true
        ∧ NumberGuessing.attempts s' = 1%Z
        ∧ NumberGuessing.modalOpen s' = true
        ∧ NumberGuessing.modalTitle s' = "Congratulations!".
Proof.
  intros Hr. destruct (startGame_target s random Hr) as (t & Ht & Hrange).
  exists t. split; [done|]. split; [done|]. intros text Hparse. cbv zeta.
  unfold NumberGuessing.handleGuess.
  change (NumberGuessing.guess (NumberGuessing.setGuess text _)) with text.
  change (NumberGuessing.targetNumber (NumberGuessing.setGuess text ?x))
    with (NumberGuessing.targetNumber x).
  rewrite Hparse, Ht.
  rewrite !(bool_decide_eq_false_2 (_ < _)%Z) by lia. simpl.
  by rewrite bool_decide_eq_true_2.
Qed.

Lemma guessing_game_winnable_witness :
  ∃ t, NumberGuessing.targetNumber
         (NumberGuessing.startGame NumberGuessing.initial (1 / 2)%R) = Some t
    ∧ (1 ≤ t ≤ 100)%Z.
Proof.
  destruct (guessing_game_winnable NumberGuessing.initial (1 / 2)%R)
    as (t & Ht & Hrange & _); [lra|].
  exists t. split; [exact Ht | exact Hrange].
Defined.

(** X17. The answer to a guess is truthful and only real guesses count.
    A text that [parseInt] does not read as a number from 1 to 100 only
    changes the message: it is not counted and it stays in the input.  A
    counted guess adds one attempt and empties the input; the game ends
    exactly when it is the target, the message says too low exactly when it
    is below the target, and too high exactly when it is above. *)
Theorem guess_feedback (s : NumberGuessing.State) (t : Z) :
  NumberGuessing.targetNumber s = Some t →
  let s' := NumberGuessing.handleGuess s in
  (NumberGuessing.isCounted (NumberGuessing.guess s) = false →
     NumberGuessing.attempts s' = NumberGuessing.attempts s
     ∧ NumberGuessing.guess s' = NumberGuessing.guess s
     ∧ NumberGuessing.gameOver s' = NumberGuessing.gameOver s
     ∧ NumberGuessing.message s'
       = "Please enter a valid number between 1 and 100.")
  ∧ (∀ n, NumberGuessing.counted (NumberGuessing.guess s) n →
       NumberGuessing.attempts s' = (NumberGuessing.attempts s + 1)%Z
       ∧ NumberGuessing.guess s' = EmptyString
       ∧ (n = t → NumberGuessing.gameOver s' = true)
       ∧ (n ≠ t → NumberGuessing.gameOver s' = NumberGuessing.gameOver s)
       ∧ (NumberGuessing.message s' = "Too low! Try again." ↔ (n < t)%Z)
       ∧ (NumberGuessing.message s' = "Too high! Try again." ↔ (t < n)%Z)).
Proof.
  intros Ht. cbv zeta. unfold NumberGuessing.handleGuess, NumberGuessing.isCounted,
    NumberGuessing.counted, NumberGuessing.lessThanTarget.
  rewrite Ht. split.
  - destruct (parseInt (NumberGuessing.guess s)) as [n|]; [|done].
    intros Hn. apply bool_decide_eq_false in Hn.
    assert (bool_decide (n < 1)%Z || bool_decide (100 < n)%Z = true) as ->; [|done].
    apply orb_true_iff. rewrite !bool_decide_eq_true. lia.
  - intros n [-> Hrange].
    rewrite !(bool_decide_eq_false_2 (_ < _)%Z) by lia. simpl.
    destruct (decide (n = t)) as [->|Hne].
    + rewrite bool_decide_eq_true_2 by done. simpl.
      repeat (split; [done|]). split; (split; [|lia]); intros H;
        simpl in H; discriminate.
    + rewrite bool_decide_eq_false_2 by congruence. simpl.
      repeat (split; [done|]).
      case_bool_decide; split; split; (done || lia).
Qed.

Lemma guess_feedback_witness :
  NumberGuessing.message
    (NumberGuessing.handleGuess
       (NumberGuessing.setGuess "30"
          {| NumberGuessing.targetNumber := Some 51%Z;
             NumberGuessing.guess := EmptyString;
             NumberGuessing.message := EmptyString;
             NumberGuessing.attempts := 0; NumberGuessing.gameOver := false;
             NumberGuessing.modalOpen := false;
             NumberGuessing.modalTitle := EmptyString;
             NumberGuessing.modalMessage := EmptyString |}))
  = "Too low! Try again.".
Proof.
  destruct (guess_feedback
              (NumberGuessing.setGuess "30"
                 {| NumberGuessing.targetNumber := Some 51%Z;
                    NumberGuessing.guess := EmptyString;
                    NumberGuessing.message := EmptyString;
                    NumberGuessing.attempts := 0;
                    NumberGuessing.gameOver := false;
                    NumberGuessing.modalOpen := false;
                    NumberGuessing.modalTitle := EmptyString;
                    NumberGuessing.modalMessage := EmptyString |}) 51%Z eq_refl)
    as [_ H].
  destruct (H 30%Z) as (_ & _ & _ & _ & Hlow & _).
  - split; [reflexivity|]. lia.
  - apply Hlow. lia.
Defined.

Lemma handleGuess_step (s : NumberGuessing.State) (text : string) :
  let s' := NumberGuessing.handleGuess (NumberGuessing.setGuess text s) in
  NumberGuessing.targetNumber s' = NumberGuessing.targetNumber s
  ∧ NumberGuessing.attempts s'
    = (NumberGuessing.attempts s
       + if NumberGuessing.isCounted text then 1 else 0)%Z
  ∧ NumberGuessing.gameOver s'
    = NumberGuessing.gameOver s
      || (NumberGuessing.isCounted text
          && bool_decide (parseInt text = NumberGuessing.targetNumber s)).
Proof.
  cbv zeta. unfold NumberGuessing.handleGuess, NumberGuessing.isCounted.
  change (NumberGuessing.guess (NumberGuessing.setGuess text s)) with text.
  change (NumberGuessing.targetNumber (NumberGuessing.setGuess text s))
    with (NumberGuessing.targetNumber s).
  destruct (parseInt text) as [n|]; simpl.
  - destruct (decide (1 ≤ n ≤ 100)%Z) as [Hn|Hn].
    + rewrite !(bool_decide_eq_false_2 (_ < _)%Z) by lia.
      rewrite (bool_decide_eq_true_2 (1 ≤ n ≤ 100)%Z) by done. simpl.
      case_bool_decide; simpl.
      * by rewrite orb_true_r.
      * by rewrite orb_false_r.
    + rewrite (bool_decide_eq_false_2 (1 ≤ n ≤ 100)%Z) by done.
      assert (bool_decide (n < 1)%Z || bool_decide (100 < n)%Z = true) as ->.
      { apply orb_true_iff. rewrite !bool_decide_eq_true. lia. }
      simpl. rewrite orb_false_r. split; [done|]. split; [lia|done].
  - rewrite orb_false_r. split; [done|]. split; [lia|done].
Qed.

(** X18. The attempts shown are exactly the counted guesses.  After any
    texts submitted one after the other, the number of attempts has grown
    by the number of texts that [parseInt] reads as a number from 1 to 100,
    the target is still the same, and the game is over exactly when it was
    over before or one of the texts was a counted guess of the target. *)
Theorem attempts_count (s : NumberGuessing.State) (texts : list string) :
  let s' := NumberGuessing.guessAll s texts in
  NumberGuessing.targetNumber s' = NumberGuessing.targetNumber s
  ∧ NumberGuessing.attempts s'
    = (NumberGuessing.attempts s
       + Z.of_nat (length (List.filter NumberGuessing.isCounted texts)))%Z
  ∧ (NumberGuessing.gameOver s' = true ↔
       NumberGuessing.gameOver s = true
       ∨ ∃ text t, text ∈ texts ∧ NumberGuessing.targetNumber s = Some t
                   ∧ NumberGuessing.counted text t).
Proof.
  cbv zeta. unfold NumberGuessing.guessAll. revert s.
  induction texts as [|text texts IH]; intros s; simpl.
  - split; [done|]. split; [lia|]. split; [by left|].
    intros [H|(text & t & Hin & _)]; [done|]. by apply elem_of_nil in Hin.
  - destruct (handleGuess_step s text) as (Ht & Ha & Hg). cbv zeta in *.
    destruct (IH (NumberGuessing.handleGuess (NumberGuessing.setGuess text s)))
      as (IHt & IHa & IHg).
    rewrite IHt, IHa, IHg, Ht, Ha, Hg. split; [done|]. split.
    + destruct (NumberGuessing.isCounted text); simpl; lia.
    + rewrite orb_true_iff, andb_true_iff, bool_decide_eq_true.
      unfold NumberGuessing.isCounted, NumberGuessing.counted. split.
      * intros [[H|[Hc Hp]]|(text' & t & Hin & Ht' & Hcount)].
        -- by left.
        -- right. destruct (parseInt text) as [n|] eqn:Hn; [|done].
           apply bool_decide_eq_true in Hc.
           exists text, n. split; [left|]. split; [done|]. by rewrite Hn.
        -- right. exists text', t. split; [by right|]. done.
      * intros [H|(text' & t & Hin & Ht' & Hp & Hrange)]; [by left; left|].
        apply elem_of_cons in Hin as [->|Hin].
        -- left. right. rewrite Hp, Ht'. split; [|done].
           by apply bool_decide_eq_true.
        -- right. exists text', t. done.
Qed.

(** ** The chat room *)

Lemma insertMessage_Permutation (m : Chat.Message) (l : list Chat.Message) :
  Chat.insertMessage m l ≡ₚ m :: l.
Proof.
  induction l as [|m' l IH]; simpl; [done|].
  case_bool_decide; [done|]. rewrite IH. apply perm_swap.
Qed.

Lemma sortByTimestamp_Permutation (docs : list Chat.Message) :
  Chat.sortByTimestamp docs ≡ₚ docs.
Proof.
  induction docs as [|m docs IH]; simpl; [done|].
  by rewrite insertMessage_Permutation, IH.
Qed.

Lemma insertMessage_sorted (m : Chat.Message) (l : list Chat.Message) :
  StronglySorted (λ a b, Chat.timestamp a ≤ Chat.timestamp b)%Z l →
  StronglySorted (λ a b, Chat.timestamp a ≤ Chat.timestamp b)%Z
    (Chat.insertMessage m l).
Proof.
  induction 1 as [|m' l Hs IH Hall]; simpl.
  - repeat constructor.
  - case_bool_decide as Hle.
    + constructor; [by constructor|]. constructor; [done|].
      eapply Forall_impl; [done|]. simpl. intros; lia.
    + constructor; [done|].
      rewrite insertMessage_Permutation. constructor; [lia|done].
Qed.

Lemma insertMessage_filter (m : Chat.Message) (l : list Chat.Message) (t : Z) :
  List.filter (λ x, bool_decide (Chat.timestamp x = t)) (Chat.insertMessage m l)
  = List.filter (λ x, bool_decide (Chat.timestamp x = t)) (m :: l).
Proof.
  induction l as [|m' l IH]; [done|]. simpl.
  case_bool_decide as Hle; [done|]. simpl. simpl in IH. rewrite IH.
  repeat case_bool_decide; try done. lia.
Qed.

Lemma sorted_stable_unique (l l' : list Chat.Message) :
  StronglySorted (λ a b, Chat.timestamp a ≤ Chat.timestamp b)%Z l →
  StronglySorted (λ a b, Chat.timestamp a ≤ Chat.timestamp b)%Z l' →
  (∀ t, List.filter (λ m, bool_decide (Chat.timestamp m = t)) l'
        = List.filter (λ m, bool_decide (Chat.timestamp m = t)) l) →
  l' = l.
Proof.
  intros Hl. revert l'.
  induction Hl as [|a l Hs IH Ha]; intros l' Hl' Hf.
  - destruct l' as [|a' l']; [done|].
    specialize (Hf (Chat.timestamp a')). simpl in Hf.
    by rewrite bool_decide_eq_true_2 in Hf.
  - destruct Hl' as [|a' l' Hs' Ha'].
    { specialize (Hf (Chat.timestamp a)). simpl in Hf.
      by rewrite bool_decide_eq_true_2 in Hf. }
    assert (Chat.timestamp a' = Chat.timestamp a) as Hts.
    { destruct (Z.lt_trichotomy (Chat.timestamp a') (Chat.timestamp a))
        as [Hlt|[Heq|Hgt]]; [|done|].
      - specialize (Hf (Chat.timestamp a')). simpl in Hf.
        rewrite (bool_decide_eq_true_2 (Chat.timestamp a' = _)) in Hf by done.
        rewrite (bool_decide_eq_false_2 (Chat.timestamp a = _)) in Hf by lia.
        assert (a' ∈ List.filter
                  (λ m, bool_decide (Chat.timestamp m = Chat.timestamp a')) l)
          as Hin by (rewrite <- Hf; left).
        apply list_elem_of_In, List.filter_In in Hin as [Hin _].
        apply list_elem_of_In in Hin.
        rewrite Forall_forall in Ha. specialize (Ha a' Hin). lia.
      - specialize (Hf (Chat.timestamp a)). simpl in Hf.
        rewrite (bool_decide_eq_true_2 (Chat.timestamp a = _)) in Hf by done.
        rewrite (bool_decide_eq_false_2 (Chat.timestamp a' = _)) in Hf by lia.
        assert (a ∈ List.filter
                  (λ m, bool_decide (Chat.timestamp m = Chat.timestamp a)) l')
          as Hin by (rewrite Hf; left).
        apply list_elem_of_In, List.filter_In in Hin as [Hin _].
        apply list_elem_of_In in Hin.
        rewrite Forall_forall in Ha'. specialize (Ha' a Hin). lia. }
    assert (a' = a) as ->.
    { specialize (Hf (Chat.timestamp a)). simpl in Hf.
      rewrite !bool_decide_eq_true_2 in Hf by done. by injection Hf. }
    f_equal. apply IH; [done|]. intros t. specialize (Hf t). simpl in Hf.
    case_bool_decide; [by injection Hf|done].
Qed.

(** X19. The messages shown after a snapshot are the documents of the
    snapshot, each once, in the order of their timestamps, and messages
    with the same timestamp stay in the order of the snapshot; no other
    list has these properties.  The listener also lowers the loading flag
    and leaves the text being typed. *)
Theorem messages_sorted (docs : list Chat.Message) (s : Chat.State) :
  let shown := Chat.messages (Chat.onMessagesSnapshot docs s) in
  shown ≡ₚ docs
  ∧ StronglySorted (λ a b, Chat.timestamp a ≤ Chat.timestamp b)%Z shown
  ∧ (∀ t, List.filter (λ m, bool_decide (Chat.timestamp m = t)) shown
          = List.filter (λ m, bool_decide (Chat.timestamp m = t)) docs)
  ∧ (∀ l', StronglySorted (λ a b, Chat.timestamp a ≤ Chat.timestamp b)%Z l' →
           (∀ t, List.filter (λ m, bool_decide (Chat.timestamp m = t)) l'
                 = List.filter (λ m, bool_decide (Chat.timestamp m = t)) docs) →
           l' = shown)
  ∧ Chat.loading (Chat.onMessagesSnapshot docs s) = false
  ∧ Chat.newMessage (Chat.onMessagesSnapshot docs s) = Chat.newMessage s.
Proof.
  cbv zeta. simpl.
  assert (StronglySorted (λ a b, Chat.timestamp a ≤ Chat.timestamp b)%Z
            (Chat.sortByTimestamp docs)) as Hsorted.
  { induction docs as [|m docs IH]; simpl; [constructor|].
    by apply insertMessage_sorted. }
  assert (∀ t, List.filter (λ m, bool_decide (Chat.timestamp m = t))
                 (Chat.sortByTimestamp docs)
               = List.filter (λ m, bool_decide (Chat.timestamp m = t)) docs)
    as Hstable.
  { clear Hsorted. intros t. induction docs as [|m docs IH]; [done|].
    change (Chat.sortByTimestamp (m :: docs))
      with (Chat.insertMessage m (Chat.sortByTimestamp docs)).
    rewrite insertMessage_filter. simpl. by rewrite IH. }
  split; [apply sortByTimestamp_Permutation|].
  split; [done|]. split; [done|]. split; [|done].
  intros l' Hl' Hf. apply sorted_stable_unique; [done|done|].
  intros t. by rewrite Hf, Hstable.
Qed.

Lemma insertMessage_greatest (m : Chat.Message) (l : list Chat.Message) :
  Forall (λ x, Chat.timestamp x < Chat.timestamp m)%Z l →
  Chat.insertMessage m l = l ++ [m].
Proof.
  induction 1 as [|m' l Hlt Hall IH]; simpl; [done|].
  rewrite bool_decide_eq_false_2 by lia. by rewrite IH.
Qed.

Lemma insertMessage_app_last (x m : Chat.Message) (l : list Chat.Message) :
  (Chat.timestamp x < Chat.timestamp m)%Z →
  Chat.insertMessage x (l ++ [m]) = Chat.insertMessage x l ++ [m].
Proof.
  intros Hlt. induction l as [|m' l IH]; simpl.
  - by rewrite bool_decide_eq_true_2 by lia.
  - case_bool_decide; [done|]. by rewrite IH.
Qed.

(** X20. A message whose timestamp is greater than the timestamps of all
    the other documents of a snapshot is shown last, wherever the snapshot
    has it. *)
Theorem newest_message_last (docs1 docs2 : list Chat.Message) (m : Chat.Message) :
  Forall (λ x, Chat.timestamp x < Chat.timestamp m)%Z (docs1 ++ docs2) →
  Chat.sortByTimestamp (docs1 ++ m :: docs2)
  = Chat.sortByTimestamp (docs1 ++ docs2) ++ [m].
Proof.
  intros Hall. apply Forall_app in Hall as [H1 H2].
  induction H1 as [|x docs1 Hx H1 IH]; simpl.
  - apply insertMessage_greatest.
    by rewrite sortByTimestamp_Permutation.
  - rewrite IH. by apply insertMessage_app_last.
Qed.

Lemma dropWhiteSpace_nil (l : list ascii) :
  dropWhiteSpace l = [] ↔ Forall (λ a, isWhiteSpace a = true) l.
Proof.
  induction l as [|a l IH]; simpl; [done|].
  destruct (isWhiteSpace a) eqn:Ha.
  - rewrite IH. split; [by constructor|]. by inversion 1.
  - split; [done|]. inversion 1. congruence.
Qed.

Lemma dropWhiteSpace_head (l : list ascii) (a : ascii) (l' : list ascii) :
  dropWhiteSpace l = a :: l' → isWhiteSpace a = false.
Proof.
  induction l as [|b l IH]; simpl; [done|].
  destruct (isWhiteSpace b) eqn:Hb; [done|]. by intros [= <- _].
Qed.

Lemma trim_empty (s : string) : trim s = EmptyString ↔ blank s.
Proof.
  unfold trim, blank.
  set (l := Stdlib.Strings.String.list_ascii_of_string s).
  rewrite <- dropWhiteSpace_nil.
  destruct (dropWhiteSpace l) as [|a l'] eqn:Hd; [done|].
  split; [|done]. intros H. exfalso.
  pose proof (dropWhiteSpace_head _ _ _ Hd) as Ha.
  simpl in H.
  assert (dropWhiteSpace (rev l' ++ [a]) ≠ []) as Hne.
  { rewrite dropWhiteSpace_nil, Forall_app, Forall_singleton. intros [_ ?]. congruence. }
  destruct (dropWhiteSpace (rev l' ++ [a])) as [|b l2]; [done|].
  simpl in H. destruct (rev l2); simpl in H; discriminate.
Qed.

(** X21. [sendMessage] adds a document exactly when the Firestore handle
    is there, the user is signed in and the text has a character that is
    not white space.  The document holds the user, the reading of the clock
    and the text as it was typed, not trimmed; the input is emptied and the
    list of messages is left to the listener.  In the other cases nothing is
    added and the input is kept. *)
Theorem sendMessage_spec (db : bool) (user : option string) (s : Chat.State) (now : Z) :
  let r := Chat.sendMessage db user s now in
  ((db = false ∨ truthy user = false ∨ blank (Chat.newMessage s)) → r = (s, None))
  ∧ (db = true → truthy user = true → ¬ blank (Chat.newMessage s) →
       r.2 = Some {| Chat.dataUserId := user;
                     Chat.dataText := Chat.newMessage s;
                     Chat.dataTimestamp := now |}
       ∧ Chat.newMessage r.1 = EmptyString
       ∧ Chat.messages r.1 = Chat.messages s).
Proof.
  cbv zeta. unfold Chat.sendMessage. split.
  - intros [-> | [-> | Hb]]; [done| by rewrite orb_true_r |].
    apply trim_empty in Hb. rewrite bool_decide_eq_true_2 by done.
    by rewrite orb_true_r.
  - intros -> -> Hb. rewrite bool_decide_eq_false_2; [done|].
    by rewrite trim_empty.
Qed.

Lemma newest_message_last_witness :
  Chat.sortByTimestamp
    [ {| Chat.id := "b"; Chat.userId := Some "bob"; Chat.text := "hi";
         Chat.timestamp := 5 |};
      {| Chat.id := "c"; Chat.userId := Some "carol"; Chat.text := "new";
         Chat.timestamp := 9 |};
      {| Chat.id := "a"; Chat.userId := Some "alice"; Chat.text := "hello";
         Chat.timestamp := 3 |} ]
  = Chat.sortByTimestamp
      [ {| Chat.id := "b"; Chat.userId := Some "bob"; Chat.text := "hi";
           Chat.timestamp := 5 |};
        {| Chat.id := "a"; Chat.userId := Some "alice"; Chat.text := "hello";
           Chat.timestamp := 3 |} ]
    ++ [ {| Chat.id := "c"; Chat.userId := Some "carol"; Chat.text := "new";
            Chat.timestamp := 9 |} ].
Proof.
  apply (newest_message_last
           [ {| Chat.id := "b"; Chat.userId := Some "bob"; Chat.text := "hi";
                Chat.timestamp := 5 |} ]
           [ {| Chat.id := "a"; Chat.userId := Some "alice";
                Chat.text := "hello"; Chat.timestamp := 3 |} ]).
  repeat constructor; simpl; lia.
Defined.

(** ** The compass script, continued *)

Section CompassMore.
Local Open Scope R_scope.

Lemma remainder_below (v : R) : 0 <= v < 360 → remainder v 360 = v.
Proof.
  intros Hv. unfold remainder.
  assert (0 <= v / 360) as Hq by lra.
  rewrite (truncate_nonneg _ Hq).
  rewrite <- (Int_part_spec (v / 360) 0); [lra|]. lra.
Qed.


Lemma toFixed2_bounds (b : R) : 0 <= b < 360 → (0 ≤ toFixed2 b ≤ 36000)%Z.
Proof.
  intros [Hlo Hhi]. unfold toFixed2. destruct (Rle_dec 0 b); [|lra].
  destruct (base_Int_part (b * 100 + 1 / 2)) as [H1 H2].
  assert (-1 < IZR (Int_part (b * 100 + 1 / 2))) as Hl by lra.
  assert (IZR (Int_part (b * 100 + 1 / 2)) < 36001) as Hu by lra.
  apply lt_IZR in Hl, Hu. lia.
Qed.

Lemma toDegrees_toRadians (v : R) : toDegrees (toRadians v) = v.
Proof. pose proof PI_RGT_0. unfold toDegrees, toRadians. field. lra. Qed.

Lemma toRadians_opp (v : R) : toRadians (- v) = - toRadians v.
Proof. unfold toRadians. lra. Qed.

Lemma getQiblaAngle_south_pole :
  getQiblaAngle (-90) 39.8272 qiblaLat qiblaLon = 359.999.
Proof.
  pose proof PI_RGT_0 as Hpi.
  unfold getQiblaAngle, qiblaLat, qiblaLon. cbv zeta.
  replace (toRadians (-90)) with (- (PI / 2)) by (unfold toRadians; lra).
  rewrite cos_neg, sin_neg, sin_PI2, cos_PI2.
  set (phi := toRadians 21.4225).
  replace (toRadians 39.8262 - toRadians 39.8272) with (- toRadians 0.001)
    by (unfold toRadians; lra).
  set (eps := toRadians 0.001).
  rewrite sin_neg, cos_neg.
  assert (0 < phi < PI / 2) as Hphi by (unfold phi, toRadians; lra).
  assert (0 < eps < PI / 2) as Heps by (unfold eps, toRadians; lra).
  assert (0 < cos phi) as Hcphi by (apply cos_gt_0; lra).
  assert (0 < cos eps) as Hceps by (apply cos_gt_0; lra).
  assert (toDegrees (- eps) = -0.001) as Hdeg.
  { unfold eps. rewrite <- toRadians_opp, toDegrees_toRadians. lra. }
  clearbody phi eps.
  assert (atan2 (- sin eps * cos phi) (0 * sin phi - - (1) * cos phi * cos eps)
          = - eps) as ->.
  { unfold atan2.
    assert (0 < cos phi * cos eps) by (by apply Rmult_lt_0_compat).
    destruct (Rlt_dec _ _); [|lra].
    assert (- sin eps * cos phi / (0 * sin phi - - (1) * cos phi * cos eps)
            = - tan eps) as ->.
    { unfold tan. field. split; lra. }
    rewrite atan_opp, atan_tan by lra. done. }
  rewrite Hdeg. replace (-0.001 + 360) with 359.999 by lra.
  apply remainder_below. lra.
Qed.

(** X23. The text that [showPosition] writes is between 0.00 and 360.00,
    and 360.00 is reached although the bearing itself is below 360: one
    thousandth of a degree east of the meridian of the target, at the south
    pole, the bearing is 359.999 and the text is 360.00. *)
Theorem displayed_bearing_bounds (userLat userLon : R) :
  (0 ≤ qiblaDirection (showPosition userLat userLon) ≤ 36000)%Z
  ∧ qiblaDirection (showPosition (-90) 39.8272) = 36000%Z
  ∧ compass (showPosition (-90) 39.8272) = 359.999.
Proof.
  split; [|split].
  - simpl. apply toFixed2_bounds, getQiblaAngle_range.
  - simpl. rewrite getQiblaAngle_south_pole.
    unfold toFixed2. destruct (Rle_dec _ _); [|lra].
    symmetry. apply Int_part_spec. lra.
  - simpl. apply getQiblaAngle_south_pole.
Qed.










Lemma handleEvents_snoc (p : Page) (alphas : list (option R)) (alpha : option R) :
  handleEvents p (alphas ++ [alpha]) = handleOrientation (handleEvents p alphas) alpha.
Proof. unfold handleEvents. by rewrite foldl_app. Qed.

Lemma lastHeading_snoc (alphas : list (option R)) (alpha : option R) :
  lastHeading (alphas ++ [alpha])
  = match alpha with Some _ => alpha | None => lastHeading alphas end.
Proof. unfold lastHeading. by rewrite foldl_app. Qed.

(** X26. Over any sequence of orientation events the text of the bearing
    and the listener stay as they are, and the rotation is the displayed
    bearing minus the heading of the last event that had one (the rotation
    left by [showPosition] when no event had one): nothing accumulates from
    one event to the next. *)
Theorem rotation_follows_last_heading (p : Page) (alphas : list (option R)) :
  qiblaDirection (handleEvents p alphas) = qiblaDirection p
  ∧ listening (handleEvents p alphas) = listening p
  ∧ compass (handleEvents p alphas)
    = match lastHeading alphas with
      | Some alpha => parseFloat (qiblaDirection p) - alpha
      | None => compass p
      end.
Proof.
  induction alphas as [|alpha alphas IH] using rev_ind; [done|].
  rewrite handleEvents_snoc, lastHeading_snoc.
  destruct IH as (Ht & Hl & Hc). destruct alpha as [alpha|]; simpl; [|done].
  by rewrite Ht.
Qed.

End CompassMore.


(** ** The memory card game *)

Lemma memory_ids (l : list Memory.Card) :
  Memory.face <$> l ≡ₚ Memory.face <$> Memory.deck →
  NoDup (Memory.id <$> l) ∧ length l = 8.
Proof.
  intros Hp. split.
  - assert (Memory.id <$> l = (Memory.face <$> l).*1) as ->
      by (by rewrite <- list_fmap_compose).
    rewrite Hp. apply (bool_decide_unpack _). by vm_compute.
  - apply Permutation_length in Hp. by rewrite !length_fmap in Hp.
Qed.

(** Two cards of a grid with the same id are the same card. *)
Lemma memory_id_inj (l : list Memory.Card) (c1 c2 : Memory.Card) :
  NoDup (Memory.id <$> l) → c1 ∈ l → c2 ∈ l → Memory.id c1 = Memory.id c2 →
  c1 = c2.
Proof.
  induction l as [|c l IH]; intros Hnd H1 H2 Hid; [by apply elem_of_nil in H1|].
  rewrite fmap_cons in Hnd. apply NoDup_cons in Hnd as [Hnotin Hnd].
  apply elem_of_cons in H1 as [->|H1]; apply elem_of_cons in H2 as [->|H2].
  - done.
  - destruct Hnotin. rewrite Hid. by apply list_elem_of_fmap_2.
  - destruct Hnotin. rewrite <- Hid. by apply list_elem_of_fmap_2.
  - by apply IH.
Qed.

Lemma findCard_elem (l : list Memory.Card) (c : Memory.Card) :
  NoDup (Memory.id <$> l) → c ∈ l → Memory.findCard (Memory.id c) l = Some c.
Proof.
  intros Hnd Hc. unfold Memory.findCard.
  destruct (List.find _ l) as [c'|] eqn:Hfind.
  - apply find_some in Hfind as [Hin Hid].
    apply bool_decide_eq_true_1 in Hid. apply list_elem_of_In in Hin.
    f_equal. by apply (memory_id_inj l).
  - apply list_elem_of_In in Hc.
    pose proof (find_none _ _ Hfind _ Hc) as Hno. simpl in Hno.
    by rewrite bool_decide_eq_true_2 in Hno.
Qed.

(** The faces of the deck: the value of a card is given by its id, and two
    different cards have the same value only when they are a pair. *)
Lemma deck_faces (l : list Memory.Card) (c : Memory.Card) :
  Memory.face <$> l ≡ₚ Memory.face <$> Memory.deck → c ∈ l →
  Memory.face c ∈ [(1, "A"); (2, "A"); (3, "B"); (4, "B");
                   (5, "C"); (6, "C"); (7, "D"); (8, "D")].
Proof.
  intros Hp Hc. apply (list_elem_of_fmap_2 Memory.face) in Hc.
  by rewrite Hp in Hc.
Qed.

Lemma deck_pairs (l : list Memory.Card) (c1 c2 c3 : Memory.Card) :
  Memory.face <$> l ≡ₚ Memory.face <$> Memory.deck →
  c1 ∈ l → c2 ∈ l → c3 ∈ l →
  Memory.id c1 ≠ Memory.id c2 → Memory.value c1 = Memory.value c2 →
  Memory.value c3 = Memory.value c1 →
  Memory.id c3 = Memory.id c1 ∨ Memory.id c3 = Memory.id c2.
Proof.
  intros Hp H1 H2 H3 Hne H12 H31.
  pose proof (deck_faces _ _ Hp H1) as F1.
  pose proof (deck_faces _ _ Hp H2) as F2.
  pose proof (deck_faces _ _ Hp H3) as F3.
  unfold Memory.face in *.
  destruct c1 as [i1 v1 ? ?], c2 as [i2 v2 ? ?], c3 as [i3 v3 ? ?].
  simpl in *. subst v2 v3.
  rewrite !elem_of_cons, elem_of_nil in F1, F2, F3.
  destruct_or!; simplify_eq; auto.
Qed.

(** Counting the matched cards. *)
Lemma matched_count_flip (f : bool) (P : Memory.Card → bool) (l : list Memory.Card) :
  length (List.filter Memory.matched
            ((λ card, if P card then Memory.setFlipped f card else card) <$> l))
  = length (List.filter Memory.matched l).
Proof.
  induction l as [|c l IH]; [done|]. rewrite fmap_cons.
  destruct (P c) eqn:HP, (Memory.matched c) eqn:Hm; simpl; rewrite ?HP, ?Hm;
    simpl; by rewrite IH.
Qed.

Lemma matched_count_match (P : Memory.Card → bool) (l : list Memory.Card) :
  length (List.filter Memory.matched
            ((λ card, if P card then Memory.setMatched true card else card) <$> l))
  = length (List.filter Memory.matched l)
    + length (List.filter (λ card, P card && negb (Memory.matched card)) l).
Proof.
  induction l as [|c l IH]; [done|]. rewrite fmap_cons.
  destruct (P c) eqn:HP, (Memory.matched c) eqn:Hm; simpl; rewrite ?HP, ?Hm;
    simpl; rewrite IH; lia.
Qed.

Lemma filter_id_none (i : nat) (Q : Memory.Card → bool) (l : list Memory.Card) :
  i ∉ Memory.id <$> l →
  List.filter (λ card, bool_decide (Memory.id card = i) && Q card) l = [].
Proof.
  induction l as [|c l IH]; [done|]. rewrite fmap_cons, not_elem_of_cons.
  intros [Hne Hnotin]. simpl. rewrite bool_decide_eq_false_2 by done.
  by apply IH.
Qed.

Lemma filter_id_one (i : nat) (Q : Memory.Card → bool) (l : list Memory.Card)
    (c : Memory.Card) :
  NoDup (Memory.id <$> l) → c ∈ l → Memory.id c = i → Q c = true →
  length (List.filter (λ card, bool_decide (Memory.id card = i) && Q card) l) = 1.
Proof.
  intros Hnd Hc <- HQ. revert Hnd Hc.
  induction l as [|c0 l IH]; intros Hnd Hc; [by apply elem_of_nil in Hc|].
  rewrite fmap_cons in Hnd. apply NoDup_cons in Hnd as [Hnotin Hnd].
  apply elem_of_cons in Hc as [->|Hc]; simpl.
  - rewrite bool_decide_eq_true_2, HQ by done. simpl.
    by rewrite filter_id_none.
  - rewrite bool_decide_eq_false_2; [by apply IH|].
    intros Heq. destruct Hnotin. rewrite Heq. by apply list_elem_of_fmap_2.
Qed.

Lemma filter_two_ids (i j : nat) (Q : Memory.Card → bool) (l : list Memory.Card) :
  i ≠ j →
  length (List.filter
            (λ card, (bool_decide (Memory.id card = i)
                      || bool_decide (Memory.id card = j)) && Q card) l)
  = length (List.filter (λ card, bool_decide (Memory.id card = i) && Q card) l)
    + length (List.filter (λ card, bool_decide (Memory.id card = j) && Q card) l).
Proof.
  intros Hij. induction l as [|c l IH]; [done|]. simpl.
  repeat case_bool_decide; simplify_eq; simpl; destruct (Q c); simpl; lia.
Qed.

Lemma face_fmap (g : Memory.Card → Memory.Card) (l : list Memory.Card) :
  (∀ card, Memory.face (g card) = Memory.face card) →
  Memory.face <$> (g <$> l) = Memory.face <$> l.
Proof.
  intros Hg. rewrite <- list_fmap_compose. apply list_fmap_ext.
  intros _ card _. apply Hg.
Qed.

Lemma face_cond (P : Memory.Card → bool) (g : Memory.Card → Memory.Card)
    (card : Memory.Card) :
  Memory.face (g card) = Memory.face card →
  Memory.face (if P card then g card else card) = Memory.face card.
Proof. by destruct (P card). Qed.

Lemma face_turnUp (i : nat) (card : Memory.Card) :
  Memory.face (Memory.turnUp i card) = Memory.face card.
Proof. unfold Memory.turnUp. by case_bool_decide. Qed.

Lemma face_markMatched (id1 id2 : nat) (card : Memory.Card) :
  Memory.face (Memory.markMatched id1 id2 card) = Memory.face card.
Proof. unfold Memory.markMatched. by destruct (_ || _). Qed.

Lemma face_turnDown (id1 id2 : nat) (card : Memory.Card) :
  Memory.face (Memory.turnDown id1 id2 card) = Memory.face card.
Proof. unfold Memory.turnDown. by destruct (_ || _). Qed.

Lemma face_id (c1 c2 : Memory.Card) :
  Memory.face c1 = Memory.face c2 →
  Memory.id c1 = Memory.id c2 ∧ Memory.value c1 = Memory.value c2.
Proof. unfold Memory.face. by intros [= -> ->]. Qed.

Lemma ids_fmap (g : Memory.Card → Memory.Card) (l : list Memory.Card) :
  (∀ card, Memory.face (g card) = Memory.face card) →
  Memory.id <$> (g <$> l) = Memory.id <$> l.
Proof.
  intros Hg. rewrite <- list_fmap_compose. apply list_fmap_ext.
  intros _ card _. simpl. by destruct (face_id _ _ (Hg card)).
Qed.

Lemma findCard_fmap (g : Memory.Card → Memory.Card) (l : list Memory.Card)
    (c : Memory.Card) :
  (∀ card, Memory.face (g card) = Memory.face card) →
  NoDup (Memory.id <$> l) → c ∈ l →
  Memory.findCard (Memory.id c) (g <$> l) = Some (g c).
Proof.
  intros Hg Hnd Hc. destruct (face_id _ _ (Hg c)) as [<- _].
  apply findCard_elem; [by rewrite ids_fmap|by apply list_elem_of_fmap_2].
Qed.

Lemma gameOverEffect_unfold (s : Memory.State) :
  Memory.gameOverEffect s
  = if bool_decide (Memory.matchesFound s = 4) then
      {| Memory.cards := Memory.cards s;
         Memory.flippedCards := Memory.flippedCards s;
         Memory.matchesFound := Memory.matchesFound s;
         Memory.moves := Memory.moves s;
         Memory.gameOver := true; Memory.modalOpen := true;
         Memory.modalMessage :=
           "Congratulations! You matched all pairs in "
           +:+ pretty (Memory.moves s) +:+ " moves!";
         Memory.timers := Memory.timers s |}
    else s.
Proof.
  unfold Memory.gameOverEffect.
  change (length Memory.deck / 2) with 4.
  rewrite (bool_decide_eq_true_2 (0 < length Memory.deck)) by (simpl; lia).
  by rewrite andb_true_r.
Qed.

Lemma effects_same (s : Memory.State) : Memory.effects s s = Some s.
Proof.
  unfold Memory.effects. by rewrite !bool_decide_eq_true_2.
Qed.

(** A click that the grid or the handler refuses changes nothing. *)
Lemma cardClicked_refused (s : Memory.State) (k : nat) :
  (∀ card, Memory.cards s !! k = Some card →
     Memory.matched card = true ∨ Memory.flipped card = true
     ∨ Memory.gameOver s = true ∨ length (Memory.flippedCards s) = 2) →
  Memory.step s (Memory.CardClick k) = Some s.
Proof.
  intros Href. simpl. unfold Memory.cardClicked.
  destruct (Memory.cards s !! k) as [card|]; [|apply effects_same].
  destruct (Href card eq_refl) as [H|[H|[H|H]]].
  - rewrite H. apply effects_same.
  - rewrite H, andb_false_r. apply effects_same.
  - unfold Memory.handleCardClick. rewrite H.
    destruct (_ && _); apply effects_same.
  - unfold Memory.handleCardClick. rewrite (bool_decide_eq_true_2 _ H), orb_true_r.
    destruct (_ && _); apply effects_same.
Qed.

(** The first card of a pair is turned up and remembered. *)
Lemma click_first (s : Memory.State) (k : nat) (c : Memory.Card) :
  Memory.cards s !! k = Some c →
  Memory.matched c = false → Memory.flipped c = false →
  Memory.gameOver s = false → Memory.flippedCards s = [] →
  Memory.step s (Memory.CardClick k)
  = Some {| Memory.cards := Memory.turnUp (Memory.id c) <$> Memory.cards s;
            Memory.flippedCards := [Memory.id c];
            Memory.matchesFound := Memory.matchesFound s;
            Memory.moves := Memory.moves s;
            Memory.gameOver := Memory.gameOver s;
            Memory.modalOpen := Memory.modalOpen s;
            Memory.modalMessage := Memory.modalMessage s;
            Memory.timers := Memory.timers s |}.
Proof.
  intros Hk Hm Hf Hgo Hfl. simpl. unfold Memory.cardClicked, Memory.handleCardClick.
  rewrite Hk, Hm, Hf, Hgo, Hfl. simpl.
  unfold Memory.effects. simpl. rewrite Hfl.
  rewrite bool_decide_eq_false_2 by (by intros [? _]).
  unfold Memory.matchEffect. simpl.
  by rewrite bool_decide_eq_true_2.
Qed.

(** The second card of a pair, of the same value as the first one. *)
Lemma click_second_match (s : Memory.State) (k : nat) (c c0 : Memory.Card) :
  NoDup (Memory.id <$> Memory.cards s) →
  Memory.cards s !! k = Some c →
  Memory.matched c = false → Memory.flipped c = false →
  Memory.gameOver s = false → Memory.flippedCards s = [Memory.id c0] →
  c0 ∈ Memory.cards s → Memory.value c0 = Memory.value c →
  Memory.step s (Memory.CardClick k)
  = Some (Memory.gameOverEffect
            {| Memory.cards :=
                 Memory.markMatched (Memory.id c0) (Memory.id c)
                 <$> (Memory.turnUp (Memory.id c) <$> Memory.cards s);
               Memory.flippedCards := [];
               Memory.matchesFound := Memory.matchesFound s + 1;
               Memory.moves := Memory.moves s + 1;
               Memory.gameOver := Memory.gameOver s;
               Memory.modalOpen := Memory.modalOpen s;
               Memory.modalMessage := Memory.modalMessage s;
               Memory.timers := Memory.timers s |}).
Proof.
  intros Hnd Hk Hm Hf Hgo Hfl Hc0 Hval. simpl.
  unfold Memory.cardClicked, Memory.handleCardClick.
  rewrite Hk, Hm, Hf, Hgo, Hfl. simpl.
  unfold Memory.effects. simpl. rewrite Hfl.
  rewrite bool_decide_eq_false_2 by (by intros [? _]).
  unfold Memory.matchEffect. simpl.
  rewrite (findCard_fmap _ _ c0), (findCard_fmap _ _ c);
    [|apply face_turnUp|done|by eapply list_elem_of_lookup_2
     |apply face_turnUp|done|done].
  destruct (face_id _ _ (face_turnUp (Memory.id c) c0)) as [_ ->].
  destruct (face_id _ _ (face_turnUp (Memory.id c) c)) as [_ ->].
  rewrite bool_decide_eq_true_2 by done. simpl.
  rewrite bool_decide_eq_false_2 by lia. done.
Qed.

(** The second card of a pair, of another value than the first one. *)
Lemma click_second_mismatch (s : Memory.State) (k : nat) (c c0 : Memory.Card) :
  NoDup (Memory.id <$> Memory.cards s) →
  Memory.cards s !! k = Some c →
  Memory.matched c = false → Memory.flipped c = false →
  Memory.gameOver s = false → Memory.flippedCards s = [Memory.id c0] →
  c0 ∈ Memory.cards s → Memory.value c0 ≠ Memory.value c →
  Memory.step s (Memory.CardClick k)
  = Some (Memory.gameOverEffect
            {| Memory.cards := Memory.turnUp (Memory.id c) <$> Memory.cards s;
               Memory.flippedCards := [Memory.id c0; Memory.id c];
               Memory.matchesFound := Memory.matchesFound s;
               Memory.moves := Memory.moves s + 1;
               Memory.gameOver := Memory.gameOver s;
               Memory.modalOpen := Memory.modalOpen s;
               Memory.modalMessage := Memory.modalMessage s;
               Memory.timers :=
                 Memory.timers s ++ [(Memory.id c0, Memory.id c)] |}).
Proof.
  intros Hnd Hk Hm Hf Hgo Hfl Hc0 Hval. simpl.
  unfold Memory.cardClicked, Memory.handleCardClick.
  rewrite Hk, Hm, Hf, Hgo, Hfl. simpl.
  unfold Memory.effects. simpl. rewrite Hfl.
  rewrite bool_decide_eq_false_2 by (by intros [? _]).
  unfold Memory.matchEffect. simpl.
  rewrite (findCard_fmap _ _ c0), (findCard_fmap _ _ c);
    [|apply face_turnUp|done|by eapply list_elem_of_lookup_2
     |apply face_turnUp|done|done].
  destruct (face_id _ _ (face_turnUp (Memory.id c) c0)) as [_ ->].
  destruct (face_id _ _ (face_turnUp (Memory.id c) c)) as [_ ->].
  rewrite bool_decide_eq_false_2 by done. simpl.
  rewrite bool_decide_eq_false_2 by lia. done.
Qed.

(** The expiry of a timeout. *)
Lemma step_timeout (s : Memory.State) (id1 id2 : nat) (rest : list (nat * nat)) :
  Memory.timers s = (id1, id2) :: rest →
  Memory.step s Memory.Timeout
  = Some {| Memory.cards := Memory.turnDown id1 id2 <$> Memory.cards s;
            Memory.flippedCards := [];
            Memory.matchesFound := Memory.matchesFound s;
            Memory.moves := Memory.moves s;
            Memory.gameOver := Memory.gameOver s;
            Memory.modalOpen := Memory.modalOpen s;
            Memory.modalMessage := Memory.modalMessage s;
            Memory.timers := rest |}.
Proof.
  intros Ht. simpl. rewrite Ht. unfold Memory.effects, Memory.flipBack. simpl.
  rewrite Ht. simpl. unfold Memory.matchEffect. simpl.
  case_bool_decide; simpl; by rewrite bool_decide_eq_true_2.
Qed.

Lemma step_reset (s : Memory.State) (shuffled : list Memory.Card) :
  Memory.step s (Memory.Reset shuffled) = Some (Memory.resetGame shuffled s).
Proof.
  simpl. unfold Memory.effects, Memory.matchEffect. simpl.
  assert (Memory.gameOverEffect (Memory.resetGame shuffled s)
          = Memory.resetGame shuffled s) as Hno
    by (by rewrite gameOverEffect_unfold).
  repeat case_bool_decide; by rewrite ?Hno.
Qed.

Lemma unmatched_count (l : list Memory.Card) :
  Forall (λ card, Memory.matched card = false) l →
  List.filter Memory.matched l = [].
Proof. induction 1 as [|c l Hc _ IH]; [done|]. simpl. by rewrite Hc. Qed.

Lemma memoryConsistent_fresh (l : list Memory.Card) (msg : string)
    (tm : list (nat * nat)) :
  Memory.face <$> l ≡ₚ Memory.face <$> Memory.deck →
  Forall (λ card, Memory.matched card = false) l →
  memoryConsistent
    {| Memory.cards := l; Memory.flippedCards := [];
       Memory.matchesFound := 0; Memory.moves := 0;
       Memory.gameOver := false; Memory.modalOpen := false;
       Memory.modalMessage := msg; Memory.timers := tm |}.
Proof.
  intros Hf Hall. unfold memoryConsistent. simpl. split_and!; try done.
  - apply NoDup_nil_2.
  - intros i Hi. by apply elem_of_nil in Hi.
  - lia.
  - by rewrite unmatched_count.
  - intros c1 c2 H1 H2 _. rewrite Forall_forall in Hall.
    by rewrite (Hall c1), (Hall c2).
Qed.

Lemma memoryConsistent_initial (initialCards : list Memory.Card) :
  initialCards ≡ₚ Memory.deck → memoryConsistent (Memory.initial initialCards).
Proof.
  intros Hp. apply memoryConsistent_fresh; [by rewrite Hp|].
  rewrite Hp. by repeat constructor.
Qed.

Lemma memoryConsistent_reset (s : Memory.State) (shuffled : list Memory.Card) :
  shuffled ≡ₚ Memory.deck → memoryConsistent (Memory.resetGame shuffled s).
Proof.
  intros Hp. apply memoryConsistent_fresh.
  - rewrite face_fmap by done. by rewrite Hp.
  - apply Forall_fmap, Forall_true. done.
Qed.

(** The invariant on the cards, under a function that turns cards up or
    down. *)
Lemma turned_cards (g : Memory.Card → Memory.Card) (l : list Memory.Card) :
  (∀ card, Memory.face (g card) = Memory.face card) →
  (∀ card, Memory.matched (g card) = Memory.matched card) →
  Memory.face <$> l ≡ₚ Memory.face <$> Memory.deck →
  (∀ card1 card2, card1 ∈ l → card2 ∈ l →
     Memory.value card1 = Memory.value card2 →
     Memory.matched card1 = Memory.matched card2) →
  Memory.face <$> (g <$> l) ≡ₚ Memory.face <$> Memory.deck
  ∧ length (List.filter Memory.matched (g <$> l))
    = length (List.filter Memory.matched l)
  ∧ (∀ card1 card2, card1 ∈ g <$> l → card2 ∈ g <$> l →
       Memory.value card1 = Memory.value card2 →
       Memory.matched card1 = Memory.matched card2).
Proof.
  intros Hface Hmatched Hf Htw. split_and!.
  - by rewrite face_fmap.
  - clear Hf Htw. induction l as [|c l IH]; [done|]. rewrite fmap_cons. simpl.
    rewrite Hmatched. destruct (Memory.matched c); simpl; by rewrite IH.
  - intros c1 c2 H1 H2 Hv.
    apply list_elem_of_fmap_1 in H1 as (x1 & -> & H1).
    apply list_elem_of_fmap_1 in H2 as (x2 & -> & H2).
    rewrite !Hmatched. apply Htw; [done..|].
    destruct (face_id _ _ (Hface x1)) as [_ <-].
    by destruct (face_id _ _ (Hface x2)) as [_ <-].
Qed.

Lemma matched_turnUp (i : nat) (card : Memory.Card) :
  Memory.matched (Memory.turnUp i card) = Memory.matched card.
Proof. unfold Memory.turnUp. by case_bool_decide. Qed.

Lemma matched_turnDown (id1 id2 : nat) (card : Memory.Card) :
  Memory.matched (Memory.turnDown id1 id2 card) = Memory.matched card.
Proof. unfold Memory.turnDown. by destruct (_ || _). Qed.

Lemma flipped_turnUp (i : nat) (card : Memory.Card) :
  Memory.flipped (Memory.turnUp i card)
  = bool_decide (Memory.id card = i) || Memory.flipped card.
Proof. unfold Memory.turnUp. by case_bool_decide. Qed.

Lemma memoryConsistent_timeout (s : Memory.State) :
  memoryConsistent s →
  ∃ s', Memory.step s Memory.Timeout = Some s' ∧ memoryConsistent s'.
Proof.
  intros Hcons. destruct (Memory.timers s) as [|[id1 id2] rest] eqn:Ht.
  { exists s. split; [|done]. simpl. by rewrite Ht. }
  eexists. split; [by apply step_timeout|].
  destruct Hcons as (Hf & Hnd & Hfl & Hlen & Htm & Hcnt & Htw & Hgo & Hmv & Hmo & Hmsg).
  destruct (turned_cards (Memory.turnDown id1 id2) (Memory.cards s))
    as (Hf' & Hcnt' & Htw');
    [apply face_turnDown|apply matched_turnDown|done..|].
  unfold memoryConsistent. simpl. split_and!; try done.
  - apply NoDup_nil_2.
  - intros i Hi. by apply elem_of_nil in Hi.
  - lia.
  - by rewrite Hcnt'.
Qed.

Lemma memoryConsistent_close (s : Memory.State) :
  memoryConsistent s → memoryConsistent (Memory.closeModal s).
Proof.
  intros (Hf & Hnd & Hfl & Hlen & Htm & Hcnt & Htw & Hgo & Hmv & Hmo & Hmsg).
  unfold memoryConsistent. simpl. by split_and!.
Qed.

Lemma memoryConsistent_click (s : Memory.State) (k : nat) :
  memoryConsistent s →
  ∃ s', Memory.step s (Memory.CardClick k) = Some s' ∧ memoryConsistent s'.
Proof.
  intros Hcons.
  destruct (Memory.cards s !! k) as [c|] eqn:Hk; last first.
  { exists s. split; [|done]. apply cardClicked_refused. by rewrite Hk. }
  destruct (Memory.matched c) eqn:Hm.
  { exists s. split; [|done]. apply cardClicked_refused. rewrite Hk.
    intros ? [= <-]. auto. }
  destruct (Memory.flipped c) eqn:Hflip.
  { exists s. split; [|done]. apply cardClicked_refused. rewrite Hk.
    intros ? [= <-]. auto. }
  destruct (Memory.gameOver s) eqn:Hover.
  { exists s. split; [|done]. apply cardClicked_refused. auto. }
  pose proof Hcons
    as (Hf & Hnd & Hfl & Hlen & Htm & Hcnt & Htw & Hgo & Hmv & Hmo & Hmsg).
  destruct (memory_ids _ Hf) as [Hids _].
  assert (c ∈ Memory.cards s) as Hc by (by eapply list_elem_of_lookup_2).
  assert (Memory.modalOpen s = false) as Hclosed.
  { destruct (Memory.modalOpen s); [|done]. by rewrite Hmo in Hover. }
  assert (Memory.matchesFound s ≠ 4) as Hnot4.
  { intros H4. by rewrite Hgo, bool_decide_eq_true_2 in Hover. }
  destruct (turned_cards (Memory.turnUp (Memory.id c)) (Memory.cards s))
    as (Hf' & Hcnt' & Htw');
    [apply face_turnUp|apply matched_turnUp|done..|].
  assert (∀ x, x ∈ Memory.cards s →
            Memory.turnUp (Memory.id c) x ∈ Memory.turnUp (Memory.id c)
                                             <$> Memory.cards s) as Hin'
    by (intros x Hx; by apply list_elem_of_fmap_2).
  destruct (Memory.flippedCards s) as [|a [|b rest]] eqn:Hflipped.
  - (* the first card of a pair *)
    eexists. split; [by apply click_first|].
    unfold memoryConsistent. simpl. split_and!; try done.
    + apply NoDup_singleton.
    + intros i ->%list_elem_of_singleton.
      exists (Memory.turnUp (Memory.id c) c). split_and!; [by apply Hin'|..].
      * by destruct (face_id _ _ (face_turnUp (Memory.id c) c)).
      * by rewrite flipped_turnUp, bool_decide_eq_true_2.
      * by rewrite matched_turnUp.
    + lia.
    + by rewrite Hcnt'.
  - (* the second card of a pair *)
    destruct (Hfl a) as (c0 & Hc0 & <- & Hup0 & Hm0); [by left|].
    assert (Memory.id c0 ≠ Memory.id c) as Hne.
    { intros Heq. assert (c0 = c) as -> by (by eapply memory_id_inj).
      by rewrite Hup0 in Hflip. }
    destruct (decide (Memory.value c0 = Memory.value c)) as [Hval|Hval].
    + eexists. split; [by apply click_second_match|].
      set (l1 := Memory.turnUp (Memory.id c) <$> Memory.cards s) in *.
      assert (NoDup (Memory.id <$> l1)) as Hids1
        by (unfold l1; rewrite ids_fmap; [done|apply face_turnUp]).
      assert (length (List.filter Memory.matched
                        (Memory.markMatched (Memory.id c0) (Memory.id c) <$> l1))
              = 2 * (Memory.matchesFound s + 1)) as Hcnt2.
      { unfold Memory.markMatched. rewrite matched_count_match.
        rewrite filter_two_ids by done.
        rewrite (filter_id_one _ _ _ (Memory.turnUp (Memory.id c) c0)),
          (filter_id_one _ _ _ (Memory.turnUp (Memory.id c) c)).
        - lia.
        - done.
        - by apply Hin'.
        - by destruct (face_id _ _ (face_turnUp (Memory.id c) c)).
        - by rewrite matched_turnUp, Hm.
        - done.
        - by apply Hin'.
        - by destruct (face_id _ _ (face_turnUp (Memory.id c) c0)).
        - by rewrite matched_turnUp, Hm0. }
      assert (∀ card1 card2,
                card1 ∈ Memory.markMatched (Memory.id c0) (Memory.id c) <$> l1 →
                card2 ∈ Memory.markMatched (Memory.id c0) (Memory.id c) <$> l1 →
                Memory.value card1 = Memory.value card2 →
                Memory.matched card1 = Memory.matched card2) as Htw2.
      { assert (∀ x y, x ∈ l1 → y ∈ l1 → Memory.value x = Memory.value y →
                  (Memory.id x = Memory.id c0 ∨ Memory.id x = Memory.id c) →
                  Memory.id y = Memory.id c0 ∨ Memory.id y = Memory.id c) as Hpair.
        { intros x y Hx Hy Hxy Hx'.
          pose proof (Hin' _ Hc0) as Hc0'. pose proof (Hin' _ Hc) as Hc'.
          destruct (face_id _ _ (face_turnUp (Memory.id c) c0)) as [Hi0 Hv0].
          destruct (face_id _ _ (face_turnUp (Memory.id c) c)) as [Hi1 Hv1].
          destruct (deck_pairs l1 _ _ y Hf' Hc0' Hc') as [Hy'|Hy'];
            [done|congruence|congruence| |left; congruence|right; congruence].
          rewrite <- Hxy.
          destruct Hx' as [Hx'|Hx'].
          - rewrite <- Hi0 in Hx'.
            by rewrite (memory_id_inj l1 _ _ Hids1 Hx Hc0' Hx').
          - rewrite <- Hi1 in Hx'.
            rewrite (memory_id_inj l1 _ _ Hids1 Hx Hc' Hx'). congruence. }
        intros y1 y2 H1 H2 Hv.
        apply list_elem_of_fmap_1 in H1 as (x1 & -> & H1).
        apply list_elem_of_fmap_1 in H2 as (x2 & -> & H2).
        destruct (face_id _ _ (face_markMatched (Memory.id c0) (Memory.id c) x1))
          as [_ Hv1].
        destruct (face_id _ _ (face_markMatched (Memory.id c0) (Memory.id c) x2))
          as [_ Hv2].
        rewrite Hv1, Hv2 in Hv.
        pose proof (Hpair x1 x2 H1 H2 Hv) as H12.
        pose proof (Hpair x2 x1 H2 H1 (eq_sym Hv)) as H21.
        unfold Memory.markMatched.
        repeat case_bool_decide; simpl; try done;
          try (by apply Htw'); tauto. }
      rewrite gameOverEffect_unfold. simpl.
      destruct (decide (Memory.matchesFound s + 1 = 4)) as [H4|H4];
        [rewrite (bool_decide_eq_true_2 _ H4)
        |rewrite (bool_decide_eq_false_2 _ H4)];
        unfold memoryConsistent; simpl; split_and!;
        try done; try lia; try apply NoDup_nil_2;
        try (by rewrite face_fmap by apply face_markMatched);
        try (intros i Hi; by apply elem_of_nil in Hi);
        try (by rewrite bool_decide_eq_true_2);
        try (by rewrite bool_decide_eq_false_2).
      by rewrite Hover.
    + eexists. split; [by apply click_second_mismatch|].
      rewrite gameOverEffect_unfold. simpl.
      rewrite bool_decide_eq_false_2 by done.
      unfold memoryConsistent. simpl. split_and!; try done.
      * apply NoDup_cons. split; [|apply NoDup_singleton].
        by intros ?%list_elem_of_singleton.
      * intros i Hi. apply elem_of_cons in Hi as [->|Hi];
          [|apply list_elem_of_singleton in Hi as ->].
        -- exists (Memory.turnUp (Memory.id c) c0).
           split_and!; [by apply Hin'|..].
           ++ by destruct (face_id _ _ (face_turnUp (Memory.id c) c0)).
           ++ by rewrite flipped_turnUp, Hup0, orb_true_r.
           ++ by rewrite matched_turnUp.
        -- exists (Memory.turnUp (Memory.id c) c).
           split_and!; [by apply Hin'|..].
           ++ by destruct (face_id _ _ (face_turnUp (Memory.id c) c)).
           ++ by rewrite flipped_turnUp, bool_decide_eq_true_2.
           ++ by rewrite matched_turnUp.
      * intros id1 id2 [= <- <-]. by rewrite last_snoc.
      * by rewrite Hcnt'.
      * lia.
      * by rewrite Hover.
  - (* two cards are face up: the click is refused *)
    assert (rest = []) as -> by (destruct rest; [done|simpl in Hlen; lia]).
    exists s. split; [|done]. apply cardClicked_refused. rewrite Hflipped. auto.
Qed.

Lemma memoryConsistent_step (s : Memory.State) (e : Memory.Event) :
  memoryConsistent s → shuffledDeck e →
  ∃ s', Memory.step s e = Some s' ∧ memoryConsistent s'.
Proof.
  intros Hcons He. destruct e as [k| |shuffled|].
  - by apply memoryConsistent_click.
  - by apply memoryConsistent_timeout.
  - eexists. split; [apply step_reset|by apply memoryConsistent_reset].
  - eexists. split; [done|by apply memoryConsistent_close].
Qed.

Lemma memoryConsistent_runFrom (events : list Memory.Event) (s : Memory.State) :
  memoryConsistent s → Forall shuffledDeck events →
  ∃ s', Memory.runFrom s events = Some s' ∧ memoryConsistent s'.
Proof.
  intros Hcons Hev. revert s Hcons.
  induction Hev as [|e events He _ IH]; intros s Hcons; [by exists s|].
  destruct (memoryConsistent_step s e Hcons He) as (s1 & Hs1 & Hcons1).
  simpl. rewrite Hs1. by apply IH.
Qed.

Lemma matched_all (l : list Memory.Card) :
  length (List.filter Memory.matched l) = length l
  ↔ Forall (λ card, Memory.matched card = true) l.
Proof.
  induction l as [|c l IH]; [by split|]. simpl.
  pose proof (List.filter_length_le Memory.matched l) as Hle.
  rewrite Forall_cons. destruct (Memory.matched c); simpl.
  - rewrite <- IH. split; [intros [= ->]; by split|intros [_ ->]; done].
  - split; [lia|by intros [? _]].
Qed.

(** X27. The memory game never throws and keeps its books, whatever cards
    are clicked, whenever the timeouts expire and the game is reset: the
    grid holds eight cards; the matched cards are two for each match found,
    and a card is matched exactly when the card of the same value is; the
    matches found never exceed the moves; the game is over exactly when four
    matches are found, which is when every card is matched; the notice is
    only open when the game is over, and it then tells the number of moves
    that the page shows. *)
Theorem memory_invariants (initialCards : list Memory.Card)
    (events : list Memory.Event) :
  initialCards ≡ₚ Memory.deck → Forall shuffledDeck events →
  ∃ s, Memory.run initialCards events = Some s
    ∧ length (Memory.cards s) = 8
    ∧ length (List.filter Memory.matched (Memory.cards s))
      = 2 * Memory.matchesFound s
    ∧ (∀ card1 card2, card1 ∈ Memory.cards s → card2 ∈ Memory.cards s →
         Memory.value card1 = Memory.value card2 →
         Memory.matched card1 = Memory.matched card2)
    ∧ Memory.matchesFound s ≤ Memory.moves s
    ∧ (Memory.gameOver s = true ↔ Memory.matchesFound s = 4)
    ∧ (Memory.gameOver s = true
       ↔ Forall (λ card, Memory.matched card = true) (Memory.cards s))
    ∧ (Memory.modalOpen s = true → Memory.gameOver s = true)
    ∧ (Memory.gameOver s = true →
         Memory.modalMessage s
         = "Congratulations! You matched all pairs in "
           +:+ pretty (Memory.moves s) +:+ " moves!").
Proof.
  intros Hp Hev.
  destruct (memoryConsistent_runFrom events (Memory.initial initialCards))
    as (s & Hrun & Hcons); [by apply memoryConsistent_initial|done|].
  exists s. split; [done|].
  destruct Hcons
    as (Hf & Hnd & Hfl & Hlen & Htm & Hcnt & Htw & Hgo & Hmv & Hmo & Hmsg).
  destruct (memory_ids _ Hf) as [_ H8].
  assert (Memory.gameOver s = true ↔ Memory.matchesFound s = 4) as Hover
    by (rewrite Hgo; apply bool_decide_eq_true).
  split_and!; try done.
  rewrite <- matched_all, Hover, Hcnt, H8. lia.
Qed.

Lemma memory_invariants_witness :
  ∃ s, Memory.run Memory.deck
         [Memory.CardClick 0; Memory.CardClick 1; Memory.CardClick 2;
          Memory.CardClick 4; Memory.Reset (reverse Memory.deck)] = Some s
    ∧ length (Memory.cards s) = 8
    ∧ Memory.matchesFound s ≤ Memory.moves s.
Proof.
  destruct (memory_invariants Memory.deck
              [Memory.CardClick 0; Memory.CardClick 1; Memory.CardClick 2;
               Memory.CardClick 4; Memory.Reset (reverse Memory.deck)])
    as (s & Hrun & H8 & _ & _ & Hle & _).
  - reflexivity.
  - repeat constructor. simpl. apply (reverse_Permutation Memory.deck).
  - exists s. by split_and!.
Defined.

Lemma timeouts_expire (tm : list (nat * nat)) (s : Memory.State) :
  Memory.timers s = tm → tm ≠ [] →
  ∃ s', Memory.runFrom s (replicate (length tm) Memory.Timeout) = Some s'
    ∧ Memory.timers s' = [] ∧ Memory.flippedCards s' = []
    ∧ Memory.matchesFound s' = Memory.matchesFound s
    ∧ Memory.moves s' = Memory.moves s
    ∧ Memory.gameOver s' = Memory.gameOver s
    ∧ Memory.matched <$> Memory.cards s' = Memory.matched <$> Memory.cards s.
Proof.
  revert s. induction tm as [|[id1 id2] tm IH]; intros s Ht Hne; [done|].
  cbn [length replicate Memory.runFrom]. rewrite (step_timeout s id1 id2 tm Ht).
  assert (Memory.matched <$> (Memory.turnDown id1 id2 <$> Memory.cards s)
          = Memory.matched <$> Memory.cards s) as Hm.
  { rewrite <- list_fmap_compose. apply list_fmap_ext. intros _ card _.
    apply matched_turnDown. }
  destruct tm as [|t tm].
  { eexists. split; [done|]. simpl. by split_and!. }
  destruct (IH {| Memory.cards := Memory.turnDown id1 id2 <$> Memory.cards s;
                  Memory.flippedCards := [];
                  Memory.matchesFound := Memory.matchesFound s;
                  Memory.moves := Memory.moves s;
                  Memory.gameOver := Memory.gameOver s;
                  Memory.modalOpen := Memory.modalOpen s;
                  Memory.modalMessage := Memory.modalMessage s;
                  Memory.timers := t :: tm |})
    as (s' & Hrun & H1 & H2 & H3 & H4 & H5 & H6); [done..|].
  exists s'. split; [done|]. simpl in *. split_and!; try done.
  by rewrite H6.
Qed.

(** X28. The grid never stays locked.  In every state of a run at most two
    cards are waiting face up, they are distinct, face up and not matched;
    and when there are two, the timeout that turns them back is pending.
    Once the pending timeouts have expired, fewer than two cards are
    waiting, so clicks are accepted again, and the timeouts have changed
    neither the counters nor which cards are matched. *)
Theorem memory_never_locked (initialCards : list Memory.Card)
    (events : list Memory.Event) (s : Memory.State) :
  initialCards ≡ₚ Memory.deck → Forall shuffledDeck events →
  Memory.run initialCards events = Some s →
  length (Memory.flippedCards s) ≤ 2
  ∧ NoDup (Memory.flippedCards s)
  ∧ (∀ i, i ∈ Memory.flippedCards s →
       ∃ card, card ∈ Memory.cards s ∧ Memory.id card = i
         ∧ Memory.flipped card = true ∧ Memory.matched card = false)
  ∧ (∀ id1 id2, Memory.flippedCards s = [id1; id2] →
       last (Memory.timers s) = Some (id1, id2))
  ∧ ∃ s', Memory.runFrom s (replicate (length (Memory.timers s)) Memory.Timeout)
          = Some s'
      ∧ Memory.timers s' = [] ∧ length (Memory.flippedCards s') < 2
      ∧ Memory.matchesFound s' = Memory.matchesFound s
      ∧ Memory.moves s' = Memory.moves s
      ∧ Memory.gameOver s' = Memory.gameOver s
      ∧ Memory.matched <$> Memory.cards s' = Memory.matched <$> Memory.cards s.
Proof.
  intros Hp Hev Hrun.
  destruct (memoryConsistent_runFrom events (Memory.initial initialCards))
    as (s0 & Hrun0 & Hcons); [by apply memoryConsistent_initial|done|].
  unfold Memory.run in Hrun. rewrite Hrun0 in Hrun. injection Hrun as ->.
  destruct Hcons
    as (Hf & Hnd & Hfl & Hlen & Htm & Hcnt & Htw & Hgo & Hmv & Hmo & Hmsg).
  split_and!; try done.
  destruct (Memory.timers s) as [|t tm] eqn:Ht.
  - exists s. simpl. split_and!; try done.
    destruct (Memory.flippedCards s) as [|a [|b [|? ?]]] eqn:Hfc;
      simpl in *; try lia.
    by specialize (Htm a b eq_refl).
  - destruct (timeouts_expire (t :: tm) s Ht) as (s' & Hrun' & H1 & H2 & H3);
      [done|].
    exists s'. split_and!; try done; try apply H3. rewrite H2. simpl. lia.
Qed.

Lemma memory_never_locked_witness :
  ∃ s', Memory.runFrom
          {| Memory.cards :=
               Memory.turnUp 3 <$> (Memory.turnUp 1 <$> Memory.deck);
             Memory.flippedCards := [1; 3];
             Memory.matchesFound := 0; Memory.moves := 1;
             Memory.gameOver := false; Memory.modalOpen := false;
             Memory.modalMessage := EmptyString;
             Memory.timers := [(1, 3)] |}
          [Memory.Timeout] = Some s'
    ∧ Memory.timers s' = [] ∧ length (Memory.flippedCards s') < 2.
Proof.
  destruct (memory_never_locked Memory.deck
              [Memory.CardClick 0; Memory.CardClick 2]
              {| Memory.cards :=
                   Memory.turnUp 3 <$> (Memory.turnUp 1 <$> Memory.deck);
                 Memory.flippedCards := [1; 3];
                 Memory.matchesFound := 0; Memory.moves := 1;
                 Memory.gameOver := false; Memory.modalOpen := false;
                 Memory.modalMessage := EmptyString;
                 Memory.timers := [(1, 3)] |})
    as (_ & _ & _ & _ & s' & Hrun & Ht & Hlen & _).
  - reflexivity.
  - by repeat constructor.
  - vm_compute. reflexivity.
  - exists s'. by split_and!.
Defined.

Lemma setFlipped_same (card : Memory.Card) (f : bool) :
  Memory.flipped card = f → Memory.setFlipped f card = card.
Proof. destruct card. simpl. by intros ->. Qed.

Lemma turnUp_other (i : nat) (card : Memory.Card) :
  Memory.id card ≠ i → Memory.turnUp i card = card.
Proof. intros Hne. unfold Memory.turnUp. by rewrite bool_decide_eq_false_2. Qed.

Lemma turnUp_same (card : Memory.Card) :
  Memory.turnUp (Memory.id card) card = Memory.setFlipped true card.
Proof. unfold Memory.turnUp. by rewrite bool_decide_eq_true_2. Qed.

Lemma turnDown_turned (id1 id2 : nat) (card : Memory.Card) :
  Memory.flipped card = false →
  Memory.id card = id1 ∨ Memory.id card = id2 →
  Memory.turnDown id1 id2 (Memory.setFlipped true card) = card.
Proof.
  destruct card as [i v m f]. simpl. intros -> Hid. unfold Memory.turnDown. simpl.
  destruct Hid as [->| ->].
  - by rewrite bool_decide_eq_true_2.
  - by rewrite (bool_decide_eq_true_2 (id2 = id2)), orb_true_r.
Qed.

(** X29. A turn of the memory game, from any state of a run in which no
    card is waiting face up, no timeout is pending and the game goes on:
    two clicks on different cards that are face down and not matched count
    as one move.  If the two cards have the same value they stay face up and
    become matched, all other cards being kept, and this is one more match,
    which ends the game when it is the fourth.  Otherwise both are face up,
    every click is refused until the timeout expires, and the timeout
    restores the cards as they were before the turn, a match not being
    counted. *)
Theorem memory_turn (initialCards : list Memory.Card) (events : list Memory.Event)
    (s : Memory.State) (k1 k2 : nat) (c1 c2 : Memory.Card) :
  initialCards ≡ₚ Memory.deck → Forall shuffledDeck events →
  Memory.run initialCards events = Some s →
  Memory.flippedCards s = [] → Memory.timers s = [] →
  Memory.gameOver s = false → k1 ≠ k2 →
  Memory.cards s !! k1 = Some c1 → Memory.cards s !! k2 = Some c2 →
  Memory.matched c1 = false → Memory.flipped c1 = false →
  Memory.matched c2 = false → Memory.flipped c2 = false →
  (Memory.value c1 = Memory.value c2 →
     ∃ s2, Memory.runFrom s [Memory.CardClick k1; Memory.CardClick k2] = Some s2
       ∧ Memory.cards s2
         = (λ card, if bool_decide (card = c1 ∨ card = c2)
                    then Memory.mkCard (Memory.id card) (Memory.value card)
                           true true
                    else card) <$> Memory.cards s
       ∧ Memory.flippedCards s2 = [] ∧ Memory.timers s2 = []
       ∧ Memory.matchesFound s2 = Memory.matchesFound s + 1
       ∧ Memory.moves s2 = Memory.moves s + 1
       ∧ Memory.gameOver s2 = bool_decide (Memory.matchesFound s = 3))
  ∧ (Memory.value c1 ≠ Memory.value c2 →
     ∃ s2 s3,
       Memory.runFrom s [Memory.CardClick k1; Memory.CardClick k2] = Some s2
       ∧ Memory.cards s2
         = (λ card, if bool_decide (card = c1 ∨ card = c2)
                    then Memory.setFlipped true card else card)
           <$> Memory.cards s
       ∧ Memory.flippedCards s2 = [Memory.id c1; Memory.id c2]
       ∧ (∀ k, Memory.step s2 (Memory.CardClick k) = Some s2)
       ∧ Memory.step s2 Memory.Timeout = Some s3
       ∧ Memory.cards s3 = Memory.cards s
       ∧ Memory.flippedCards s3 = [] ∧ Memory.timers s3 = []
       ∧ Memory.matchesFound s3 = Memory.matchesFound s
       ∧ Memory.moves s3 = Memory.moves s + 1
       ∧ Memory.gameOver s3 = false).
Proof.
  intros Hp Hev Hrun Hnone Hquiet Hover Hk Hk1 Hk2 Hm1 Hf1 Hm2 Hf2.
  destruct (memoryConsistent_runFrom events (Memory.initial initialCards))
    as (s0 & Hrun0 & Hcons); [by apply memoryConsistent_initial|done|].
  unfold Memory.run in Hrun. rewrite Hrun0 in Hrun. injection Hrun as ->.
  destruct Hcons
    as (Hf & Hnd & Hfl & Hlen & Htm & Hcnt & Htw & Hgo & Hmv & Hmo & Hmsg).
  destruct (memory_ids _ Hf) as [Hids _].
  assert (c1 ∈ Memory.cards s) as Hc1 by (by eapply list_elem_of_lookup_2).
  assert (c2 ∈ Memory.cards s) as Hc2 by (by eapply list_elem_of_lookup_2).
  assert (Memory.id c1 ≠ Memory.id c2) as Hne.
  { intros Heq. apply Hk. apply (NoDup_lookup _ _ _ (Memory.id c1) Hids).
    - by rewrite list_lookup_fmap, Hk1.
    - by rewrite list_lookup_fmap, Hk2, Heq. }
  assert (Memory.id c2 ≠ Memory.id c1) as Hne' by congruence.
  assert (Memory.matchesFound s ≠ 4) as Hnot4.
  { intros H4. by rewrite Hgo, bool_decide_eq_true_2 in Hover. }
  assert (∀ x, x ∈ Memory.cards s → Memory.id x = Memory.id c1 → x = c1) as Hinj1
    by (intros x Hx Hid; by apply (memory_id_inj (Memory.cards s))).
  assert (∀ x, x ∈ Memory.cards s → Memory.id x = Memory.id c2 → x = c2) as Hinj2
    by (intros x Hx Hid; by apply (memory_id_inj (Memory.cards s))).
  (* the first click *)
  pose proof (click_first s k1 c1 Hk1 Hm1 Hf1 Hover Hnone) as Hstep1.
  set (s1 := {| Memory.cards := Memory.turnUp (Memory.id c1) <$> Memory.cards s;
                Memory.flippedCards := [Memory.id c1];
                Memory.matchesFound := Memory.matchesFound s;
                Memory.moves := Memory.moves s;
                Memory.gameOver := Memory.gameOver s;
                Memory.modalOpen := Memory.modalOpen s;
                Memory.modalMessage := Memory.modalMessage s;
                Memory.timers := Memory.timers s |}) in Hstep1.
  set (c0 := Memory.turnUp (Memory.id c1) c1).
  destruct (face_id _ _ (face_turnUp (Memory.id c1) c1)) as [Hid0 Hval0].
  fold c0 in Hid0, Hval0.
  assert (NoDup (Memory.id <$> Memory.cards s1)) as Hids1
    by (simpl; rewrite ids_fmap; [done|apply face_turnUp]).
  assert (Memory.cards s1 !! k2 = Some c2) as Hk2'.
  { simpl. rewrite list_lookup_fmap, Hk2. simpl.
    by rewrite turnUp_other by done. }
  assert (c0 ∈ Memory.cards s1) as Hc0 by (by apply list_elem_of_fmap_2).
  assert (Memory.flippedCards s1 = [Memory.id c0]) as Hfl1
    by (by rewrite Hid0).
  split.
  - intros Hval.
    pose proof (click_second_match s1 k2 c2 c0 Hids1 Hk2' Hm2 Hf2 Hover Hfl1 Hc0)
      as Hstep2.
    rewrite Hval0, Hid0 in Hstep2. specialize (Hstep2 Hval).
    eexists. split; [cbn [Memory.runFrom]; by rewrite Hstep1, Hstep2|].
    rewrite gameOverEffect_unfold. simpl.
    assert (Memory.markMatched (Memory.id c1) (Memory.id c2)
              <$> (Memory.turnUp (Memory.id c2)
                     <$> (Memory.turnUp (Memory.id c1) <$> Memory.cards s))
            = (λ card, if bool_decide (card = c1 ∨ card = c2)
                       then Memory.mkCard (Memory.id card) (Memory.value card)
                              true true
                       else card) <$> Memory.cards s) as Hcards.
    { rewrite <- !list_fmap_compose. apply list_fmap_ext. intros j x Hx.
      apply list_elem_of_lookup_2 in Hx. simpl.
      destruct (decide (Memory.id x = Memory.id c1)) as [Hx1|Hx1].
      { rewrite (Hinj1 x Hx Hx1), bool_decide_eq_true_2 by auto.
        rewrite turnUp_same, turnUp_other by done.
        unfold Memory.markMatched. simpl.
        by rewrite bool_decide_eq_true_2. }
      destruct (decide (Memory.id x = Memory.id c2)) as [Hx2|Hx2].
      { rewrite (Hinj2 x Hx Hx2), bool_decide_eq_true_2 by auto.
        rewrite (turnUp_other (Memory.id c1) c2), turnUp_same by done.
        unfold Memory.markMatched. simpl.
        by rewrite (bool_decide_eq_true_2 (Memory.id c2 = Memory.id c2)),
          orb_true_r. }
      rewrite (turnUp_other (Memory.id c1) x), (turnUp_other (Memory.id c2) x)
        by done.
      unfold Memory.markMatched.
      rewrite (bool_decide_eq_false_2 (Memory.id x = Memory.id c1)),
        (bool_decide_eq_false_2 (Memory.id x = Memory.id c2)) by done.
      simpl. rewrite bool_decide_eq_false_2; [done|].
      intros [->| ->]; congruence. }
    destruct (decide (Memory.matchesFound s = 3)) as [H3|H3].
    + rewrite (bool_decide_eq_true_2 (_ + 1 = 4)) by lia. simpl.
      split_and!; try done. by rewrite bool_decide_eq_true_2.
    + rewrite (bool_decide_eq_false_2 (_ + 1 = 4)) by lia. simpl.
      split_and!; try done. by rewrite bool_decide_eq_false_2.
  - intros Hval.
    pose proof (click_second_mismatch s1 k2 c2 c0 Hids1 Hk2' Hm2 Hf2 Hover Hfl1 Hc0)
      as Hstep2.
    rewrite Hval0, Hid0 in Hstep2. specialize (Hstep2 Hval).
    rewrite gameOverEffect_unfold in Hstep2. subst s1.
    cbn [Memory.matchesFound Memory.timers] in Hstep2.
    rewrite bool_decide_eq_false_2 in Hstep2 by done.
    rewrite Hquiet in Hstep1, Hstep2. cbn [app] in Hstep2.
    eexists.
    exists {| Memory.cards :=
                Memory.turnDown (Memory.id c1) (Memory.id c2)
                <$> (Memory.turnUp (Memory.id c2)
                       <$> (Memory.turnUp (Memory.id c1) <$> Memory.cards s));
              Memory.flippedCards := [];
              Memory.matchesFound := Memory.matchesFound s;
              Memory.moves := Memory.moves s + 1;
              Memory.gameOver := Memory.gameOver s;
              Memory.modalOpen := Memory.modalOpen s;
              Memory.modalMessage := Memory.modalMessage s;
              Memory.timers := [] |}.
    split; [cbn [Memory.runFrom]; by rewrite Hstep1, Hstep2|].
    cbn [Memory.cards Memory.flippedCards Memory.matchesFound Memory.moves
         Memory.gameOver Memory.timers].
    split_and!; try done.
    + rewrite <- !list_fmap_compose. apply list_fmap_ext. intros j x Hx.
      apply list_elem_of_lookup_2 in Hx. simpl.
      destruct (decide (Memory.id x = Memory.id c1)) as [Hx1|Hx1].
      { rewrite (Hinj1 x Hx Hx1), bool_decide_eq_true_2 by auto.
        by rewrite turnUp_same, turnUp_other. }
      destruct (decide (Memory.id x = Memory.id c2)) as [Hx2|Hx2].
      { rewrite (Hinj2 x Hx Hx2), bool_decide_eq_true_2 by auto.
        by rewrite (turnUp_other (Memory.id c1) c2), turnUp_same. }
      rewrite (turnUp_other (Memory.id c1) x), (turnUp_other (Memory.id c2) x)
        by done.
      rewrite bool_decide_eq_false_2; [done|]. intros [->| ->]; congruence.
    + intros k. apply cardClicked_refused. auto.
    + by rewrite (step_timeout _ (Memory.id c1) (Memory.id c2) []).
    + simpl. rewrite <- !list_fmap_compose.
      rewrite <- (list_fmap_id (Memory.cards s)) at 2.
      apply list_fmap_ext. intros j x Hx.
      apply list_elem_of_lookup_2 in Hx. simpl.
      destruct (decide (Memory.id x = Memory.id c1)) as [Hx1|Hx1].
      { rewrite (Hinj1 x Hx Hx1), turnUp_same, turnUp_other by done.
        apply turnDown_turned; auto. }
      destruct (decide (Memory.id x = Memory.id c2)) as [Hx2|Hx2].
      { rewrite (Hinj2 x Hx Hx2), (turnUp_other (Memory.id c1) c2), turnUp_same
          by done.
        apply turnDown_turned; auto. }
      rewrite (turnUp_other (Memory.id c1) x), (turnUp_other (Memory.id c2) x)
        by done.
      unfold Memory.turnDown.
      by rewrite (bool_decide_eq_false_2 (Memory.id x = Memory.id c1)),
        (bool_decide_eq_false_2 (Memory.id x = Memory.id c2)).
Qed.

Lemma memory_turn_witness :
  ∃ s2, Memory.runFrom (Memory.initial Memory.deck)
          [Memory.CardClick 0; Memory.CardClick 1] = Some s2
    ∧ Memory.matchesFound s2 = 1 ∧ Memory.moves s2 = 1
    ∧ Memory.flippedCards s2 = [].
Proof.
  destruct (memory_turn Memory.deck [] (Memory.initial Memory.deck) 0 1
              (Memory.mkCard 1 "A" false false)
              (Memory.mkCard 2 "A" false false)) as [Hmatch _];
    try reflexivity; [constructor|lia|].
  destruct (Hmatch eq_refl) as (s2 & Hrun & _ & Hfl & _ & Hmf & Hmv & _).
  exists s2. by split_and!.
Defined.

Lemma gameOverEffect_fields (s : Memory.State) :
  Memory.cards (Memory.gameOverEffect s) = Memory.cards s
  ∧ Memory.flippedCards (Memory.gameOverEffect s) = Memory.flippedCards s
  ∧ Memory.timers (Memory.gameOverEffect s) = Memory.timers s.
Proof. rewrite gameOverEffect_unfold. by case_bool_decide. Qed.

Lemma turnUp_face_up (i : nat) (card : Memory.Card) :
  Memory.flipped card = true → Memory.turnUp i card = card.
Proof.
  intros Hup. unfold Memory.turnUp. case_bool_decide; [|done].
  by apply setFlipped_same.
Qed.

Lemma markMatched_other (id1 id2 : nat) (card : Memory.Card) :
  Memory.id card ≠ id1 → Memory.id card ≠ id2 →
  Memory.markMatched id1 id2 card = card.
Proof.
  intros H1 H2. unfold Memory.markMatched.
  by rewrite !bool_decide_eq_false_2.
Qed.

Lemma turnDown_other (id1 id2 : nat) (card : Memory.Card) :
  Memory.id card ≠ id1 → Memory.id card ≠ id2 →
  Memory.turnDown id1 id2 card = card.
Proof.
  intros H1 H2. unfold Memory.turnDown.
  by rewrite !bool_decide_eq_false_2.
Qed.

Lemma elem_of_fmap_fixed (g : Memory.Card → Memory.Card) (l : list Memory.Card)
    (card : Memory.Card) :
  g card = card → card ∈ l → card ∈ g <$> l.
Proof. intros Hg Hc. rewrite <- Hg. by apply list_elem_of_fmap_2. Qed.

Lemma stranded_step (s s' : Memory.State) (e : Memory.Event) (card : Memory.Card) :
  memoryConsistent s → stranded card s → withoutReset e →
  Memory.step s e = Some s' → stranded card s'.
Proof.
  intros Hcons (Hin & Hup & Hm & Hnotin & Htimers) He Hstep.
  destruct e as [k| |shuffled|]; [| | done |].
  - (* a click *)
    destruct (Memory.cards s !! k) as [c|] eqn:Hk; last first.
    { rewrite cardClicked_refused in Hstep by (by rewrite Hk).
      by injection Hstep as <-. }
    destruct (Memory.matched c) eqn:Hmc.
    { rewrite cardClicked_refused in Hstep
        by (rewrite Hk; intros ? [= <-]; auto).
      by injection Hstep as <-. }
    destruct (Memory.flipped c) eqn:Hfc.
    { rewrite cardClicked_refused in Hstep
        by (rewrite Hk; intros ? [= <-]; auto).
      by injection Hstep as <-. }
    destruct (Memory.gameOver s) eqn:Hover.
    { rewrite cardClicked_refused in Hstep by auto.
      by injection Hstep as <-. }
    destruct Hcons
      as (Hf & Hnd & Hfl & Hlen & Htm & Hcnt & Htw & Hgo & Hmv & Hmo & Hmsg).
    destruct (memory_ids _ Hf) as [Hids _].
    assert (c ∈ Memory.cards s) as Hc by (by eapply list_elem_of_lookup_2).
    assert (Memory.id card ≠ Memory.id c) as Hne.
    { intros Heq. assert (card = c) as -> by (by eapply memory_id_inj).
      by rewrite Hup in Hfc. }
    destruct (Memory.flippedCards s) as [|a [|b rest]] eqn:Hflipped.
    + rewrite (click_first s k c) in Hstep by done. injection Hstep as <-.
      unfold stranded. simpl. split_and!; try done.
      * apply elem_of_fmap_fixed; [by apply turnUp_face_up|done].
      * by intros ?%list_elem_of_singleton.
    + destruct (Hfl a) as (c0 & Hc0 & <- & Hup0 & Hm0); [by left|].
      assert (Memory.id card ≠ Memory.id c0) as Hne0
        by (intros Heq; apply Hnotin; rewrite Heq; by left).
      destruct (decide (Memory.value c0 = Memory.value c)) as [Hval|Hval].
      * rewrite (click_second_match s k c c0) in Hstep by done.
        injection Hstep as <-.
        destruct (gameOverEffect_fields
                    {| Memory.cards :=
                         Memory.markMatched (Memory.id c0) (Memory.id c)
                         <$> (Memory.turnUp (Memory.id c) <$> Memory.cards s);
                       Memory.flippedCards := [];
                       Memory.matchesFound := Memory.matchesFound s + 1;
                       Memory.moves := Memory.moves s + 1;
                       Memory.gameOver := Memory.gameOver s;
                       Memory.modalOpen := Memory.modalOpen s;
                       Memory.modalMessage := Memory.modalMessage s;
                       Memory.timers := Memory.timers s |})
          as (H1 & H2 & H3).
        unfold stranded. rewrite H1, H2, H3. simpl. split_and!; try done.
        -- apply elem_of_fmap_fixed; [by apply markMatched_other|].
           apply elem_of_fmap_fixed; [by apply turnUp_face_up|done].
        -- apply not_elem_of_nil.
      * rewrite (click_second_mismatch s k c c0) in Hstep by done.
        injection Hstep as <-.
        destruct (gameOverEffect_fields
                    {| Memory.cards :=
                         Memory.turnUp (Memory.id c) <$> Memory.cards s;
                       Memory.flippedCards := [Memory.id c0; Memory.id c];
                       Memory.matchesFound := Memory.matchesFound s;
                       Memory.moves := Memory.moves s + 1;
                       Memory.gameOver := Memory.gameOver s;
                       Memory.modalOpen := Memory.modalOpen s;
                       Memory.modalMessage := Memory.modalMessage s;
                       Memory.timers :=
                         Memory.timers s ++ [(Memory.id c0, Memory.id c)] |})
          as (H1 & H2 & H3).
        unfold stranded. rewrite H1, H2, H3. simpl. split_and!; try done.
        -- apply elem_of_fmap_fixed; [by apply turnUp_face_up|done].
        -- rewrite !not_elem_of_cons. split_and!; [done..|apply not_elem_of_nil].
        -- apply Forall_app. split; [done|]. apply Forall_singleton.
           simpl. split; congruence.
    + assert (rest = []) as -> by (destruct rest; [done|simpl in Hlen; lia]).
      rewrite cardClicked_refused in Hstep by (rewrite Hflipped; auto).
      injection Hstep as <-. unfold stranded. by rewrite Hflipped.
  - (* the expiry of a timeout *)
    destruct (Memory.timers s) as [|[id1 id2] rest] eqn:Ht.
    { simpl in Hstep. rewrite Ht in Hstep. injection Hstep as <-.
      unfold stranded. by rewrite Ht. }
    rewrite (step_timeout s id1 id2 rest Ht) in Hstep. injection Hstep as <-.
    apply Forall_cons in Htimers as [[Hid1 Hid2] Hrest]. simpl in Hid1, Hid2.
    unfold stranded. simpl. split_and!; try done.
    + apply elem_of_fmap_fixed; [|done]. apply turnDown_other; congruence.
    + apply not_elem_of_nil.
  - (* the notice is closed *)
    injection Hstep as <-. by unfold stranded.
Qed.

(** X30. A card can be stranded.  [resetGame] does not cancel the pending
    timeouts: a timeout that expires after a reset empties [flippedCards]
    while a card turned up since then stays face up.  Such a card, face up,
    not matched and in no list, stays so whatever is clicked afterwards and
    whenever the timeouts expire: the grid refuses the clicks on it, fewer
    than four matches are found and the game is not over, until the next
    reset. *)
Theorem memory_stranded_card (initialCards : list Memory.Card)
    (events later : list Memory.Event) (s : Memory.State) (card : Memory.Card) :
  initialCards ≡ₚ Memory.deck → Forall shuffledDeck events →
  Memory.run initialCards events = Some s →
  stranded card s → Forall withoutReset later →
  ∃ s', Memory.runFrom s later = Some s'
    ∧ stranded card s'
    ∧ Memory.matchesFound s' < 4 ∧ Memory.gameOver s' = false.
Proof.
  intros Hp Hev Hrun Hstr Hlater.
  destruct (memoryConsistent_runFrom events (Memory.initial initialCards))
    as (s0 & Hrun0 & Hcons); [by apply memoryConsistent_initial|done|].
  unfold Memory.run in Hrun. rewrite Hrun0 in Hrun. injection Hrun as ->.
  clear Hrun0 Hev Hp.
  assert (∃ s', Memory.runFrom s later = Some s'
            ∧ stranded card s' ∧ memoryConsistent s')
    as (s' & Hrun' & Hstr' & Hcons').
  { revert s Hcons Hstr.
    induction Hlater as [|e later He _ IH]; intros s Hcons Hstr; [by exists s|].
    destruct (memoryConsistent_step s e Hcons) as (s1 & Hs1 & Hcons1).
    { by destruct e. }
    simpl. rewrite Hs1. apply IH; [done|]. by apply (stranded_step s s1 e). }
  exists s'. split_and!; try done.
  - destruct Hstr' as (Hin & Hup & Hm & _).
    destruct Hcons' as (Hf & _ & _ & _ & _ & Hcnt & _).
    destruct (memory_ids _ Hf) as [_ H8].
    assert (length (List.filter Memory.matched (Memory.cards s')) ≠ 8) as Hno.
    { rewrite <- H8. rewrite matched_all, Forall_forall. intros Hall.
      by rewrite (Hall card Hin) in Hm. }
    pose proof (List.filter_length_le Memory.matched (Memory.cards s')) as Hle.
    lia.
  - destruct Hstr' as (Hin & Hup & Hm & _).
    destruct Hcons' as (Hf & _ & _ & _ & _ & Hcnt & _ & Hgo & _).
    destruct (memory_ids _ Hf) as [_ H8].
    rewrite Hgo. apply bool_decide_eq_false_2. intros H4.
    assert (Forall (λ c, Memory.matched c = true) (Memory.cards s')) as Hall
      by (apply matched_all; lia).
    rewrite Forall_forall in Hall. by rewrite (Hall card Hin) in Hm.
Qed.

Lemma memory_stranded_card_witness :
  ∃ s s', Memory.run Memory.deck
            [Memory.CardClick 0; Memory.CardClick 2; Memory.Reset Memory.deck;
             Memory.CardClick 4; Memory.Timeout] = Some s
    ∧ stranded (Memory.mkCard 5 "C" false true) s
    ∧ Memory.flippedCards s = [] ∧ Memory.timers s = []
    ∧ Memory.runFrom s [Memory.CardClick 4; Memory.CardClick 5; Memory.Timeout]
      = Some s'
    ∧ stranded (Memory.mkCard 5 "C" false true) s'
    ∧ Memory.gameOver s' = false.
Proof.
  assert (∃ s, Memory.run Memory.deck
                 [Memory.CardClick 0; Memory.CardClick 2;
                  Memory.Reset Memory.deck; Memory.CardClick 4; Memory.Timeout]
               = Some s
            ∧ stranded (Memory.mkCard 5 "C" false true) s
            ∧ Memory.flippedCards s = [] ∧ Memory.timers s = [])
    as (s & Hrun & Hstr & Hfl & Ht).
  { eexists. split; [vm_compute; reflexivity|].
    unfold stranded. simpl. split_and!; try done.
    - do 4 right. left.
    - apply not_elem_of_nil. }
  destruct (memory_stranded_card Memory.deck
              [Memory.CardClick 0; Memory.CardClick 2; Memory.Reset Memory.deck;
               Memory.CardClick 4; Memory.Timeout]
              [Memory.CardClick 4; Memory.CardClick 5; Memory.Timeout]
              s (Memory.mkCard 5 "C" false true))
    as (s' & Hrun' & Hstr' & _ & Hover).
  - reflexivity.
  - by repeat constructor.
  - exact Hrun.
  - exact Hstr.
  - by repeat constructor.
  - exists s, s'. by split_and!.
Defined.
